(** * The load-once cache of external scripts ([src/adloader.js])

    A shallow embedding of [loadExternalScript] and of the two helpers
    nested in it, [requestResource] and [getCacheObject], together with
    the completion handler the loader arms on the script element.

    Modelling choices, all taken from the source:
    - [_requestCache] is a [WeakMap] from documents to plain objects used
      as maps from urls to cache objects.  Documents are identified by a
      number ([document] is the ambient default one), the per-document
      object is a [gmap string nat] and a cache object lives in a heap of
      objects, the map holding its address: the closure handed to
      [requestResource] captures the cache object itself, so the handler
      and the registry alias one mutable object.  The per-document object
      is a plain object: besides the entries stored in it, a lookup finds
      what it inherits from [Object.prototype] ([constructor],
      [toString], ...), and the assignment to the key [__proto__] makes
      the cache object its prototype instead of storing an entry.
    - A callback is an opaque function value: an identity and whether
      calling it throws.  Its invocation is recorded in the log.  It does
      not call back into the loader.
    - The DOM and [utils.js] are external: the policy gate, the element
      factory and the insertion helper are fields of an environment
      record, each saying whether the corresponding call throws.  A
      script element is recorded as the loader built it: the properties
      it assigned and the attributes it then added with [setAttribute];
      what the element holds in the end, an attribute replacing the
      property of its name, is read through [src_of], [onload_of] and
      [onreadystatechange_of].
    - Every observable effect is appended to a log of events.

    Two more parts follow the loader, each opening with its own modelling
    choices: a caller of the loader, the Optable RTD module
    ([src/unnamed/part_000]), and the payload filter of the analytics
    tracker ([src/integrationExamples/gpt/analytics-tracker.js]). *)

From stdpp Require Import base strings gmap list.

(** * The program

    ** Values *)

Record callback := Callback { cb_id : nat; cb_throws : bool }.

(** The [callback] argument: absent, a value that is not a function, or a
    function ([callback && typeof callback === 'function']). *)
Inductive cbarg :=
| CbAbsent
| CbNotFunction
| CbFunction (c : callback).

Abbreviation attrs := (list (string * string)).

Record request := Request {
  url : string;
  moduleType : string;
  moduleCode : string;
  callback_arg : cbarg;
  doc_arg : option nat;
  attributes : option attrs
}.

(** [{ loaded, tag, callbacks }] *)
Record cacheObject := CacheObject {
  loaded : bool;
  tag : option nat;
  callbacks : list callback
}.

(** A script element, as the loader built it.  The fields are the
    properties the loader assigned or tests: [s_src] is what
    [jptScript.src = tagSrc] stored, the two handler slots hold the
    address of the cache object captured by the completion closure.
    [s_attrs] are the attributes added afterwards with [setAttribute], in
    the order of the calls. *)
Record script := Script {
  s_doc : nat;
  s_type : string;
  s_async : bool;
  s_readyState : option string;
  s_onreadystatechange : option nat;
  s_onload : option nat;
  s_src : string;
  s_attrs : attrs;
  s_inserted : bool
}.

Inductive event :=
| EvIsActivityAllowed (mtype mcode : string)
| EvLogError (msg : string)
| EvLogWarn (msg : string)
| EvCreateElement (d t : nat)
| EvSetScriptAttributes (t : nat) (a : attrs)
| EvInsertElement (t d : nat)
| EvCallback (c : callback).

Inductive exn :=
| ExnCallback (c : callback)
| ExnCreateElement (d : nat)
| ExnSetScriptAttributes (t : nat)
| ExnInsertElement (t : nat)
| ExnTypeError.

Inductive completion (A : Type) :=
| Return (v : A)
| Throw (e : exn).
Arguments Return {A} v.
Arguments Throw {A} e.

(** What a call evaluates to: [undefined] (a bare [return]), [null] (the
    initial [tag]) or a script element. *)
Inductive jsvalue :=
| Undefined
| Null
| Element (t : nat).

Record state := State {
  _requestCache : gmap nat (gmap string nat);
  heap : list cacheObject;
  scripts : list script;
  log : list event
}.

(** The external collaborators. *)
Record Env := {
  isActivityAllowed : string → string → bool;
  createElement_throws : nat → bool;
  newReadyState : nat → option string;
  setScriptAttributes_throws : nat → attrs → bool;
  insertElement_throws : nat → bool
}.

Definition document : nat := 0.

Definition _approvedLoadExternalJSList : list string :=
  [ "debugging"; "outstream";
    "aaxBlockmeter"; "adagio"; "adloox"; "arcspan"; "airgrid"; "browsi";
    "brandmetrics"; "clean.io"; "humansecurityMalvDefense"; "humansecurity";
    "confiant"; "contxtful"; "hadron"; "mediafilter"; "medianet";
    "azerionedge"; "a1Media"; "geoedge"; "qortex"; "dynamicAdBoost";
    "51Degrees"; "symitridap"; "wurfl"; "nodalsAi"; "anonymised"; "optable";
    "justtag"; "tncId"; "ftrackId"; "id5" ]%string.

Definition includes (l : list string) (x : string) : bool :=
  bool_decide (x ∈ l).

(** JavaScript truthiness of a string and of an optional string. *)
Definition truthy (s : string) : bool := negb (bool_decide (s = ""%string)).

Definition truthy_opt (o : option string) : bool :=
  match o with
  | Some s => truthy s
  | None => false
  end.

(** ** A state and exception monad *)

Definition M (A : Type) : Type := state → state * completion A.

Definition ret {A} (v : A) : M A := λ st, (st, Return v).

Definition throw {A} (e : exn) : M A := λ st, (st, Throw e).

Definition bind {A B} (m : M A) (k : A → M B) : M B := λ st,
  match m st with
  | (st', Return v) => k v st'
  | (st', Throw e) => (st', Throw e)
  end.

Definition try_catch {A} (m : M A) (h : exn → M A) : M A := λ st,
  match m st with
  | (st', Return v) => (st', Return v)
  | (st', Throw e) => h e st'
  end.

Definition gets {A} (f : state → A) : M A := λ st, (st, Return (f st)).

Definition modify (f : state → state) : M unit := λ st, (f st, Return tt).

Declare Scope js_scope.
Delimit Scope js_scope with js.
Notation "x <- m ;; k" := (bind m (λ x, k))
  (at level 100, m at next level, right associativity) : js_scope.
Notation "m ;;; k" := (bind m (λ _, k))
  (at level 100, right associativity) : js_scope.
Local Open Scope js_scope.

(** ** State access *)

Definition emit (e : event) : M unit :=
  modify (λ st, State (_requestCache st) (heap st) (scripts st) (log st ++ [e])).

(** Modelled from the spec: [logError] and [logWarn] of [utils.js], which
    is not under [src/]; a failure is made visible through the log only. *)
Definition logError (msg : string) : M unit := emit (EvLogError msg).
Definition logWarn (msg : string) : M unit := emit (EvLogWarn msg).

Definition upd_heap (f : list cacheObject → list cacheObject) (st : state) : state :=
  State (_requestCache st) (f (heap st)) (scripts st) (log st).

Definition upd_scripts (f : list script → list script) (st : state) : state :=
  State (_requestCache st) (heap st) (f (scripts st)) (log st).

Definition upd_cache (f : gmap nat (gmap string nat) → gmap nat (gmap string nat))
    (st : state) : state :=
  State (f (_requestCache st)) (heap st) (scripts st) (log st).

Definition no_object : cacheObject := CacheObject false None [].

(** Reading through a reference; references held by the registry and by
    the handlers always point into the heap (see [wf]). *)
Definition deref (a : nat) (st : state) : cacheObject :=
  default no_object (heap st !! a).

Definition set_loaded (o : cacheObject) : cacheObject :=
  CacheObject true (tag o) (callbacks o).

Definition set_tag (t : nat) (o : cacheObject) : cacheObject :=
  CacheObject (loaded o) (Some t) (callbacks o).

Definition push (c : callback) (o : cacheObject) : cacheObject :=
  CacheObject (loaded o) (tag o) (callbacks o ++ [c]).

Definition update_object (a : nat) (f : cacheObject → cacheObject) : M unit :=
  modify (upd_heap (λ h, <[a := f (default no_object (h !! a))]> h)).

Definition update_script (t : nat) (f : script → script) : M unit :=
  modify (upd_scripts (alter f t)).

(** ** The source functions *)

(** [callback()] *)
Definition invoke (c : callback) : M unit :=
  emit (EvCallback c) ;;;
  if cb_throws c then throw (ExnCallback c) else ret tt.

(** The properties every plain object inherits from [Object.prototype]:
    each holds a function, [__proto__] an object. *)
Definition Object_prototype : list string :=
  [ "constructor"; "__defineGetter__"; "__defineSetter__"; "hasOwnProperty";
    "__lookupGetter__"; "__lookupSetter__"; "isPrototypeOf";
    "propertyIsEnumerable"; "toString"; "valueOf"; "__proto__";
    "toLocaleString" ]%string.

(** What [cachedDocObj[url]] is when it is truthy: a cache object the
    loader stored, or a value the per-document object inherits, which has
    no [loaded], no [callbacks] and no [tag]. *)
Inductive found :=
| Entry (a : nat)
| Inherited.

(** The per-document object [cachedDocObj] is the map of the entries
    assigned to it.  The assignment [cachedDocObj['__proto__'] =
    cacheObject] stores no property: it makes the cache object the
    prototype of [cachedDocObj]; the key [__proto__] of the map stands
    for that link, and [cachedDocObj['__proto__']] reads it back.

    [inherits cachedDocObj u st]: [u], not a key of the map, names a
    truthy property that [cachedDocObj] inherits: a property of
    [Object.prototype] or, through a cache object made its prototype,
    that object's [loaded] once it is [true], its [tag] once it is an
    element, its [callbacks]. *)
Definition inherits (cachedDocObj : gmap string nat) (u : string) (st : state) : bool :=
  bool_decide (u ∈ Object_prototype)
  || match cachedDocObj !! "__proto__"%string with
     | Some a =>
         bool_decide (u = "loaded"%string) && loaded (deref a st)
         || bool_decide (u = "tag"%string) && bool_decide (tag (deref a st) ≠ None)
         || bool_decide (u = "callbacks"%string)
     | None => false
     end.

(** The own entry of [(doc, url)], if there is one. *)
Definition entry_of (doc : nat) (u : string) (st : state) : option nat :=
  match _requestCache st !! doc with
  | Some cachedDocObj => cachedDocObj !! u
  | None => None
  end.

(** [getCacheObject(doc, url)] *)
Definition getCacheObject (doc : nat) (u : string) (st : state) : option found :=
  match _requestCache st !! doc with
  | Some cachedDocObj =>
      match cachedDocObj !! u with
      | Some a => Some (Entry a)
      | None => if inherits cachedDocObj u st then Some Inherited else None
      end
  | None => None
  end.

(** [for (let i = 0; i < cacheObject.callbacks.length; i++) cacheObject.callbacks[i]()] *)
Fixpoint run_callbacks (cbs : list callback) : M unit :=
  match cbs with
  | [] => ret tt
  | c :: rest => invoke c ;;; run_callbacks rest
  end.

(** The closure handed to [requestResource]; [a] is the captured
    [cacheObject].  The loop reads [callbacks.length] at every turn, but
    the queue cannot grow while it runs: only [loadExternalScript] pushes,
    and only while [loaded] is false. *)
Definition onComplete (a : nat) : M unit :=
  update_object a set_loaded ;;;
  try_catch
    (cbs <- gets (λ st, callbacks (deref a st)) ;; run_callbacks cbs)
    (λ _, logError "Error executing callback").

(** [doc.createElement('script')], with the two assignments that follow it
    ([type], [async]).  The new element is the next free slot of
    [scripts]; its initial [readyState] is the environment's. *)
Definition createElement (env : Env) (doc : nat) : M nat :=
  if createElement_throws env doc then throw (ExnCreateElement doc)
  else
    t <- gets (λ st, length (scripts st)) ;;
    modify (upd_scripts (λ l, l ++ [Script doc "text/javascript" true
                                      (newReadyState env doc) None None "" [] false])) ;;;
    emit (EvCreateElement doc t) ;;;
    ret t.

Definition add_attrs (a : attrs) (s : script) : script :=
  Script (s_doc s) (s_type s) (s_async s) (s_readyState s)
         (s_onreadystatechange s) (s_onload s) (s_src s)
         (s_attrs s ++ a) (s_inserted s).

Definition set_inserted (s : script) : script :=
  Script (s_doc s) (s_type s) (s_async s) (s_readyState s)
         (s_onreadystatechange s) (s_onload s) (s_src s)
         (s_attrs s) true.

(** Modelled from the spec: [setScriptAttributes] of [utils.js], which is
    not under [src/]; it applies the caller's attributes to the element,
    by the docstring of [loadExternalScript] with [setAttribute], key by
    key. *)
Definition setScriptAttributes (env : Env) (doc t : nat) (a : attrs) : M unit :=
  if setScriptAttributes_throws env doc a then throw (ExnSetScriptAttributes t)
  else
    update_script t (add_attrs a) ;;;
    emit (EvSetScriptAttributes t a).

(** Modelled from the spec: [insertElement] of [utils.js], which is not
    under [src/]; it inserts the element into the document. *)
Definition insertElement (env : Env) (t doc : nat) : M unit :=
  if insertElement_throws env doc then throw (ExnInsertElement t)
  else
    update_script t set_inserted ;;;
    emit (EvInsertElement t doc).

Definition set_onreadystatechange (h : option nat) (s : script) : script :=
  Script (s_doc s) (s_type s) (s_async s) (s_readyState s) h (s_onload s)
         (s_src s) (s_attrs s) (s_inserted s).

Definition set_onload (h : option nat) (s : script) : script :=
  Script (s_doc s) (s_type s) (s_async s) (s_readyState s)
         (s_onreadystatechange s) h (s_src s) (s_attrs s) (s_inserted s).

Definition set_src (u : string) (s : script) : script :=
  Script (s_doc s) (s_type s) (s_async s) (s_readyState s)
         (s_onreadystatechange s) (s_onload s) u (s_attrs s) (s_inserted s).

Definition set_readyState (r : option string) (s : script) : script :=
  Script (s_doc s) (s_type s) (s_async s) r
         (s_onreadystatechange s) (s_onload s) (s_src s) (s_attrs s) (s_inserted s).

(** [requestResource(tagSrc, callback, doc, attributes)], nested in
    [loadExternalScript] and so closing over its [url]; [cb] is the
    address captured by the completion closure passed as [callback].
    [getCacheObject] finds the entry [loadExternalScript] has just
    stored, never an inherited value (lemma [getCacheObject_alloc]). *)
Definition requestResource (env : Env) (u tagSrc : string) (cb : nat) (doc : nat)
    (attributes : option attrs) : M jsvalue :=
  jptScript <- createElement env doc ;;
  cacheObject <- gets (getCacheObject doc u) ;;
  match cacheObject with
  | Some (Entry a) => update_object a (set_tag jptScript)
  | _ => ret tt
  end ;;;
  rs <- gets (λ st, s_readyState <$> scripts st !! jptScript) ;;
  (if truthy_opt (mjoin rs)
   then update_script jptScript (set_onreadystatechange (Some cb))
   else update_script jptScript (set_onload (Some cb))) ;;;
  update_script jptScript (set_src tagSrc) ;;;
  match attributes with
  | Some a => setScriptAttributes env doc jptScript a
  | None => ret tt
  end ;;;
  insertElement env jptScript doc ;;;
  ret (Element jptScript).

Definition tag_value (o : cacheObject) : jsvalue :=
  match tag o with
  | Some t => Element t
  | None => Null
  end.

(** [loadExternalScript(url, moduleType, moduleCode, callback, doc, attributes)] *)
Definition loadExternalScript (env : Env) (r : request) : M jsvalue :=
  emit (EvIsActivityAllowed (moduleType r) (moduleCode r)) ;;;
  if negb (isActivityAllowed env (moduleType r) (moduleCode r)) then ret Undefined
  else if negb (truthy (moduleCode r)) || negb (truthy (url r)) then
    logError "cannot load external script without url and moduleCode" ;;;
    ret Undefined
  else if negb (includes _approvedLoadExternalJSList (moduleCode r)) then
    logError (moduleCode r ++ " not whitelisted for loading external JavaScript") ;;;
    ret Undefined
  else
    let doc := default document (doc_arg r) in
    storedCachedObject <- gets (getCacheObject doc (url r)) ;;
    match storedCachedObject with
    | Some (Entry a) =>
        match callback_arg r with
        | CbFunction c =>
            o <- gets (deref a) ;;
            if loaded o then invoke c else update_object a (push c)
        | _ => ret tt
        end ;;;
        o <- gets (deref a) ;;
        ret (tag_value o)
    | Some Inherited =>
        (* [storedCachedObject.loaded] is [undefined], and so are
           [storedCachedObject.callbacks] and [storedCachedObject.tag] *)
        match callback_arg r with
        | CbFunction c => throw ExnTypeError
        | _ => ret tt
        end ;;;
        ret Undefined
    | None =>
        cachedDocObj <- gets (λ st, default ∅ (_requestCache st !! doc)) ;;
        a <- gets (λ st, length (heap st)) ;;
        modify (upd_heap (λ h, h ++ [CacheObject false None []])) ;;;
        modify (upd_cache (λ m, <[doc := <[url r := a]> cachedDocObj]> m)) ;;;
        match callback_arg r with
        | CbFunction c => update_object a (push c)
        | _ => ret tt
        end ;;;
        logWarn ("module " ++ moduleCode r ++ " is loading external JavaScript") ;;;
        requestResource env (url r) (url r) a doc (attributes r)
    end.

(** ** The environment's side: events dispatched at a script element *)

Definition lower_ascii (c : Ascii.ascii) : Ascii.ascii :=
  let n := Ascii.nat_of_ascii c in
  if (65 <=? n) && (n <=? 90) then Ascii.ascii_of_nat (n + 32) else c.

Fixpoint lower (s : string) : string :=
  match s with
  | EmptyString => EmptyString
  | String c rest => String (lower_ascii c) (lower rest)
  end.

(** The value of the attribute named [k] (in lower case) after the calls
    of [setAttribute] recorded in [a]: of the calls for that name, which
    an HTML document compares in ASCII lower case, the last one. *)
Definition attribute (k : string) (a : attrs) : option string :=
  last (snd <$> filter (λ kv, lower kv.1 = k) a).

(** What the element holds in the end.  An attribute named [src],
    [onload] or [onreadystatechange] replaces what the property of that
    name held; a handler given as an attribute is the page's code, not
    the loader's closure. *)
Definition src_of (s : script) : string :=
  default (s_src s) (attribute "src" (s_attrs s)).

Definition onload_of (s : script) : option nat :=
  match attribute "onload" (s_attrs s) with
  | Some _ => None
  | None => s_onload s
  end.

Definition onreadystatechange_of (s : script) : option nat :=
  match attribute "onreadystatechange" (s_attrs s) with
  | Some _ => None
  | None => s_onreadystatechange s
  end.

(** The attributes of a request hold one named [k]. *)
Definition names (k : string) (a : option attrs) : bool :=
  match attribute k (default [] a) with
  | Some _ => true
  | None => false
  end.

Definition is_done (s : string) : bool :=
  bool_decide (s = "loaded"%string) || bool_decide (s = "complete"%string).

(** The element's [readyState] becomes [s] and its [onreadystatechange]
    handler, if any, runs. *)
Definition dispatch_readystatechange (t : nat) (s : string) : M unit :=
  update_script t (set_readyState (Some s)) ;;;
  h <- gets (λ st, onreadystatechange_of <$> scripts st !! t) ;;
  match mjoin h with
  | Some a =>
      if is_done s then
        update_script t (set_onreadystatechange None) ;;;
        onComplete a
      else ret tt
  | None => ret tt
  end.

(** The element's [onload] handler, if any, runs. *)
Definition dispatch_load (t : nat) : M unit :=
  h <- gets (λ st, onload_of <$> scripts st !! t) ;;
  match mjoin h with
  | Some a => onComplete a
  | None => ret tt
  end.

(** ** Runs: calls interleaved with the browser's events *)

Inductive action :=
| ActCall (r : request)
| ActLoad (t : nat)
| ActReadyState (t : nat) (s : string).

(** The browser fetches, and so signals, only elements that were inserted
    into a document. *)
Definition is_inserted (t : nat) (st : state) : bool :=
  default false (s_inserted <$> scripts st !! t).

Definition exec (env : Env) (a : action) (st : state)
    : state * option (completion jsvalue) :=
  match a with
  | ActCall r =>
      let '(st', res) := loadExternalScript env r st in (st', Some res)
  | ActLoad t =>
      if is_inserted t st then ((dispatch_load t st).1, None) else (st, None)
  | ActReadyState t s =>
      if is_inserted t st then ((dispatch_readystatechange t s st).1, None)
      else (st, None)
  end.

(** The final state and the outcomes of the calls, in order. *)
Fixpoint run (env : Env) (acts : list action) (st : state)
    : state * list (completion jsvalue) :=
  match acts with
  | [] => (st, [])
  | a :: rest =>
      let '(st1, o) := exec env a st in
      let '(st2, rs) := run env rest st1 in
      (st2, match o with Some res => res :: rs | None => rs end)
  end.

(** * Vocabulary of the statements *)

Definition add_log (evs : list event) (st : state) : state :=
  State (_requestCache st) (heap st) (scripts st) (log st ++ evs).

(** The context a request addresses ([if (!doc) doc = document]). *)
Definition doc_of (r : request) : nat := default document (doc_arg r).

(** The three checks of [loadExternalScript]: validation of the inputs,
    the policy gate, the allow-list. *)
Definition valid (r : request) : bool := truthy (moduleCode r) && truthy (url r).

Definition approved (r : request) : bool :=
  includes _approvedLoadExternalJSList (moduleCode r).

Definition passes (env : Env) (r : request) : bool :=
  isActivityAllowed env (moduleType r) (moduleCode r) && valid r && approved r.

(** The loader's three DOM calls all succeed for this document and these
    attributes. *)
Definition constructs (env : Env) (doc : nat) (a : option attrs) : bool :=
  negb (createElement_throws env doc)
  && negb (from_option (setScriptAttributes_throws env doc) false a)
  && negb (insertElement_throws env doc).

Definition created (evs : list event) : list (nat * nat) :=
  omap (λ e, match e with EvCreateElement d t => Some (d, t) | _ => None end) evs.

Definition insertions (evs : list event) : list (nat * nat) :=
  omap (λ e, match e with EvInsertElement t d => Some (t, d) | _ => None end) evs.

Definition attribute_sets (evs : list event) : list (nat * attrs) :=
  omap (λ e, match e with EvSetScriptAttributes t a => Some (t, a) | _ => None end) evs.

Definition invocations (evs : list event) : list callback :=
  omap (λ e, match e with EvCallback c => Some c | _ => None end) evs.

Definition gate_queries (evs : list event) : list (string * string) :=
  omap (λ e, match e with EvIsActivityAllowed t c => Some (t, c) | _ => None end) evs.

(** The callbacks a drain reaches: up to and including the first one that
    throws. *)
Fixpoint reached (cbs : list callback) : list callback :=
  match cbs with
  | [] => []
  | c :: rest => c :: if cb_throws c then [] else reached rest
  end.

Definition any_throws (cbs : list callback) : bool :=
  existsb cb_throws cbs.

(** The events one run of the completion handler appends. *)
Definition drain_events (cbs : list callback) : list event :=
  (EvCallback <$> reached cbs)
  ++ if any_throws cbs then [EvLogError "Error executing callback"] else [].

(** ** The branches of [loadExternalScript] and the loader, in normal form *)

Definition gate_event (r : request) : event :=
  EvIsActivityAllowed (moduleType r) (moduleCode r).

(** What a rejected call logs. *)
Definition rejection_events (env : Env) (r : request) : list event :=
  gate_event r ::
  if negb (isActivityAllowed env (moduleType r) (moduleCode r)) then []
  else if negb (valid r) then
    [EvLogError "cannot load external script without url and moduleCode"]
  else
    [EvLogError (moduleCode r ++ " not whitelisted for loading external JavaScript")].

Definition queued (r : request) : list callback :=
  match callback_arg r with
  | CbFunction c => [c]
  | _ => []
  end.

(** The cache-hit branch, on an entry at address [a]. *)
Definition hit (a : nat) (r : request) (st : state) : state * completion jsvalue :=
  match callback_arg r with
  | CbFunction c =>
      if loaded (deref a st) then
        (add_log [EvCallback c] st,
         if cb_throws c then Throw (ExnCallback c)
         else Return (tag_value (deref a st)))
      else
        (upd_heap (λ h, <[a := push c (deref a st)]> h) st,
         Return (tag_value (deref a st)))
  | _ => (st, Return (tag_value (deref a st)))
  end.

(** The state a cache miss reaches just before it calls the loader: a new
    cache object, holding the callback if it is a function, entered under
    [(doc, url)]. *)
Definition alloc_entry (r : request) (st : state) : state :=
  State (<[doc_of r := <[url r := length (heap st)]>
                         (default ∅ (_requestCache st !! doc_of r))]> (_requestCache st))
        (heap st ++ [CacheObject false None (queued r)])
        (scripts st)
        (log st ++ [EvLogWarn ("module " ++ moduleCode r
                               ++ " is loading external JavaScript")]).

(** The element as [requestResource] leaves it before attributes and
    insertion: the handler is armed on [onreadystatechange] when the
    element has a [readyState], on [onload] otherwise. *)
Definition new_script (env : Env) (doc cb : nat) (src : string) : script :=
  let rs := newReadyState env doc in
  Script doc "text/javascript" true rs
         (if truthy_opt rs then Some cb else None)
         (if truthy_opt rs then None else Some cb)
         src [] false.

(** The state after [createElement] and the assignments up to [src]. *)
Definition created_state (env : Env) (u src : string) (cb doc : nat) (st : state)
    (s : script) (evs : list event) : state :=
  State (_requestCache st)
        (match getCacheObject doc u st with
         | Some (Entry a) => <[a := set_tag (length (scripts st)) (deref a st)]> (heap st)
         | _ => heap st
         end)
        (scripts st ++ [s])
        (log st ++ EvCreateElement doc (length (scripts st)) :: evs).

Definition requestResource_nf (env : Env) (u src : string) (cb doc : nat)
    (attributes : option attrs) (st : state) : state * completion jsvalue :=
  let t := length (scripts st) in
  let s0 := new_script env doc cb src in
  if createElement_throws env doc then (st, Throw (ExnCreateElement doc))
  else
    match attributes with
    | Some a =>
        if setScriptAttributes_throws env doc a then
          (created_state env u src cb doc st s0 [], Throw (ExnSetScriptAttributes t))
        else if insertElement_throws env doc then
          (created_state env u src cb doc st (add_attrs a s0)
             [EvSetScriptAttributes t a],
           Throw (ExnInsertElement t))
        else
          (created_state env u src cb doc st (set_inserted (add_attrs a s0))
             [EvSetScriptAttributes t a; EvInsertElement t doc],
           Return (Element t))
    | None =>
        if insertElement_throws env doc then
          (created_state env u src cb doc st s0 [], Throw (ExnInsertElement t))
        else
          (created_state env u src cb doc st (set_inserted s0)
             [EvInsertElement t doc],
           Return (Element t))
    end.

(** The element a successful load leaves in [scripts]. *)
Definition final_script (env : Env) (r : request) (cb : nat) : script :=
  set_inserted
    (add_attrs (default [] (attributes r)) (new_script env (doc_of r) cb (url r))).

Definition attribute_events (t : nat) (a : option attrs) : list event :=
  match a with
  | Some a => [EvSetScriptAttributes t a]
  | None => []
  end.

(** The events a successful entry-creating call appends. *)
Definition load_events (r : request) (t : nat) : list event :=
  [gate_event r;
   EvLogWarn ("module " ++ moduleCode r ++ " is loading external JavaScript");
   EvCreateElement (doc_of r) t]
  ++ attribute_events t (attributes r)
  ++ [EvInsertElement t (doc_of r)].

(** The state a successful entry-creating call reaches. *)
Definition load_state (env : Env) (r : request) (st : state) : state :=
  State (<[doc_of r := <[url r := length (heap st)]>
                         (default ∅ (_requestCache st !! doc_of r))]> (_requestCache st))
        (heap st ++ [CacheObject false (Some (length (scripts st))) (queued r)])
        (scripts st ++ [final_script env r (length (heap st))])
        (log st ++ load_events r (length (scripts st))).

(** ** Steps that create nothing *)

Definition is_dom_event (e : event) : bool :=
  match e with
  | EvCreateElement _ _ | EvSetScriptAttributes _ _ | EvInsertElement _ _ => true
  | _ => false
  end.

(** No element is created, given attributes or inserted. *)
Definition silent (evs : list event) : Prop :=
  Forall (λ e, is_dom_event e = false) evs.

(** The fields of an element that only the loader's construction writes. *)
Definition static (s : script) : nat * string * attrs * bool * option nat :=
  (s_doc s, s_src s, s_attrs s, s_inserted s, s_onload s).

(** [st'] comes from [st] by a step that creates no entry and no element:
    the registry, the tags and the static part of every element are the
    same, handlers are at most detached, the log grows by silent events. *)
Record quiet (st st' : state) : Prop := Quiet {
  q_cache : _requestCache st' = _requestCache st;
  q_heap : length (heap st') = length (heap st);
  q_tag : ∀ a, tag (deref a st') = tag (deref a st);
  q_scripts : length (scripts st') = length (scripts st);
  q_static : ∀ t, static <$> scripts st' !! t = static <$> scripts st !! t;
  q_handler : ∀ t a, s_onreadystatechange <$> scripts st' !! t = Some (Some a) →
                     s_onreadystatechange <$> scripts st !! t = Some (Some a);
  q_log : ∃ evs, log st' = log st ++ evs ∧ silent evs
}.

(** ** Runs on one entry *)

(** An action that touches the entry [(doc, u)] only: a call that passes
    the three checks and addresses it, or an event of the browser. *)
Definition same_entry (env : Env) (doc : nat) (u : string) (act : action) : bool :=
  match act with
  | ActCall r => passes env r && bool_decide (doc_of r = doc) && bool_decide (url r = u)
  | _ => true
  end.

Definition is_call (act : action) : bool :=
  match act with
  | ActCall _ => true
  | _ => false
  end.

Definition calls (acts : list action) : list request :=
  omap (λ act, match act with ActCall r => Some r | _ => None end) acts.

(** The call returned the element [t], or its own callback threw. *)
Definition returns_or_own_throw (t : nat) (r : request) (res : completion jsvalue) : Prop :=
  res = Return (Element t)
  ∨ ∃ c, callback_arg r = CbFunction c ∧ cb_throws c = true ∧ res = Throw (ExnCallback c).

(** The event by which the browser signals that the element [t] of the
    document [doc] has loaded: a [readyState] change to ['complete'] where
    elements have a [readyState], the [load] event otherwise. *)
Definition completion_signal (env : Env) (doc t : nat) : action :=
  if truthy_opt (newReadyState env doc) then ActReadyState t "complete" else ActLoad t.

(** ** Concrete inputs *)

(** Every caller allowed, no DOM call throws, elements have no
    [readyState] (the [onload] path). *)
Definition env_plain : Env :=
  Build_Env (λ _ _, true) (λ _, false) (λ _, None) (λ _ _, false) (λ _, false).

(** As [env_plain], with elements that carry a [readyState] (the
    [onreadystatechange] path). *)
Definition env_legacy : Env :=
  Build_Env (λ _ _, true) (λ _, false) (λ _, Some "loading"%string)
            (λ _ _, false) (λ _, false).

(** The policy gate denies everything. *)
Definition env_deny : Env :=
  Build_Env (λ _ _, false) (λ _, false) (λ _, None) (λ _ _, false) (λ _, false).

(** [createElement] throws. *)
Definition env_broken : Env :=
  Build_Env (λ _ _, true) (λ _, true) (λ _, None) (λ _ _, false) (λ _, false).

(** The state of a freshly loaded module: an empty [_requestCache]. *)
Definition initial : state := State ∅ [] [] [].

Definition cb1 : callback := Callback 1 false.
Definition cb2 : callback := Callback 2 false.
Definition cb3 : callback := Callback 3 false.
Definition cb_bad : callback := Callback 9 true.

Definition req (u code : string) (cb : cbarg) (doc : option nat) (a : option attrs)
    : request :=
  Request u "rtd" code cb doc a.

(** ** Invariants of the reachable states *)

(** Registry entries point into the heap and no two of them share a cache
    object; handlers hold allocated objects; every element belongs to the
    entry of its document and source. *)
Record wf (st : state) : Prop := Wf {
  wf_bound : ∀ d u a, getCacheObject d u st = Some (Entry a) → a < length (heap st);
  wf_inj : ∀ d u d' u' a,
    getCacheObject d u st = Some (Entry a) → getCacheObject d' u' st = Some (Entry a) →
    d = d' ∧ u = u';
  wf_handler : ∀ t s a,
    scripts st !! t = Some s →
    s_onload s = Some a ∨ s_onreadystatechange s = Some a →
    a < length (heap st);
  wf_owner : ∀ t s,
    scripts st !! t = Some s → ∃ a, getCacheObject (s_doc s) (s_src s) st = Some (Entry a)
}.

Definition reachable (env : Env) (st : state) : Prop :=
  ∃ acts, (run env acts initial).1 = st.

(** Every registry entry has its element. *)
Definition live (st : state) : Prop :=
  ∀ d u a, getCacheObject d u st = Some (Entry a) → ∃ t, tag (deref a st) = Some t.

(** ** Attributes, other contexts, entries that never complete *)

Definition set_attributes (x : option attrs) (r : request) : request :=
  Request (url r) (moduleType r) (moduleCode r) (callback_arg r) (doc_arg r) x.

(** An action that concerns the entry [(doc, u)] only: a call for it,
    whether it passes the checks or not, or an event of the browser. *)
Definition addresses (doc : nat) (u : string) (act : action) : bool :=
  match act with
  | ActCall r => bool_decide (doc_of r = doc) && bool_decide (url r = u)
  | _ => true
  end.

(** The same action, a call carrying the attributes [f] chooses for it. *)
Definition reattribute (f : request → option attrs) (act : action) : action :=
  match act with
  | ActCall r => ActCall (set_attributes (f r) r)
  | _ => act
  end.


(** The callback [c] is handed only to calls for [(doc, u)]. *)
Definition private_to (doc : nat) (u : string) (c : callback) (act : action) : Prop :=
  match act with
  | ActCall r => callback_arg r = CbFunction c → doc_of r = doc ∧ url r = u
  | _ => True
  end.

(** The callback a call leaves in the queue of the entry [(doc, u)]. *)
Definition joined (env : Env) (doc : nat) (u : string) (act : action) : list callback :=
  match act with
  | ActCall r =>
      if passes env r && bool_decide (doc_of r = doc) && bool_decide (url r = u)
      then queued r else []
  | _ => []
  end.

(** The entry [(doc, u)], at [a], never completes: it is pending with
    queue [q], no inserted element signals to it, no element of this
    document and url is inserted, and [c] is queued nowhere else. *)
Record dead (doc : nat) (u : string) (a : nat) (c : callback) (q : list callback)
    (st : state) : Prop := Dead {
  dead_entry : getCacheObject doc u st = Some (Entry a);
  dead_object : ∃ o, heap st !! a = Some o ∧ loaded o = false ∧ callbacks o = q;
  dead_signal : ∀ t s, scripts st !! t = Some s →
                       s_onload s = Some a ∨ s_onreadystatechange s = Some a →
                       s_inserted s = false;
  dead_fetch : ∀ t s, scripts st !! t = Some s →
                      s_doc s = doc → s_src s = u → s_inserted s = false;
  dead_private : ∀ a', a' ≠ a → c ∉ callbacks (deref a' st)
}.

(** ** What no step undoes *)

(** [o'] is a later stage of the cache object [o]: once loaded it stays
    loaded, with the queue it had; its tag is the same; the queue is only
    extended. *)
Definition grows (o o' : cacheObject) : Prop :=
  (loaded o = true → loaded o' = true ∧ callbacks o' = callbacks o)
  ∧ tag o' = tag o
  ∧ callbacks o `prefix_of` callbacks o'.

(** [st'] is a later stage of [st]: every registry entry is still there,
    at the same cache object; every cache object has grown; every element
    is still there, with the fields its construction gave it; the log is
    extended. *)
Record extends (st st' : state) : Prop := Extends {
  ext_cache : ∀ d u a, getCacheObject d u st = Some (Entry a) → getCacheObject d u st' = Some (Entry a);
  ext_heap : ∀ a o, heap st !! a = Some o → ∃ o', heap st' !! a = Some o' ∧ grows o o';
  ext_scripts : ∀ t s, scripts st !! t = Some s →
                       ∃ s', scripts st' !! t = Some s' ∧ static s' = static s;
  ext_log : log st `prefix_of` log st'
}.

(** ** Entries and their elements *)

(** Every element is the tag of the entry of its document and source, and
    its handler holds that entry's cache object; every tagged cache
    object is the entry of its element; a loaded cache object has an
    element, which was inserted. *)
Record linked (st : state) : Prop := Linked {
  lk_script : ∀ t s, scripts st !! t = Some s →
    ∃ a, getCacheObject (s_doc s) (s_src s) st = Some (Entry a)
         ∧ tag (deref a st) = Some t
         ∧ ∀ a', s_onload s = Some a' ∨ s_onreadystatechange s = Some a' → a' = a;
  lk_tag : ∀ a t, tag (deref a st) = Some t →
    ∃ s, scripts st !! t = Some s ∧ getCacheObject (s_doc s) (s_src s) st = Some (Entry a);
  lk_loaded : ∀ a, loaded (deref a st) = true →
    ∃ t s, tag (deref a st) = Some t ∧ scripts st !! t = Some s ∧ s_inserted s = true
}.

(** ** Entries do not interfere *)

(** An action that does not concern the entry [(doc, u)] whose handle is
    [tg]: a call for another document or url, an event at another
    element. *)
Definition avoids (doc : nat) (u : string) (tg : option nat) (act : action) : bool :=
  match act with
  | ActCall r => negb (bool_decide (doc_of r = doc) && bool_decide (url r = u))
  | ActLoad t | ActReadyState t _ => negb (bool_decide (tg = Some t))
  end.

(** The entry [(doc, u)] at [a] and its elements are the same in [st']. *)
Definition same_at (doc : nat) (u : string) (a : nat) (st st' : state) : Prop :=
  getCacheObject doc u st' = Some (Entry a)
  ∧ heap st' !! a = heap st !! a
  ∧ ∀ t s, scripts st !! t = Some s → s_doc s = doc → s_src s = u →
           scripts st' !! t = Some s.

(** ** Whose callbacks run *)

#[global] Instance callback_eq_dec : EqDecision callback.
Proof. solve_decision. Defined.

#[global] Instance cbarg_eq_dec : EqDecision cbarg.
Proof. solve_decision. Defined.

(** The call hands the callback [c] to the loader and passes its checks. *)
Definition hands (env : Env) (c : callback) (act : action) : bool :=
  match act with
  | ActCall r => passes env r && bool_decide (callback_arg r = CbFunction c)
  | _ => false
  end.

(** ** The [onreadystatechange] path runs nothing twice *)

(** How often [c] occurs. *)
Definition count (c : callback) (l : list callback) : nat :=
  length (filter (λ x, x = c) l).

(** What a cache object still owes [c]: its occurrences in the queue,
    while the object is not loaded. *)
Definition weight (c : callback) (o : cacheObject) : nat :=
  if loaded o then 0 else count c (callbacks o).

Definition owed (c : callback) (st : state) : nat :=
  sum_list (weight c <$> heap st).

(** How often the calls of a run hand [c] over and pass the checks. *)
Definition handed (env : Env) (c : callback) (acts : list action) : nat :=
  length (filter (λ act, hands env c act = true) acts).

(** Every element carries a [readyState]. *)
Definition legacy (env : Env) : Prop :=
  ∀ d, truthy_opt (newReadyState env d) = true.

(** No element has an [onload] handler, and an armed
    [onreadystatechange] handler holds a cache object that is not
    loaded. *)
Record armed (st : state) : Prop := Armed {
  ar_onload : ∀ t s, scripts st !! t = Some s → s_onload s = None;
  ar_pending : ∀ t s a, scripts st !! t = Some s → s_onreadystatechange s = Some a →
                        loaded (deref a st) = false
}.

(** * A caller of the loader: the Optable RTD module ([src/unnamed/part_000])

    The synchronous part of the module: [parseConfig] and
    [getBidRequestData].  What the closures do once they run is
    asynchronous ([mergeOptableData(...).then(callback, callback)]) and is
    not modelled; a closure is a function value that does not throw, since
    [mergeOptableData] is an async function and turns exceptions into
    rejections. *)

(** A value found in the module's configuration: [typeof] tells strings and
    functions from the rest, of which only the truthiness matters. *)
Inductive value :=
| VUndefined
| VNull
| VBool (b : bool)
| VString (s : string)
| VFunction (f : nat)
| VOther (t : bool).

Definition truthy_value (v : value) : bool :=
  match v with
  | VUndefined | VNull => false
  | VBool b => b
  | VString s => truthy s
  | VFunction _ => true
  | VOther t => t
  end.

(** [typeof v === 'function'] *)
Definition is_function (v : value) : bool :=
  match v with
  | VFunction _ => true
  | _ => false
  end.

(** [deepAccess] of [utils.js] and [MODULE_TYPE_RTD] of
    [activities/modules.js] are not under [src/]: they are parameters,
    fields of this record, as are [String.prototype.trim] and the [push]
    of a [window.optable.cmd] that the page set up.  Nothing is assumed
    of them.  A configuration object is identified by a number.

    [loadExternalScript_other moduleConfig k st] is the call
    [loadExternalScript(bundleUrl, MODULE_TYPE_RTD, MODULE_NAME, () =>
    {...}, document)] for the [bundleUrl] of [moduleConfig] when that is
    not a string (an array, a number, an object), with the [k]-th
    closure, in the loader's state [st].  The loader above is modelled
    for urls that are strings; what it does with another value, to its
    state and as its outcome, is a parameter too, and nothing is assumed
    of it either. *)
Record Utils := {
  deepAccess : nat → string → value → value;
  trim : string → string;
  MODULE_TYPE_RTD : string;
  push_throws : nat → bool;
  loadExternalScript_other : nat → nat → state → state * completion jsvalue
}.

Definition MODULE_NAME : string := "optable".

(** [bundleUrl.startsWith(p)] *)
Definition startsWith (s p : string) : bool := String.prefix p s.

Inductive rtd_error :=
| ErrInvalidUrl
| ErrHandleRtd
| ErrLoader (e : exn)
| ErrPush (h : nat)
| ErrCallback (c : callback).

Inductive result (A : Type) :=
| Ok (v : A)
| Err (e : rtd_error).
Arguments Ok {A} v.
Arguments Err {A} e.

Record config := Config {
  bundleUrl : value;
  adserverTargeting : value;
  handleRtd : value
}.

(** [parseConfig(moduleConfig)] *)
Definition parseConfig (u : Utils) (moduleConfig : nat) : result config :=
  let bundleUrl := deepAccess u moduleConfig "params.bundleUrl" VNull in
  let adserverTargeting := deepAccess u moduleConfig "params.adserverTargeting" (VBool true) in
  let handleRtd := deepAccess u moduleConfig "params.handleRtd" VNull in
  let bundleUrl :=
    match bundleUrl with
    | VString s => VString (trim u s)
    | v => v
    end in
  if match bundleUrl with
     | VString s =>
         truthy s
         && negb (startsWith s "http://" || startsWith s "https://" || startsWith s "/")
     | _ => false
     end
  then Err ErrInvalidUrl
  else if truthy_value handleRtd && negb (is_function handleRtd) then Err ErrHandleRtd
  else Ok (Config bundleUrl adserverTargeting handleRtd).

(** The arrow function [getBidRequestData] hands over: what it captures.
    [cl_handleRtdFn] is [None] for [defaultHandleRtd]. *)
Record closure := Closure {
  cl_handleRtdFn : option value;
  cl_reqBidsConfigObj : nat;
  cl_callback : callback
}.

(** [window.optable]: falsy, an object whose [cmd] is a plain array, as
    the [{cmd: []}] this module creates, or something else the page put
    there. *)
Inductive optable_value :=
| OptAbsent
| OptQueue (cmd : list nat)
| OptForeign (h : nat).

Inductive rtd_event :=
| RtdLogMessage (msg : string)
| RtdLogError (e : rtd_error)
| RtdCallback (c : callback)
| RtdPush (h k : nat).

(** The page: the loader's state, the closures created so far (a closure
    is identified by its position), [window.optable] and what the module
    logged and called. *)
Record page := Page {
  loader : state;
  closures : list closure;
  optable : optable_value;
  rtd_log : list rtd_event
}.

Definition rtd_emit (evs : list rtd_event) (pg : page) : page :=
  Page (loader pg) (closures pg) (optable pg) (rtd_log pg ++ evs).

Definition add_closure (k : closure) (pg : page) : page :=
  Page (loader pg) (closures pg ++ [k]) (optable pg) (rtd_log pg).

Definition set_loader (st : state) (pg : page) : page :=
  Page st (closures pg) (optable pg) (rtd_log pg).

Definition set_optable (o : optable_value) (pg : page) : page :=
  Page (loader pg) (closures pg) o (rtd_log pg).

(** The closure with identity [k], as the loader sees it: a function that
    does not throw. *)
Definition closure_callback (k : nat) : callback := Callback k false.

(** [catch (error) { logError(error); callback(); }] *)
Definition catch_error (callback : callback) (e : rtd_error) (pg : page)
    : page * option rtd_error :=
  (rtd_emit [RtdLogError e; RtdCallback callback] pg,
   if cb_throws callback then Some (ErrCallback callback) else None).

(** The call [loadExternalScript(bundleUrl, MODULE_TYPE_RTD, MODULE_NAME,
    () => {...}, document)]. *)
Definition bundle_request (u : Utils) (b : string) (k : nat) : request :=
  Request b (MODULE_TYPE_RTD u) MODULE_NAME (CbFunction (closure_callback k))
          (Some document) None.

(** [getBidRequestData(reqBidsConfigObj, callback, moduleConfig, userConsent)].
    The result is the exception it ends with, if any.  [parseConfig]
    trims and checks a [bundleUrl] that is a string only: a truthy value
    of another type reaches [loadExternalScript] as it is. *)
Definition getBidRequestData (env : Env) (u : Utils) (reqBidsConfigObj : nat)
    (callback : callback) (moduleConfig : nat) (pg : page)
    : page * option rtd_error :=
  match parseConfig u moduleConfig with
  | Err e => catch_error callback e pg
  | Ok cfg =>
      let pg := rtd_emit [RtdLogMessage "Optable JS bundle URL "] pg in
      let handleRtdFn :=
        if truthy_value (handleRtd cfg) then Some (handleRtd cfg) else None in
      let k := length (closures pg) in
      if truthy_value (bundleUrl cfg) then
        let pg := rtd_emit [RtdLogMessage "Custom bundle URL found in config: "] pg in
        let pg := add_closure (Closure handleRtdFn reqBidsConfigObj callback) pg in
        let '(st, res) :=
          match bundleUrl cfg with
          | VString b => loadExternalScript env (bundle_request u b k) (loader pg)
          | _ => loadExternalScript_other u moduleConfig k (loader pg)
          end in
        match res with
        | Return _ => (set_loader st pg, None)
        | Throw e => catch_error callback (ErrLoader e) (set_loader st pg)
        end
      else
        let pg := rtd_emit [RtdLogMessage ("Custom bundle URL not found in config. "
                     ++ "Assuming Optable JS bundle is already present on the page")] pg in
        match optable pg with
        | OptAbsent =>
            (set_optable (OptQueue [k])
               (add_closure (Closure handleRtdFn reqBidsConfigObj callback) pg), None)
        | OptQueue cmd =>
            (set_optable (OptQueue (cmd ++ [k]))
               (add_closure (Closure handleRtdFn reqBidsConfigObj callback) pg), None)
        | OptForeign h =>
            if push_throws u h then catch_error callback (ErrPush h) pg
            else (rtd_emit [RtdPush h k]
                    (add_closure (Closure handleRtdFn reqBidsConfigObj callback) pg),
                  None)
        end
  end.

Definition rtd_calls (evs : list rtd_event) : list callback :=
  omap (λ e, match e with RtdCallback c => Some c | _ => None end) evs.

Definition rtd_errors (evs : list rtd_event) : list rtd_error :=
  omap (λ e, match e with RtdLogError x => Some x | _ => None end) evs.

(** One auction's call of [getBidRequestData]. *)
Record auction := Auction {
  au_reqBidsConfigObj : nat;
  au_callback : callback;
  au_moduleConfig : nat
}.

(** Auctions one after the other, whatever their outcomes. *)
Fixpoint auctions (env : Env) (u : Utils) (l : list auction) (pg : page) : page :=
  match l with
  | [] => pg
  | x :: rest =>
      auctions env u rest
        (getBidRequestData env u (au_reqBidsConfigObj x) (au_callback x)
           (au_moduleConfig x) pg).1
  end.

(** The closure was made for the auction: it ends by calling the auction's
    callback. *)
Definition made_for (x : auction) (cl : closure) : Prop :=
  cl_reqBidsConfigObj cl = au_reqBidsConfigObj x ∧ cl_callback cl = au_callback x.

(** The configuration asks for the bundle at [b]. *)
Definition asks_for (u : Utils) (b : string) (moduleConfig : nat) : Prop :=
  ∃ cfg, parseConfig u moduleConfig = Ok cfg ∧ bundleUrl cfg = VString b.

(** A concrete configuration store: [0] asks for a bundle, with spaces
    around its url; [1] has a relative url; [2] names no bundle; the
    [bundleUrl] of [3] is truthy and not a string, and the loader, handed
    it, throws. *)
Definition utils_plain : Utils :=
  Build_Utils
    (λ c path def,
       if bool_decide (path = "params.bundleUrl"%string) then
         match c with
         | 0 => VString " https://cdn.example/bundle.js "
         | 1 => VString "bundle.js"
         | 3 => VOther true
         | _ => def
         end
       else def)
    (λ s, if bool_decide (s = " https://cdn.example/bundle.js "%string)
          then "https://cdn.example/bundle.js"%string else s)
    "rtd"
    (λ _, false)
    (λ _ _ st, (st, Throw ExnTypeError)).

Definition page0 : page := Page initial [] OptAbsent [].

(** The loader calls a sequence of auctions for the bundle [b] makes, the
    first closure being the [k]-th. *)
Definition bundle_calls (u : Utils) (b : string) (k n : nat) : list action :=
  ActCall <$> (bundle_request u b <$> seq k n).

Definition is_return (res : completion jsvalue) : bool :=
  match res with
  | Return _ => true
  | Throw _ => false
  end.

(** The configuration names no bundle: [bundleUrl] is absent, falsy or a
    string that trims to the empty one. *)
Definition no_bundle (u : Utils) (moduleConfig : nat) : Prop :=
  ∃ cfg, parseConfig u moduleConfig = Ok cfg ∧ truthy_value (bundleUrl cfg) = false.

Definition cmd_of (o : optable_value) : list nat :=
  match o with
  | OptQueue cmd => cmd
  | _ => []
  end.

Definition is_foreign (o : optable_value) : bool :=
  match o with
  | OptForeign _ => true
  | _ => false
  end.

(** * The payload filter of the analytics tracker
      ([src/integrationExamples/gpt/analytics-tracker.js])

    A value as [deepFilter] tells them apart: [null], an array, another
    object, or anything whose [typeof] is not ['object'], of which only
    the truthiness matters.  An object is the list of its own enumerable
    properties in the order of [Object.keys].  Its prototype is not
    recorded: it is taken to be the one an object literal or
    [JSON.parse] gives, so that [obj.data] is an own property or
    [undefined].  A key may be [__proto__], as in what [JSON.parse]
    returns; the object the filter builds never has that key, and when
    the filter met it, has a prototype of its own, which a value here
    does not show. *)
#[local] Unset Elimination Schemes.
Inductive payload :=
| PNull
| POther (id : nat) (truthy : bool)
| PArr (xs : list payload)
| PObj (props : list (string * payload)).
#[local] Set Elimination Schemes.

(** [Array.isArray(v)] *)
Definition is_array (v : payload) : bool :=
  match v with
  | PArr _ => true
  | _ => false
  end.

(** [typeof v === 'object'] *)
Definition is_object (v : payload) : bool :=
  match v with
  | POther _ _ => false
  | _ => true
  end.

(** [obj[key]], [None] standing for [undefined]. *)
Fixpoint get (key : string) (props : list (string * payload)) : option payload :=
  match props with
  | [] => None
  | (k, v) :: rest => if bool_decide (k = key) then Some v else get key rest
  end.

Definition is_truthy (v : option payload) : bool :=
  match v with
  | None | Some PNull => false
  | Some (POther _ t) => t
  | Some _ => true
  end.

(** The body of [Object.keys(obj).forEach(key => ...)]: the properties of
    [filtered], given the truthiness of [obj.data] and the function
    applied to nested objects.  For the key [__proto__] the assignment
    [filtered[key] = ...] of the last two branches, the only ones the key
    can reach, goes to the setter [filtered] inherits: it creates no
    property of [filtered]. *)
Definition filterProps (data : bool) (f : payload → payload)
    : list (string * payload) → list (string * payload) :=
  fix go props :=
    match props with
    | [] => []
    | (key, v) :: rest =>
        if bool_decide (key = "ad") then go rest
        else if bool_decide (key = "__proto__") then go rest
        else if bool_decide (key = "segment") && data && is_array v then
          (key, PArr []) :: go rest
        else if bool_decide (key = "uids") && is_array v then (key, PArr []) :: go rest
        else if bool_decide (key = "metrics") && is_object v then (key, PObj []) :: go rest
        else if is_object v then (key, f v) :: go rest
        else (key, v) :: go rest
    end.

(** [deepFilter(obj)] *)
Fixpoint deepFilter (obj : payload) : payload :=
  match obj with
  | PNull => PNull
  | POther i t => POther i t
  | PArr xs => PArr (map deepFilter xs)
  | PObj props => PObj (filterProps (is_truthy (get "data" props)) deepFilter props)
  end.

(** [filterData(args)] *)
Definition filterData (args : payload) : payload := deepFilter args.

(** The key [key] occurs somewhere in the value. *)
Fixpoint mentions (key : string) (v : payload) : bool :=
  match v with
  | PNull | POther _ _ => false
  | PArr xs => existsb (mentions key) xs
  | PObj props =>
      existsb (λ kv, bool_decide (kv.1 = key) || mentions key kv.2) props
  end.

(** The property is one of those the filter empties into an array: a
    [segment] array beside a truthy [data], a [uids] array. *)
Definition emptied_array (data : bool) (key : string) (v : payload) : bool :=
  bool_decide (key = "segment") && data && is_array v
  || bool_decide (key = "uids") && is_array v.

(** The property is one the filter empties into an object: [metrics],
    when its [typeof] is ['object']. *)
Definition emptied_object (key : string) (v : payload) : bool :=
  bool_decide (key = "metrics") && is_object v.

Definition is_empty_array (v : payload) : bool :=
  match v with
  | PArr [] => true
  | _ => false
  end.

Definition is_empty_object (v : payload) : bool :=
  match v with
  | PObj [] => true
  | _ => false
  end.

(** No [ad] property anywhere, and every property the filter empties is
    empty. *)
Fixpoint scrubbed (v : payload) : bool :=
  match v with
  | PNull | POther _ _ => true
  | PArr xs => forallb scrubbed xs
  | PObj props =>
      forallb (λ kv, negb (bool_decide (kv.1 = "ad"))
                     && (if emptied_array (is_truthy (get "data" props)) kv.1 kv.2
                         then is_empty_array kv.2
                         else if emptied_object kv.1 kv.2 then is_empty_object kv.2
                         else scrubbed kv.2)) props
  end.

(** Induction on values, with the hypothesis for every element and every
    property value. *)
Fixpoint payload_ind' (P : payload → Prop)
    (Hnull : P PNull)
    (Hother : ∀ i t, P (POther i t))
    (Harr : ∀ xs, Forall P xs → P (PArr xs))
    (Hobj : ∀ props, Forall (λ kv, P kv.2) props → P (PObj props))
    (v : payload) : P v :=
  match v with
  | PNull => Hnull
  | POther i t => Hother i t
  | PArr xs =>
      Harr xs ((fix go l : Forall P l :=
                  match l with
                  | [] => @List.Forall_nil _ P
                  | x :: r =>
                      @List.Forall_cons _ P x r (payload_ind' P Hnull Hother Harr Hobj x) (go r)
                  end) xs)
  | PObj props =>
      Hobj props ((fix go l : Forall (λ kv, P kv.2) l :=
                     match l with
                     | [] => @List.Forall_nil _ (λ kv, P kv.2)
                     | kv :: r =>
                         @List.Forall_cons _ (λ kv, P kv.2) kv r
                           (payload_ind' P Hnull Hother Harr Hobj kv.2) (go r)
                     end) props)
  end.

(** * Equations of the embedding *)

Lemma add_log_nil st : add_log [] st = st.
Proof. destruct st; unfold add_log; simpl. by rewrite app_nil_r. Qed.

Lemma add_log_app evs1 evs2 st :
  add_log evs2 (add_log evs1 st) = add_log (evs1 ++ evs2) st.
Proof. unfold add_log; simpl. by rewrite app_assoc. Qed.

Lemma run_callbacks_eq cbs st :
  run_callbacks cbs st =
    (add_log (EvCallback <$> reached cbs) st,
     match filter (λ c, cb_throws c = true) cbs with
     | c :: _ => Throw (ExnCallback c)
     | [] => Return tt
     end).
Proof.
  revert st. induction cbs as [|c cbs IH]; intros st.
  - simpl. by rewrite add_log_nil.
  - cbn [run_callbacks reached]. unfold bind at 1, invoke, bind, emit, modify.
    rewrite filter_cons. destruct (cb_throws c) eqn:Hc; simpl; [done|].
    fold (add_log [EvCallback c] st). rewrite IH, add_log_app. done.
Qed.

Lemma any_throws_filter cbs :
  any_throws cbs = match filter (λ c, cb_throws c = true) cbs with
                   | _ :: _ => true
                   | [] => false
                   end.
Proof.
  induction cbs as [|c cbs IH]; [done|].
  unfold any_throws in *. simpl. rewrite filter_cons.
  destruct (cb_throws c); simpl; done.
Qed.

Lemma reached_no_throw cbs :
  Forall (λ c, cb_throws c = false) cbs → reached cbs = cbs ∧ any_throws cbs = false.
Proof.
  induction 1 as [|c cbs Hc _ [IH1 IH2]]; [done|].
  unfold any_throws in *. simpl. rewrite Hc, IH1. done.
Qed.

(** The completion handler: the object is marked loaded, its queue is
    left as it is, and the queue is run up to the first throw. *)
Lemma onComplete_eq a st :
  onComplete a st =
    (add_log (drain_events (callbacks (deref a st)))
       (upd_heap (λ h, <[a := set_loaded (deref a st)]> h) st),
     Return tt).
Proof.
  unfold onComplete, bind, update_object, modify, try_catch, gets, logError, emit.
  simpl. rewrite run_callbacks_eq.
  set (st1 := upd_heap _ st).
  assert (Hcb : callbacks (deref a st1) = callbacks (deref a st)).
  { unfold deref, st1, upd_heap; simpl.
    destruct (decide (a < length (heap st))) as [Hlt|Hge].
    - rewrite list_lookup_insert_eq by done. done.
    - rewrite list_insert_ge by lia. done. }
  rewrite Hcb. unfold drain_events. rewrite any_throws_filter.
  destruct (filter _ _); simpl.
  - by rewrite app_nil_r.
  - unfold add_log; simpl. by rewrite app_assoc.
Qed.

Lemma run_cons env act acts st :
  run env (act :: acts) st
  = (let '(st1, o) := exec env act st in
     let '(st2, rs) := run env acts st1 in
     (st2, match o with Some res => res :: rs | None => rs end)).
Proof. done. Qed.

Lemma run_fst_cons env act acts st :
  (run env (act :: acts) st).1 = (run env acts (exec env act st).1).1.
Proof.
  rewrite run_cons. destruct (exec env act st) as [st1 o]. simpl.
  by destruct (run env acts st1).
Qed.

Lemma invocations_app evs1 evs2 :
  invocations (evs1 ++ evs2) = invocations evs1 ++ invocations evs2.
Proof. apply omap_app. Qed.

Lemma onload_of_Some s a : onload_of s = Some a → s_onload s = Some a.
Proof. unfold onload_of. by destruct (attribute "onload" (s_attrs s)). Qed.

Lemma onreadystatechange_of_Some s a :
  onreadystatechange_of s = Some a → s_onreadystatechange s = Some a.
Proof.
  unfold onreadystatechange_of. by destruct (attribute "onreadystatechange" (s_attrs s)).
Qed.

Lemma names_false k a : names k a = false → attribute k (default [] a) = None.
Proof. unfold names. by destruct (attribute k (default [] a)). Qed.

Lemma dispatch_load_eq t st :
  dispatch_load t st
  = match scripts st !! t ≫= onload_of with
    | Some a => onComplete a st
    | None => (st, Return tt)
    end.
Proof.
  unfold dispatch_load, bind, gets.
  destruct (scripts st !! t) as [s|]; simpl; [|done]. by destruct (onload_of s).
Qed.

Lemma dispatch_readystatechange_eq t rs st :
  dispatch_readystatechange t rs st
  = let st1 := upd_scripts (alter (set_readyState (Some rs)) t) st in
    match scripts st !! t ≫= onreadystatechange_of with
    | Some a =>
        if is_done rs
        then onComplete a (upd_scripts (alter (set_onreadystatechange None) t) st1)
        else (st1, Return tt)
    | None => (st1, Return tt)
    end.
Proof.
  unfold dispatch_readystatechange.
  unfold bind at 1. unfold update_script at 1, modify at 1.
  unfold bind at 1. unfold gets at 1.
  unfold upd_scripts at 1. cbn [scripts].
  rewrite list_lookup_alter_eq.
  destruct (scripts st !! t) as [s|]; simpl; [|done].
  change (onreadystatechange_of (set_readyState (Some rs) s))
    with (onreadystatechange_of s).
  destruct (onreadystatechange_of s); [|done].
  destruct (is_done rs); done.
Qed.

Lemma negb_valid r :
  negb (truthy (moduleCode r)) || negb (truthy (url r)) = negb (valid r).
Proof. unfold valid. by destruct (truthy (moduleCode r)), (truthy (url r)). Qed.

Lemma loadExternalScript_rejected env r st :
  passes env r = false →
  loadExternalScript env r st = (add_log (rejection_events env r) st, Return Undefined).
Proof.
  intros Hp. unfold loadExternalScript, rejection_events, gate_event.
  unfold bind at 1. unfold emit at 1, modify at 1.
  rewrite negb_valid. fold (approved r). unfold passes in Hp.
  destruct (isActivityAllowed env _ _); simpl.
  - destruct (valid r); simpl.
    + simpl in Hp. rewrite Hp. simpl.
      unfold bind, logError, emit, modify, ret, add_log; simpl.
      by rewrite <- app_assoc.
    + unfold bind, logError, emit, modify, ret, add_log; simpl.
      by rewrite <- app_assoc.
  - done.
Qed.

Lemma deref_add_log a evs st : deref a (add_log evs st) = deref a st.
Proof. done. Qed.

Lemma update_object_eq a f st :
  update_object a f st = (upd_heap (λ h, <[a := f (deref a st)]> h) st, Return tt).
Proof. done. Qed.

Lemma tag_deref_update a f st :
  (∀ o, tag (f o) = tag o) →
  tag (deref a (upd_heap (λ h, <[a := f (deref a st)]> h) st)) = tag (deref a st).
Proof.
  intros Hf. unfold deref, upd_heap; simpl.
  destruct (decide (a < length (heap st))) as [Hlt|Hge].
  - rewrite list_lookup_insert_eq by done. simpl. apply Hf.
  - rewrite list_insert_ge by lia. done.
Qed.

Lemma loadExternalScript_hit env r st a :
  passes env r = true →
  getCacheObject (doc_of r) (url r) st = Some (Entry a) →
  loadExternalScript env r st = hit a r (add_log [gate_event r] st).
Proof.
  intros Hp Hget. unfold loadExternalScript.
  unfold bind at 1. unfold emit at 1, modify at 1.
  rewrite negb_valid. fold (approved r). unfold passes in Hp.
  apply andb_true_iff in Hp as [Hp Happ]. apply andb_true_iff in Hp as [Hall Hval].
  rewrite Hall, Hval, Happ. simpl.
  fold (doc_of r).
  change (State _ _ _ _) with (add_log [gate_event r] st).
  unfold bind at 1. unfold gets at 1.
  assert (Hget' : getCacheObject (doc_of r) (url r) (add_log [gate_event r] st) = Some (Entry a))
    by done.
  rewrite Hget'. unfold hit.
  destruct (callback_arg r) as [| |c]; try done.
  unfold bind, gets. simpl.
  destruct (loaded (deref a (add_log [gate_event r] st))) eqn:Hl.
  - unfold invoke, bind, emit, modify; simpl.
    destruct (cb_throws c); done.
  - rewrite update_object_eq. unfold ret. f_equal. f_equal. unfold tag_value.
    rewrite (tag_deref_update a (push c) (add_log [gate_event r] st)); done.
Qed.

Lemma lookup_snoc {A} (l : list A) (x : A) : (l ++ [x]) !! length l = Some x.
Proof. by apply list_lookup_middle. Qed.

Lemma insert_snoc {A} (l : list A) (x y : A) : <[length l := y]> (l ++ [x]) = l ++ [y].
Proof.
  rewrite <- (Nat.add_0_r (length l)) at 1. by rewrite insert_app_r.
Qed.

Lemma alter_snoc {A} (f : A → A) (l : list A) (x : A) :
  alter f (length l) (l ++ [x]) = l ++ [f x].
Proof.
  rewrite <- (Nat.add_0_r (length l)) at 1. by rewrite alter_app_r.
Qed.

Lemma loadExternalScript_miss env r st :
  passes env r = true →
  getCacheObject (doc_of r) (url r) st = None →
  loadExternalScript env r st =
    requestResource env (url r) (url r) (length (heap st)) (doc_of r) (attributes r)
      (alloc_entry r (add_log [gate_event r] st)).
Proof.
  intros Hp Hget. unfold loadExternalScript.
  unfold bind at 1. unfold emit at 1, modify at 1.
  rewrite negb_valid. fold (approved r). unfold passes in Hp.
  apply andb_true_iff in Hp as [Hp Happ]. apply andb_true_iff in Hp as [Hall Hval].
  rewrite Hall, Hval, Happ. simpl.
  fold (doc_of r).
  change (State _ _ _ _) with (add_log [gate_event r] st).
  unfold bind at 1. unfold gets at 1.
  assert (Hget' : getCacheObject (doc_of r) (url r) (add_log [gate_event r] st) = None)
    by done.
  rewrite Hget'.
  unfold bind at 1. unfold gets at 1.
  unfold bind at 1. unfold gets at 1.
  unfold bind at 1. unfold modify at 1.
  unfold bind at 1. unfold modify at 1.
  unfold bind at 1.
  assert (Hq : ∀ st1 : state,
    heap st1 = heap st ++ [CacheObject false None []] →
    match callback_arg r with
    | CbFunction c => update_object (length (heap st)) (push c)
    | _ => ret tt
    end st1 =
    (State (_requestCache st1) (heap st ++ [CacheObject false None (queued r)])
           (scripts st1) (log st1), Return tt)).
  { intros st1 Hh. unfold queued. destruct (callback_arg r) as [| |c].
    - unfold ret. rewrite <- Hh. by destruct st1.
    - unfold ret. rewrite <- Hh. by destruct st1.
    - unfold update_object, modify, upd_heap. rewrite Hh.
      rewrite lookup_snoc, insert_snoc. done. }
  rewrite Hq by done. clear Hq.
  unfold bind at 1. unfold logWarn, emit, modify. done.
Qed.

Lemma update_script_snoc t f rc h l x lg :
  t = length l →
  update_script t f (State rc h (l ++ [x]) lg) = (State rc h (l ++ [f x]) lg, Return tt).
Proof.
  intros ->. unfold update_script, modify, upd_scripts; simpl. by rewrite alter_snoc.
Qed.

Lemma emit_eq e rc h l lg :
  emit e (State rc h l lg) = (State rc h l (lg ++ [e]), Return tt).
Proof. done. Qed.

Lemma requestResource_eq env u src cb doc attributes st :
  requestResource env u src cb doc attributes st
  = requestResource_nf env u src cb doc attributes st.
Proof.
  unfold requestResource, requestResource_nf.
  unfold bind at 1. unfold createElement.
  destruct (createElement_throws env doc); [done|].
  unfold bind at 1 2 3. unfold gets at 1, modify at 1, emit at 1, modify at 1, ret at 1.
  cbn [upd_scripts _requestCache heap scripts log].
  unfold bind at 1. unfold gets at 1.
  set (el := Script doc _ _ _ _ _ _ _ _).
  set (t := length (scripts st)).
  set (st1 := State _ _ (scripts st ++ [el]) _).
  assert (Hg : getCacheObject doc u st1 = getCacheObject doc u st) by done.
  rewrite Hg.
  assert (Htag : ∃ h', h' = match getCacheObject doc u st with
                            | Some (Entry a) => <[a := set_tag t (deref a st)]> (heap st)
                            | _ => heap st
                            end ∧
    (match getCacheObject doc u st with
     | Some (Entry a) => update_object a (set_tag t)
     | _ => ret tt
     end) st1 = (State (_requestCache st) h' (scripts st ++ [el])
                   (log st ++ [EvCreateElement doc t]), Return tt)).
  { eexists; split; [reflexivity|]. by destruct (getCacheObject doc u st) as [[]|]. }
  destruct Htag as (h' & Hh' & Htag).
  unfold bind at 1. rewrite Htag. clear Htag.
  unfold bind at 1. unfold gets at 1. cbn [scripts].
  unfold t at 1. rewrite lookup_snoc. cbn [fmap option_fmap option_map mjoin option_join].
  cbn [s_readyState el].
  unfold bind at 1.
  assert (Harm : (if truthy_opt (newReadyState env doc)
                  then update_script t (set_onreadystatechange (Some cb))
                  else update_script t (set_onload (Some cb)))
            (State (_requestCache st) h' (scripts st ++ [el])
               (log st ++ [EvCreateElement doc t]))
          = (State (_requestCache st) h'
               (scripts st ++ [new_script env doc cb ""])
               (log st ++ [EvCreateElement doc t]), Return tt)).
  { unfold new_script. destruct (truthy_opt (newReadyState env doc));
      rewrite update_script_snoc by done; done. }
  rewrite Harm. clear Harm.
  unfold bind at 1. rewrite update_script_snoc by done.
  change (set_src src (new_script env doc cb "")) with (new_script env doc cb src).
  unfold created_state. fold t. rewrite <- Hh'.
  unfold bind at 1.
  destruct attributes as [a|].
  - unfold setScriptAttributes.
    destruct (setScriptAttributes_throws env doc a); [done|].
    unfold bind at 1. rewrite update_script_snoc by done. rewrite emit_eq.
    unfold bind at 1. unfold insertElement.
    destruct (insertElement_throws env doc).
    + unfold throw. by rewrite <- app_assoc.
    + unfold bind at 1. rewrite update_script_snoc by done. rewrite emit_eq.
      unfold ret. by rewrite <- !app_assoc.
  - unfold ret at 1. unfold bind at 1. unfold insertElement.
    destruct (insertElement_throws env doc); [done|].
    unfold bind at 1. rewrite update_script_snoc by done. rewrite emit_eq.
    unfold ret. by rewrite <- !app_assoc.
Qed.

(** The entries [getCacheObject] finds are the keys of the map. *)
Lemma getCacheObject_Entry d u st a :
  getCacheObject d u st = Some (Entry a) ↔ entry_of d u st = Some a.
Proof.
  unfold getCacheObject, entry_of.
  destruct (_requestCache st !! d) as [m|]; [|done].
  destruct (m !! u) as [b|]; [split; congruence|].
  destruct (inherits m u st); split; congruence.
Qed.

Lemma getCacheObject_None d u st :
  getCacheObject d u st = None → entry_of d u st = None.
Proof.
  unfold getCacheObject, entry_of.
  destruct (_requestCache st !! d) as [m|]; [|done].
  destruct (m !! u) as [b|]; [done|]. by destruct (inherits m u st).
Qed.

Lemma getCacheObject_Inherited d u st :
  getCacheObject d u st = Some Inherited → entry_of d u st = None.
Proof.
  unfold getCacheObject, entry_of.
  destruct (_requestCache st !! d) as [m|]; [|done].
  destruct (m !! u) as [b|]; [done|]. by destruct (inherits m u st).
Qed.

Lemma entry_of_cache d u st st' :
  _requestCache st' = _requestCache st → entry_of d u st' = entry_of d u st.
Proof. intros H. unfold entry_of. by rewrite H. Qed.

Lemma getCacheObject_cache d u st st' a :
  _requestCache st' = _requestCache st →
  getCacheObject d u st' = Some (Entry a) ↔ getCacheObject d u st = Some (Entry a).
Proof. intros H. by rewrite !getCacheObject_Entry, (entry_of_cache d u st st'). Qed.

Lemma entry_of_alloc r st :
  entry_of (doc_of r) (url r) (alloc_entry r st) = Some (length (heap st)).
Proof.
  unfold entry_of, alloc_entry; simpl.
  rewrite lookup_insert_eq. by rewrite lookup_insert_eq.
Qed.

Lemma entry_of_alloc_ne r st d u :
  (d, u) ≠ (doc_of r, url r) →
  entry_of d u (alloc_entry r st) = entry_of d u st.
Proof.
  intros Hne. unfold entry_of, alloc_entry; simpl.
  destruct (decide (d = doc_of r)) as [->|Hd].
  - rewrite lookup_insert_eq.
    assert (u ≠ url r) by congruence.
    rewrite lookup_insert_ne by done.
    destruct (_requestCache st !! doc_of r); [done|]. simpl. apply lookup_empty.
  - by rewrite lookup_insert_ne.
Qed.

Lemma getCacheObject_alloc r st :
  getCacheObject (doc_of r) (url r) (alloc_entry r st) = Some (Entry (length (heap st))).
Proof. apply getCacheObject_Entry, entry_of_alloc. Qed.

(** The other entries are the ones there were.  What another url
    inherits may change: the new entry can be the prototype. *)
Lemma getCacheObject_alloc_ne r st d u a :
  (d, u) ≠ (doc_of r, url r) →
  getCacheObject d u (alloc_entry r st) = Some (Entry a)
  ↔ getCacheObject d u st = Some (Entry a).
Proof. intros Hne. by rewrite !getCacheObject_Entry, entry_of_alloc_ne. Qed.

(** A hit on an inherited value: nothing is created; a function callback
    is neither called nor queued, the call ends in a [TypeError]. *)
Lemma loadExternalScript_inherited env r st :
  passes env r = true →
  getCacheObject (doc_of r) (url r) st = Some Inherited →
  loadExternalScript env r st
  = (add_log [gate_event r] st,
     match callback_arg r with
     | CbFunction _ => Throw ExnTypeError
     | _ => Return Undefined
     end).
Proof.
  intros Hp Hget. unfold loadExternalScript.
  unfold bind at 1. unfold emit at 1, modify at 1.
  rewrite negb_valid. fold (approved r). unfold passes in Hp.
  apply andb_true_iff in Hp as [Hp Happ]. apply andb_true_iff in Hp as [Hall Hval].
  rewrite Hall, Hval, Happ. simpl.
  fold (doc_of r).
  change (State _ _ _ _) with (add_log [gate_event r] st).
  unfold bind at 1. unfold gets at 1.
  assert (Hget' : getCacheObject (doc_of r) (url r) (add_log [gate_event r] st)
                  = Some Inherited) by done.
  rewrite Hget'. by destruct (callback_arg r).
Qed.

Lemma constructs_true env doc a :
  constructs env doc a = true →
  createElement_throws env doc = false
  ∧ from_option (setScriptAttributes_throws env doc) false a = false
  ∧ insertElement_throws env doc = false.
Proof.
  unfold constructs. rewrite !andb_true_iff, !negb_true_iff. tauto.
Qed.

Lemma loadExternalScript_miss_ok env r st :
  passes env r = true →
  getCacheObject (doc_of r) (url r) st = None →
  constructs env (doc_of r) (attributes r) = true →
  loadExternalScript env r st = (load_state env r st, Return (Element (length (scripts st)))).
Proof.
  intros Hp Hget Hc. rewrite loadExternalScript_miss by done.
  rewrite requestResource_eq. unfold requestResource_nf.
  apply constructs_true in Hc as (Hc1 & Hc2 & Hc3).
  rewrite Hc1, Hc3. unfold created_state. rewrite getCacheObject_alloc.
  cbn [alloc_entry add_log _requestCache heap scripts log].
  assert (Hh : ∀ t, <[length (heap st) := set_tag t
                 (deref (length (heap st)) (alloc_entry r (add_log [gate_event r] st)))]>
               (heap st ++ [CacheObject false None (queued r)])
             = heap st ++ [CacheObject false (Some t) (queued r)]).
  { intros t. rewrite insert_snoc. unfold deref, alloc_entry; simpl.
    by rewrite lookup_snoc. }
  rewrite Hh. unfold load_state, load_events, final_script.
  destruct (attributes r) as [a|]; simpl in Hc2.
  - rewrite Hc2. simpl. f_equal. f_equal. by rewrite <- !app_assoc.
  - simpl. f_equal. f_equal. by rewrite <- !app_assoc.
Qed.

(** * Steps that create nothing *)

Lemma silent_created evs : silent evs → created evs = [].
Proof.
  induction 1 as [|e evs He _ IH]; [done|].
  destruct e; try discriminate He; exact IH.
Qed.

Lemma silent_insertions evs : silent evs → insertions evs = [].
Proof.
  induction 1 as [|e evs He _ IH]; [done|].
  destruct e; try discriminate He; exact IH.
Qed.

Lemma silent_attribute_sets evs : silent evs → attribute_sets evs = [].
Proof.
  induction 1 as [|e evs He _ IH]; [done|].
  destruct e; try discriminate He; exact IH.
Qed.

Lemma silent_app evs1 evs2 : silent evs1 → silent evs2 → silent (evs1 ++ evs2).
Proof. unfold silent. intros. by apply Forall_app. Qed.

Lemma silent_drain cbs : silent (drain_events cbs).
Proof.
  unfold drain_events. apply silent_app.
  - unfold silent. apply Forall_fmap. by apply Forall_true.
  - destruct (any_throws cbs); repeat constructor.
Qed.

Lemma quiet_refl st : quiet st st.
Proof.
  split; try done. exists []. split; [by rewrite app_nil_r | constructor].
Qed.

Lemma quiet_trans st1 st2 st3 : quiet st1 st2 → quiet st2 st3 → quiet st1 st3.
Proof.
  intros [c1 h1 t1 s1 x1 y1 (e1 & l1 & q1)] [c2 h2 t2 s2 x2 y2 (e2 & l2 & q2)].
  split; try congruence; [by eauto|].
  exists (e1 ++ e2). split; [|by apply silent_app].
  rewrite l2, l1. by rewrite app_assoc.
Qed.

Lemma quiet_add_log evs st : silent evs → quiet st (add_log evs st).
Proof. intros H. split; try done. by exists evs. Qed.

Lemma quiet_update_object a f st :
  (∀ o, tag (f o) = tag o) →
  quiet st (upd_heap (λ h, <[a := f (deref a st)]> h) st).
Proof.
  intros Hf. split; try done.
  - unfold upd_heap; simpl. by rewrite length_insert.
  - intros b. unfold deref, upd_heap; simpl.
    destruct (decide (a = b)) as [->|Hne].
    + destruct (decide (b < length (heap st))) as [Hlt|Hge].
      * rewrite list_lookup_insert_eq by done. simpl. apply Hf.
      * rewrite list_insert_ge by lia. done.
    + by rewrite list_lookup_insert_ne.
  - exists []. split; [by rewrite app_nil_r | constructor].
Qed.

Lemma quiet_update_script t f st :
  (∀ s, static (f s) = static s) →
  (∀ s, s_onreadystatechange (f s) = s_onreadystatechange s
        ∨ s_onreadystatechange (f s) = None) →
  quiet st (upd_scripts (alter f t) st).
Proof.
  intros Hf Hh. split; try done.
  - unfold upd_scripts; simpl. by rewrite length_alter.
  - intros t'. unfold upd_scripts; simpl.
    destruct (decide (t = t')) as [->|Hne].
    + rewrite list_lookup_alter_eq. destruct (scripts st !! t'); simpl; [|done].
      by rewrite Hf.
    + by rewrite list_lookup_alter_ne.
  - intros t' a. unfold upd_scripts; simpl.
    destruct (decide (t = t')) as [->|Hne].
    + rewrite list_lookup_alter_eq. destruct (scripts st !! t') as [s|]; simpl; [|done].
      destruct (Hh s) as [-> | ->]; done.
    + by rewrite list_lookup_alter_ne.
  - exists []. split; [by rewrite app_nil_r | constructor].
Qed.

Lemma quiet_hit a r st : quiet st (hit a r st).1.
Proof.
  unfold hit. destruct (callback_arg r) as [| |c]; try apply quiet_refl.
  destruct (loaded (deref a st)); simpl.
  - apply quiet_add_log. repeat constructor.
  - by apply quiet_update_object.
Qed.

Lemma quiet_onComplete a st : quiet st (onComplete a st).1.
Proof.
  rewrite onComplete_eq. simpl.
  eapply quiet_trans; [|apply quiet_add_log, silent_drain].
  by apply quiet_update_object.
Qed.

Lemma quiet_dispatch_load t st : quiet st (dispatch_load t st).1.
Proof.
  unfold dispatch_load, bind, gets.
  destruct (mjoin _); [apply quiet_onComplete | apply quiet_refl].
Qed.

Lemma quiet_dispatch_readystatechange t s st :
  quiet st (dispatch_readystatechange t s st).1.
Proof.
  unfold dispatch_readystatechange.
  unfold bind at 1. unfold update_script at 1, modify at 1.
  eapply quiet_trans;
    [apply (quiet_update_script t (set_readyState (Some s))); by auto|].
  unfold bind at 1. unfold gets at 1.
  destruct (mjoin _); [|apply quiet_refl].
  destruct (is_done s); [|apply quiet_refl].
  unfold bind at 1. unfold update_script at 1, modify at 1.
  eapply quiet_trans;
    [apply (quiet_update_script t (set_onreadystatechange None)); by auto|].
  apply quiet_onComplete.
Qed.

Lemma quiet_rejected env r st :
  passes env r = false → quiet st (loadExternalScript env r st).1.
Proof.
  intros Hp. rewrite loadExternalScript_rejected by done. simpl.
  apply quiet_add_log. unfold rejection_events.
  constructor; [done|].
  destruct (negb (isActivityAllowed _ _ _)); [constructor|].
  destruct (negb (valid r)); repeat constructor.
Qed.

Lemma quiet_hit_call env r st a :
  passes env r = true →
  getCacheObject (doc_of r) (url r) st = Some (Entry a) →
  quiet st (loadExternalScript env r st).1.
Proof.
  intros Hp Hget. rewrite (loadExternalScript_hit env r st a) by done.
  eapply quiet_trans; [|apply quiet_hit].
  apply quiet_add_log. repeat constructor.
Qed.

(** * Runs on one entry *)

Lemma same_entry_call env doc u r :
  same_entry env doc u (ActCall r) = true →
  passes env r = true ∧ doc_of r = doc ∧ url r = u.
Proof.
  simpl. rewrite !andb_true_iff, !bool_decide_eq_true. tauto.
Qed.

Lemma quiet_entry_of st st' d u :
  quiet st st' → entry_of d u st' = entry_of d u st.
Proof. intros Hq. apply entry_of_cache, Hq. Qed.

Lemma quiet_getCacheObject st st' d u a :
  quiet st st' →
  getCacheObject d u st' = Some (Entry a) ↔ getCacheObject d u st = Some (Entry a).
Proof. intros Hq. by rewrite !getCacheObject_Entry, (quiet_entry_of st st'). Qed.

Lemma exec_event_quiet env act st :
  is_call act = false → quiet st (exec env act st).1 ∧ (exec env act st).2 = None.
Proof.
  destruct act as [r|t|t s]; [done| |]; intros _; simpl.
  - destruct (is_inserted t st); simpl; split; try done;
      [apply quiet_dispatch_load | apply quiet_refl].
  - destruct (is_inserted t st); simpl; split; try done;
      [apply quiet_dispatch_readystatechange | apply quiet_refl].
Qed.

Lemma hit_result a r st t :
  tag (deref a st) = Some t →
  returns_or_own_throw t r (hit a r st).2.
Proof.
  intros Ht. unfold hit, returns_or_own_throw, tag_value.
  destruct (callback_arg r) as [| |c] eqn:Hc; simpl; rewrite ?Ht; auto.
  destruct (loaded (deref a st)); simpl; rewrite ?Ht; auto.
  destruct (cb_throws c) eqn:Hthrow; rewrite ?Ht; eauto.
Qed.

Lemma exec_call_hit env r st a t :
  passes env r = true →
  getCacheObject (doc_of r) (url r) st = Some (Entry a) →
  tag (deref a st) = Some t →
  ∃ st' res, exec env (ActCall r) st = (st', Some res)
             ∧ quiet st st' ∧ returns_or_own_throw t r res.
Proof.
  intros Hp Hget Ht. simpl.
  pose proof (quiet_hit_call env r st a Hp Hget) as Hq.
  rewrite (loadExternalScript_hit env r st a) in * by done.
  destruct (hit a r (add_log [gate_event r] st)) as [st' res] eqn:Hhit.
  exists st', res. split; [done|]. split; [done|].
  change res with (st', res).2. rewrite <- Hhit. by apply hit_result.
Qed.

Lemma run_same_entry env doc u a t acts : ∀ st st' results,
  getCacheObject doc u st = Some (Entry a) →
  tag (deref a st) = Some t →
  Forall (λ act, same_entry env doc u act = true) acts →
  run env acts st = (st', results) →
  quiet st st' ∧ Forall2 (returns_or_own_throw t) (calls acts) results.
Proof.
  induction acts as [|act acts IH]; intros st st' results Hget Ht Hacts Hrun.
  - simpl in Hrun. injection Hrun as <- <-. split; [apply quiet_refl | constructor].
  - apply Forall_cons in Hacts as [Hact Hacts].
    cbn [run] in Hrun.
    destruct (exec env act st) as [st1 o] eqn:Hexec.
    destruct (run env acts st1) as [st2 rs] eqn:Hrest.
    injection Hrun as <- <-.
    assert (Hstep : quiet st st1 ∧
              match act with
              | ActCall r => ∃ res, o = Some res ∧ returns_or_own_throw t r res
              | _ => o = None
              end).
    { destruct act as [r|t'|t' s].
      - apply same_entry_call in Hact as (Hp & <- & <-).
        destruct (exec_call_hit env r st a t Hp Hget Ht) as (st'' & res & He & Hq & Hr).
        rewrite He in Hexec. injection Hexec as <- <-. eauto.
      - pose proof (exec_event_quiet env (ActLoad t') st eq_refl) as [Hq Hn].
        rewrite Hexec in Hq, Hn. done.
      - pose proof (exec_event_quiet env (ActReadyState t' s) st eq_refl) as [Hq Hn].
        rewrite Hexec in Hq, Hn. done. }
    destruct Hstep as [Hq Ho].
    destruct (IH st1 st2 rs) as [Hq' Hres]; try done.
    + by rewrite (quiet_getCacheObject st st1).
    + by rewrite (q_tag _ _ Hq).
    + split; [by eapply quiet_trans|].
      destruct act as [r|t'|t' s]; cbn [calls omap].
      * destruct Ho as (res & -> & Hr). by constructor.
      * by subst o.
      * by subst o.
Qed.

(** A registered callback joins the queue of a pending entry. *)
Lemma hit_pending a r st o :
  heap st !! a = Some o →
  loaded o = false →
  hit a r st =
    (upd_heap (λ h, <[a := CacheObject false (tag o) (callbacks o ++ queued r)]> h) st,
     Return (tag_value o)).
Proof.
  intros Ho Hl. unfold hit, queued, deref. rewrite Ho. simpl. rewrite Hl.
  destruct (callback_arg r) as [| |c]; simpl.
  - rewrite app_nil_r. unfold upd_heap. rewrite <- Hl.
    replace (CacheObject (loaded o) (tag o) (callbacks o)) with o by by destruct o.
    rewrite list_insert_id by done. by destruct st.
  - rewrite app_nil_r. unfold upd_heap. rewrite <- Hl.
    replace (CacheObject (loaded o) (tag o) (callbacks o)) with o by by destruct o.
    rewrite list_insert_id by done. by destruct st.
  - unfold push. by rewrite Hl.
Qed.

(** Calls made before completion: each returns the element and leaves
    its callback, if a function, at the end of the queue. *)
Lemma run_calls_pending env doc u a rs : ∀ st o,
  getCacheObject doc u st = Some (Entry a) →
  heap st !! a = Some o →
  loaded o = false →
  Forall (λ r, same_entry env doc u (ActCall r) = true) rs →
  run env (ActCall <$> rs) st =
    (State (_requestCache st)
           (<[a := CacheObject false (tag o) (callbacks o ++ (rs ≫= queued))]> (heap st))
           (scripts st)
           (log st ++ (gate_event <$> rs)),
     replicate (length rs) (Return (tag_value o))).
Proof.
  induction rs as [|r rs IH]; intros st o Hget Ho Hl Hrs.
  - simpl. rewrite !app_nil_r. rewrite <- Hl.
    replace (CacheObject (loaded o) (tag o) (callbacks o)) with o by by destruct o.
    rewrite list_insert_id by done. by destruct st.
  - apply Forall_cons in Hrs as [Hr Hrs].
    apply same_entry_call in Hr as (Hp & <- & <-).
    cbn [fmap list_fmap run exec].
    rewrite (loadExternalScript_hit env r st a) by done.
    rewrite (hit_pending a r _ o) by done.
    set (o1 := CacheObject false (tag o) (callbacks o ++ queued r)).
    set (st1 := upd_heap _ _).
    assert (Ho1 : heap st1 !! a = Some o1).
    { unfold st1, upd_heap; simpl. apply list_lookup_insert_eq.
      by eapply lookup_lt_Some. }
    change (list_fmap request action ActCall rs) with (ActCall <$> rs).
    rewrite (IH st1 o1); [|by apply (getCacheObject_cache _ _ st)|done..].
    unfold st1, upd_heap, o1; simpl.
    rewrite list_insert_insert_eq. rewrite <- !app_assoc. done.
Qed.

Lemma all_calls acts : forallb is_call acts = true → acts = ActCall <$> calls acts.
Proof.
  induction acts as [|[r|t|t s] acts IH]; simpl; try done.
  intros H. f_equal. by apply IH.
Qed.

Lemma load_state_entry env r st :
  getCacheObject (doc_of r) (url r) (load_state env r st) = Some (Entry (length (heap st)))
  ∧ heap (load_state env r st) !! length (heap st)
    = Some (CacheObject false (Some (length (scripts st))) (queued r)).
Proof.
  split.
  - apply getCacheObject_Entry. unfold entry_of, load_state; simpl.
    rewrite lookup_insert_eq. by rewrite lookup_insert_eq.
  - unfold load_state; simpl. apply lookup_snoc.
Qed.

Lemma created_app evs1 evs2 : created (evs1 ++ evs2) = created evs1 ++ created evs2.
Proof. apply omap_app. Qed.

Lemma insertions_app evs1 evs2 :
  insertions (evs1 ++ evs2) = insertions evs1 ++ insertions evs2.
Proof. apply omap_app. Qed.

Lemma attribute_sets_app evs1 evs2 :
  attribute_sets (evs1 ++ evs2) = attribute_sets evs1 ++ attribute_sets evs2.
Proof. apply omap_app. Qed.

Lemma load_events_dom r t :
  created (load_events r t) = [(doc_of r, t)]
  ∧ insertions (load_events r t) = [(t, doc_of r)]
  ∧ attribute_sets (load_events r t)
    = match attributes r with Some a => [(t, a)] | None => [] end.
Proof. unfold load_events. by destruct (attributes r). Qed.

(** An entry-creating call followed by any actions on the same entry. *)
Lemma run_load_once env r acts st st' results :
  getCacheObject (doc_of r) (url r) st = None →
  passes env r = true →
  constructs env (doc_of r) (attributes r) = true →
  Forall (λ act, same_entry env (doc_of r) (url r) act = true) acts →
  run env (ActCall r :: acts) st = (st', results) →
  ∃ later,
    results = Return (Element (length (scripts st))) :: later
    ∧ run env acts (load_state env r st) = (st', later)
    ∧ quiet (load_state env r st) st'
    ∧ Forall2 (returns_or_own_throw (length (scripts st))) (calls acts) later.
Proof.
  intros Hget Hp Hc Hacts Hrun. cbn [run exec] in Hrun.
  rewrite loadExternalScript_miss_ok in Hrun by done.
  destruct (run env acts (load_state env r st)) as [st2 later] eqn:Hrest.
  injection Hrun as <- <-. exists later. split; [done|]. split; [done|].
  destruct (load_state_entry env r st) as [Hg Ho].
  eapply run_same_entry; try done.
  unfold deref. by rewrite Ho.
Qed.

(** * C1: one creation, one handle *)

(** C1, as stated, fails: after the entry is loaded, a call for the same
    (context, url) that passes every check and brings a callback that
    throws does not return the handle; the exception of [callback()]
    leaves [loadExternalScript]. *)
Lemma C1_later_call_may_throw :
  let r1 := req "foo.js" "debugging" (CbFunction cb1) None None in
  let r2 := req "foo.js" "debugging" (CbFunction cb_bad) None None in
  passes env_plain r1 = true ∧ passes env_plain r2 = true
  ∧ doc_of r2 = doc_of r1 ∧ url r2 = url r1
  ∧ (run env_plain [ActCall r1; ActLoad 0; ActCall r2] initial).2
    = [Return (Element 0); Throw (ExnCallback cb_bad)]
  ∧ (run env_plain [ActCall r1; ActLoad 0; ActCall r2] initial).2 !! 1
    ≠ Some (Return (Element 0)).
Proof. vm_compute. repeat split; try done. Qed.

(** C1 (amended): for every sequence of calls for one (context, url) that
    pass validation, the policy gate and the allow-list, starting where
    the lookup of the url in the context's map finds nothing (no entry,
    and no property the map inherits) and interleaved in any way with the
    browser's events, when the loader's DOM calls do not throw: exactly
    one element is created and exactly one is inserted, both by the first
    call, which alone adds a cache object and a registry entry; the first
    call returns that element and every later call returns the same
    element, unless its own callback throws (it is then fired at once on
    the loaded entry and the exception propagates); all later calls made
    before any event of the browser return it. *)
Theorem C1_one_creation_same_handle env r acts st st' results :
  getCacheObject (doc_of r) (url r) st = None →
  passes env r = true →
  constructs env (doc_of r) (attributes r) = true →
  Forall (λ act, same_entry env (doc_of r) (url r) act = true) acts →
  run env (ActCall r :: acts) st = (st', results) →
  let t := length (scripts st) in
  let a := length (heap st) in
  (∃ evs, log st' = log st ++ evs
          ∧ created evs = [(doc_of r, t)]
          ∧ insertions evs = [(t, doc_of r)])
  ∧ length (scripts st') = S t
  ∧ length (heap st') = S a
  ∧ _requestCache st' = _requestCache (load_state env r st)
  ∧ getCacheObject (doc_of r) (url r) st' = Some (Entry a)
  ∧ tag (deref a st') = Some t
  ∧ ∃ later,
      results = Return (Element t) :: later
      ∧ Forall2 (returns_or_own_throw t) (calls acts) later
      ∧ (forallb is_call acts = true →
         later = replicate (length acts) (Return (Element t))).
Proof.
  intros Hget Hp Hc Hacts Hrun. cbv zeta.
  set (t := length (scripts st)). set (a := length (heap st)).
  destruct (run_load_once env r acts st st' results) as (later & -> & Hrest & Hq & Hres);
    try done.
  fold t in Hres. unfold t, a.
  destruct (load_state_entry env r st) as [Hg Ho].
  destruct Hq as [qc qh qt qs qx qy (evs' & ql & Hsil)].
  destruct (load_events_dom r t) as (Hcr & Hin & _).
  repeat split.
  - exists (load_events r t ++ evs'). split; [|split].
    + rewrite ql. unfold load_state. cbn [log]. by rewrite <- app_assoc.
    + by rewrite created_app, Hcr, (silent_created evs').
    + by rewrite insertions_app, Hin, (silent_insertions evs').
  - rewrite qs. unfold load_state; simpl. rewrite length_app. simpl. lia.
  - rewrite qh. unfold load_state; simpl. rewrite length_app. simpl. lia.
  - done.
  - by apply (getCacheObject_cache _ _ (load_state env r st)).
  - rewrite qt. unfold deref. by rewrite Ho.
  - exists later. split; [done|]. split; [done|].
    intros Hcalls. apply all_calls in Hcalls.
    rewrite Hcalls in Hrest, Hacts.
    rewrite Forall_fmap in Hacts.
    rewrite (run_calls_pending env (doc_of r) (url r) a (calls acts) _ _ Hg Ho eq_refl Hacts)
      in Hrest.
    injection Hrest as _ <-. rewrite Hcalls at 2. by rewrite length_fmap.
Qed.

Lemma C1_one_creation_same_handle_witness :
  let r1 := req "foo.js" "debugging" (CbFunction cb1) None None in
  let r2 := req "foo.js" "debugging" (CbFunction cb2) None None in
  let st' := (run env_plain [ActCall r1; ActCall r2; ActLoad 0; ActCall r2] initial).1 in
  length (scripts st') = 1 ∧ length (heap st') = 1.
Proof.
  intros r1 r2 st'.
  pose proof (C1_one_creation_same_handle env_plain r1
                [ActCall r2; ActLoad 0; ActCall r2] initial st'
                (run env_plain [ActCall r1; ActCall r2; ActLoad 0; ActCall r2] initial).2)
    as H.
  destruct H as (_ & H1 & H2 & _).
  - reflexivity.
  - reflexivity.
  - reflexivity.
  - repeat constructor.
  - reflexivity.
  - split; [exact H1 | exact H2].
Defined.

(** * C2: the drain of the pending callbacks *)

(** The drain when nothing throws: every queued callback, once, in the
    order of the queue. *)
Lemma drain_in_order a st :
  Forall (λ c, cb_throws c = false) (callbacks (deref a st)) →
  onComplete a st =
    (add_log (EvCallback <$> callbacks (deref a st))
       (upd_heap (λ h, <[a := set_loaded (deref a st)]> h) st),
     Return tt).
Proof.
  intros Hno. rewrite onComplete_eq. unfold drain_events.
  destruct (reached_no_throw _ Hno) as [-> ->]. by rewrite app_nil_r.
Qed.

(** The whole life of an entry when no callback throws and the
    attributes replace no handler: the callbacks registered while it is
    pending are invoked by the completion signal, each once, in the order
    of registration, and nothing else is. *)
Lemma pending_callbacks_drain_in_order env r rs st :
  getCacheObject (doc_of r) (url r) st = None →
  passes env r = true →
  constructs env (doc_of r) (attributes r) = true →
  names "onload" (attributes r) = false →
  names "onreadystatechange" (attributes r) = false →
  Forall (λ r', same_entry env (doc_of r) (url r) (ActCall r') = true) rs →
  Forall (λ c, cb_throws c = false) (queued r ++ (rs ≫= queued)) →
  let pending := (run env (ActCall r :: (ActCall <$> rs)) st).1 in
  let signal := completion_signal env (doc_of r) (length (scripts st)) in
  invocations (log pending) = invocations (log st)
  ∧ log (exec env signal pending).1
    = log pending ++ (EvCallback <$> (queued r ++ (rs ≫= queued)))
  ∧ loaded (deref (length (heap st)) (exec env signal pending).1) = true.
Proof.
  intros Hget Hp Hc Hol Hor Hrs Hno. cbv zeta.
  apply names_false in Hol, Hor.
  destruct (load_state_entry env r st) as [Hg Ho].
  assert (Hrun : (run env (ActCall r :: (ActCall <$> rs)) st).1
    = State (_requestCache (load_state env r st))
            (<[length (heap st) :=
                 CacheObject false (Some (length (scripts st)))
                   (queued r ++ (rs ≫= queued))]> (heap (load_state env r st)))
            (scripts (load_state env r st))
            (log (load_state env r st) ++ (gate_event <$> rs))).
  { rewrite run_fst_cons. cbn [exec].
    rewrite loadExternalScript_miss_ok by done. cbn [fst].
    by rewrite (run_calls_pending env (doc_of r) (url r) (length (heap st)) rs _ _
                  Hg Ho eq_refl Hrs). }
  rewrite Hrun. clear Hrun.
  set (o := CacheObject false _ (queued r ++ (rs ≫= queued))).
  set (pending := State _ _ _ _).
  assert (Hlt : length (heap st) < length (heap (load_state env r st))).
  { unfold load_state. cbn [heap]. rewrite length_app. simpl. lia. }
  assert (Hd : deref (length (heap st)) pending = o).
  { unfold deref, pending. cbn [heap]. by rewrite list_lookup_insert_eq. }
  assert (Hs : scripts pending !! length (scripts st)
               = Some (final_script env r (length (heap st)))).
  { unfold pending, load_state. cbn [scripts]. apply lookup_snoc. }
  assert (Hexec : ∃ stp, heap stp = heap pending ∧ log stp = log pending
            ∧ exec env (completion_signal env (doc_of r) (length (scripts st))) pending
              = ((onComplete (length (heap st)) stp).1, None)).
  { unfold completion_signal.
    destruct (truthy_opt (newReadyState env (doc_of r))) eqn:Hrs'.
    - eexists. split; [|split]; cycle 2.
      + cbn [exec]. unfold is_inserted. rewrite Hs. simpl.
        rewrite dispatch_readystatechange_eq, Hs. simpl.
        unfold onreadystatechange_of, final_script. simpl. rewrite Hor.
        unfold new_script. simpl. rewrite Hrs'. simpl. reflexivity.
      + done.
      + done.
    - exists pending. split; [done|]. split; [done|].
      cbn [exec]. unfold is_inserted. rewrite Hs. simpl.
      rewrite dispatch_load_eq, Hs. simpl.
      unfold onload_of, final_script. simpl. rewrite Hol.
      unfold new_script. simpl. by rewrite Hrs'. }
  destruct Hexec as (stp & Hh & Hl & ->). cbn [fst].
  assert (Hdp : deref (length (heap st)) stp = o).
  { unfold deref. rewrite Hh. exact Hd. }
  split; [|split].
  - unfold pending, load_state. cbn [log]. rewrite !invocations_app.
    assert (Hg0 : invocations (gate_event <$> rs) = []).
    { clear. induction rs as [|x rs IH]; [done|]. exact IH. }
    rewrite Hg0, app_nil_r.
    assert (Hl0 : invocations (load_events r (length (scripts st))) = []).
    { unfold load_events. by destruct (attributes r). }
    by rewrite Hl0, app_nil_r.
  - rewrite drain_in_order by by rewrite Hdp.
    cbn [fst add_log upd_heap log]. by rewrite Hdp, Hl.
  - rewrite onComplete_eq. unfold deref at 1, add_log, upd_heap. cbn [fst heap].
    rewrite list_lookup_insert_eq; [done|]. rewrite Hh. unfold pending. cbn [heap].
    by rewrite length_insert.
Qed.

(** C2, at a failing input: three callbacks are registered while the
    entry is pending, the second one throws; when the completion signal
    fires, the third is in the queue and is never invoked. *)
Theorem C2_queued_callback_not_fired :
  let rA := req "foo.js" "debugging" (CbFunction cb1) None None in
  let rB := req "foo.js" "optable" (CbFunction cb_bad) None None in
  let rC := req "foo.js" "id5" (CbFunction cb3) None None in
  let before := (run env_plain [ActCall rA; ActCall rB; ActCall rC] initial).1 in
  let after := (run env_plain [ActLoad 0] before).1 in
  deref 0 before = CacheObject false (Some 0) [cb1; cb_bad; cb3]
  ∧ loaded (deref 0 after) = true
  ∧ invocations (log after) = [cb1; cb_bad]
  ∧ cb3 ∉ invocations (log after).
Proof.
  vm_compute. repeat split; try done.
  intros H. apply list_elem_of_In in H. simpl in H.
  destruct H as [H|[H|[]]]; discriminate H.
Qed.

(** * C3: a callback for a loaded entry *)

(** C3: a call that reaches the cache with a function callback, for an
    entry that is already loaded, invokes the callback exactly once
    within the call: the call appends the gate query and that single
    invocation to the log, leaves the registry, every cache object (so
    the queue of the entry) and every element as they were, and returns
    the entry's tag unless the callback threw. *)
Theorem C3_loaded_entry_fires_at_once env r st a o c :
  passes env r = true →
  getCacheObject (doc_of r) (url r) st = Some (Entry a) →
  heap st !! a = Some o →
  loaded o = true →
  callback_arg r = CbFunction c →
  loadExternalScript env r st
  = (add_log [gate_event r; EvCallback c] st,
     if cb_throws c then Throw (ExnCallback c) else Return (tag_value o))
  ∧ invocations [gate_event r; EvCallback c] = [c]
  ∧ callbacks (deref a (loadExternalScript env r st).1) = callbacks o.
Proof.
  intros Hp Hget Ho Hl Hc.
  assert (Heq : loadExternalScript env r st
    = (add_log [gate_event r; EvCallback c] st,
       if cb_throws c then Throw (ExnCallback c) else Return (tag_value o))).
  { rewrite (loadExternalScript_hit env r st a) by done.
    unfold hit. rewrite Hc. rewrite deref_add_log. unfold deref. rewrite Ho. simpl.
    rewrite Hl. by rewrite add_log_app. }
  split; [done|]. split; [done|].
  rewrite Heq. simpl. rewrite deref_add_log. unfold deref. by rewrite Ho.
Qed.

Lemma C3_loaded_entry_fires_at_once_witness :
  let r1 := req "foo.js" "debugging" CbAbsent None None in
  let r2 := req "foo.js" "optable" (CbFunction cb2) None None in
  let st := (run env_plain [ActCall r1; ActLoad 0] initial).1 in
  (loadExternalScript env_plain r2 st).2 = Return (Element 0)
  ∧ invocations (log (loadExternalScript env_plain r2 st).1) = [cb2].
Proof.
  intros r1 r2 st.
  destruct (C3_loaded_entry_fires_at_once env_plain r2 st 0
              (CacheObject true (Some 0) []) cb2) as (Heq & _ & _).
  - reflexivity.
  - reflexivity.
  - reflexivity.
  - reflexivity.
  - reflexivity.
  - rewrite Heq. split; reflexivity.
Defined.

(** * C4: a callback that throws during the drain *)

Lemma reached_throw pre c post :
  Forall (λ c, cb_throws c = false) pre →
  cb_throws c = true →
  reached (pre ++ c :: post) = pre ++ [c] ∧ any_throws (pre ++ c :: post) = true.
Proof.
  intros Hpre Hc. induction Hpre as [|p pre Hp _ [IH1 IH2]].
  - unfold any_throws. simpl. by rewrite Hc.
  - unfold any_throws in *. simpl. by rewrite Hp, IH1, IH2.
Qed.

(** C4, on the code: the [try] encloses the whole loop, so the first
    callback that throws ends the drain.  The handler invokes the queue up
    to and including that callback, logs one error, and invokes none of
    the callbacks registered after it. *)
Theorem C4_throw_aborts_drain a st o pre c post :
  heap st !! a = Some o →
  callbacks o = pre ++ c :: post →
  Forall (λ c, cb_throws c = false) pre →
  cb_throws c = true →
  onComplete a st
  = (add_log ((EvCallback <$> pre) ++ [EvCallback c; EvLogError "Error executing callback"])
       (upd_heap (λ h, <[a := set_loaded o]> h) st),
     Return tt).
Proof.
  intros Ho Hcbs Hpre Hc. rewrite onComplete_eq.
  unfold drain_events, deref. rewrite Ho. simpl. rewrite Hcbs.
  destruct (reached_throw pre c post Hpre Hc) as [-> ->].
  rewrite fmap_app. simpl. by rewrite <- app_assoc.
Qed.

Lemma C4_throw_aborts_drain_witness :
  let rA := req "foo.js" "debugging" (CbFunction cb_bad) None None in
  let rB := req "foo.js" "optable" (CbFunction cb2) None None in
  let before := (run env_plain [ActCall rA; ActCall rB] initial).1 in
  invocations (log (run env_plain [ActLoad 0] before).1) = [cb_bad]
  ∧ callbacks (deref 0 before) = [cb_bad; cb2].
Proof.
  intros rA rB before.
  pose proof (C4_throw_aborts_drain 0 before
                (CacheObject false (Some 0) [cb_bad; cb2]) [] cb_bad [cb2]) as H.
  assert (Hrun : (run env_plain [ActLoad 0] before).1 = (onComplete 0 before).1)
    by reflexivity.
  rewrite Hrun, H.
  - split; reflexivity.
  - reflexivity.
  - reflexivity.
  - constructor.
  - reflexivity.
Defined.

(** * C5: the completion handler run twice *)

Lemma invocations_drain cbs : invocations (drain_events cbs) = reached cbs.
Proof.
  unfold drain_events, invocations. rewrite omap_app.
  assert (H1 : ∀ l : list callback,
    omap (λ e, match e with EvCallback c => Some c | _ => None end) (EvCallback <$> l) = l).
  { induction l as [|x l IH]; [done|]. simpl. f_equal. exact IH. }
  rewrite H1. destruct (any_throws cbs); simpl; by rewrite app_nil_r.
Qed.

(** C5, as stated, fails: the handler leaves the queue as it was, and a
    second invocation of the handler invokes the queued callback again. *)
Lemma C5_second_invocation_refires :
  let r := req "foo.js" "debugging" (CbFunction cb1) None None in
  let pending := (run env_plain [ActCall r] initial).1 in
  let once := (onComplete 0 pending).1 in
  let twice := (onComplete 0 once).1 in
  callbacks (deref 0 once) = [cb1]
  ∧ invocations (log once) = [cb1]
  ∧ invocations (log twice) = [cb1; cb1]
  ∧ invocations (log (run env_plain [ActCall r; ActLoad 0; ActLoad 0] initial).1)
    = [cb1; cb1].
Proof. vm_compute. done. Qed.

(** After a [readyState] change to ['loaded'] or ['complete'] the element
    has no [onreadystatechange] handler of the loader left. *)
Lemma readystate_handler_detached t s st :
  is_done s = true →
  mjoin (onreadystatechange_of <$> scripts (dispatch_readystatechange t s st).1 !! t) = None.
Proof.
  intros Hs. rewrite dispatch_readystatechange_eq. cbv zeta. rewrite Hs.
  set (st1 := upd_scripts _ st).
  assert (H1 : onreadystatechange_of <$> scripts st1 !! t
               = onreadystatechange_of <$> scripts st !! t).
  { unfold st1, upd_scripts; simpl. rewrite list_lookup_alter_eq.
    by destruct (scripts st !! t). }
  destruct (scripts st !! t ≫= onreadystatechange_of) as [a|] eqn:Hh.
  - rewrite onComplete_eq. simpl.
    rewrite list_lookup_alter_eq. destruct (alter _ _ _ !! t) as [x|]; [|done].
    simpl. unfold onreadystatechange_of. simpl.
    by destruct (attribute "onreadystatechange" (s_attrs x)).
  - cbn [fst]. rewrite H1. by destruct (scripts st !! t).
Qed.

(** A [readyState] change at an element without a handler of the loader
    changes neither the log nor a cache object. *)
Lemma readystate_without_handler t s st :
  mjoin (onreadystatechange_of <$> scripts st !! t) = None →
  log (dispatch_readystatechange t s st).1 = log st
  ∧ heap (dispatch_readystatechange t s st).1 = heap st.
Proof.
  intros Hn. rewrite dispatch_readystatechange_eq. cbv zeta.
  assert (Hn' : scripts st !! t ≫= onreadystatechange_of = None).
  { destruct (scripts st !! t); done. }
  by rewrite Hn'.
Qed.

(** C5 (amended): the completion handler is not idempotent.  Each
    invocation sets [loaded], leaves the queue as it is and runs the
    queue (up to the first throw), so a second invocation runs it again.
    The [onreadystatechange] handler detaches itself before it drains,
    and a later [readyState] change at that element invokes nothing; the
    [onload] handler stays attached, and each [load] event at its element
    runs the handler again. *)
Theorem C5_handler_reruns_queue a st o :
  heap st !! a = Some o →
  let once := (onComplete a st).1 in
  let twice := (onComplete a once).1 in
  heap once !! a = Some (set_loaded o)
  ∧ callbacks (deref a once) = callbacks o
  ∧ log once = log st ++ drain_events (callbacks o)
  ∧ log twice = log st ++ drain_events (callbacks o) ++ drain_events (callbacks o)
  ∧ invocations (drain_events (callbacks o) ++ drain_events (callbacks o))
    = reached (callbacks o) ++ reached (callbacks o)
  ∧ (∀ t s s' st0, is_done s = true →
      let st1 := (dispatch_readystatechange t s st0).1 in
      log (dispatch_readystatechange t s' st1).1 = log st1
      ∧ heap (dispatch_readystatechange t s' st1).1 = heap st1)
  ∧ ∀ t, scripts st !! t ≫= onload_of = Some a →
      (dispatch_load t st).1 = once
      ∧ (dispatch_load t once).1 = twice.
Proof.
  intros Ho once twice.
  assert (Hlt : a < length (heap st)) by by eapply lookup_lt_Some.
  assert (Hd : deref a st = o) by (unfold deref; by rewrite Ho).
  assert (Hh : heap once !! a = Some (set_loaded o)).
  { unfold once. rewrite onComplete_eq. simpl. rewrite Hd.
    by apply list_lookup_insert_eq. }
  assert (Hd1 : deref a once = set_loaded o) by (unfold deref; by rewrite Hh).
  split; [done|]. split; [by rewrite Hd1|].
  split; [unfold once; rewrite onComplete_eq; simpl; by rewrite Hd|].
  split.
  { unfold twice. rewrite onComplete_eq. simpl. rewrite Hd1. simpl.
    unfold once. rewrite onComplete_eq. simpl. rewrite Hd. by rewrite <- app_assoc. }
  split.
  { unfold invocations. rewrite omap_app. fold (invocations (drain_events (callbacks o))).
    by rewrite invocations_drain. }
  split.
  - intros t s s' st0 Hs st1.
    apply readystate_without_handler. by apply readystate_handler_detached.
  - intros t Ht. rewrite !dispatch_load_eq.
    assert (Hsc : scripts once = scripts st).
    { unfold once. by rewrite onComplete_eq. }
    by rewrite Hsc, Ht.
Qed.

Lemma C5_handler_reruns_queue_witness :
  let r := req "foo.js" "debugging" (CbFunction cb1) None None in
  let pending := (run env_plain [ActCall r] initial).1 in
  log (onComplete 0 (onComplete 0 pending).1).1
  = log pending ++ [EvCallback cb1] ++ [EvCallback cb1].
Proof.
  intros r pending.
  destruct (C5_handler_reruns_queue 0 pending (CacheObject false (Some 0) [cb1]))
    as (_ & _ & _ & H & _).
  - reflexivity.
  - exact H.
Defined.

(** * C6: the order of the checks *)

(** C6, as stated, fails: for a call with an empty url the policy gate is
    consulted, and it is consulted before the url is looked at; when the
    gate denies the call, no error is logged. *)
Lemma C6_gate_consulted_first :
  let r := req "" "debugging" CbAbsent None None in
  log (loadExternalScript env_plain r initial).1
  = [EvIsActivityAllowed "rtd" "debugging";
     EvLogError "cannot load external script without url and moduleCode"]
  ∧ gate_queries (log (loadExternalScript env_plain r initial).1) = [("rtd", "debugging")]%string
  ∧ log (loadExternalScript env_deny r initial).1 = [EvIsActivityAllowed "rtd" "debugging"].
Proof. vm_compute. done. Qed.

Lemma valid_false r : (moduleCode r = "" ∨ url r = "")%string → valid r = false.
Proof.
  unfold valid, truthy. intros [H|H]; rewrite H; simpl; [done|].
  by rewrite andb_false_r.
Qed.

(** C6 (amended): the policy gate check precedes input validation.  A
    call with an empty url or an empty moduleCode consults the gate, once
    and first; it returns nothing and changes nothing but the log; the
    error is logged exactly when the gate allowed the call. *)
Theorem C6_gate_precedes_validation env r st :
  (moduleCode r = "" ∨ url r = "")%string →
  loadExternalScript env r st
  = (add_log (gate_event r ::
               if isActivityAllowed env (moduleType r) (moduleCode r)
               then [EvLogError "cannot load external script without url and moduleCode"]
               else []) st,
     Return Undefined).
Proof.
  intros Hv. apply valid_false in Hv.
  rewrite loadExternalScript_rejected.
  - unfold rejection_events. rewrite Hv.
    by destruct (isActivityAllowed env (moduleType r) (moduleCode r)).
  - unfold passes. rewrite Hv. by rewrite andb_false_r.
Qed.

Lemma C6_gate_precedes_validation_witness :
  loadExternalScript env_plain (req "foo.js" "" CbAbsent None None) initial
  = (add_log [EvIsActivityAllowed "rtd" "";
              EvLogError "cannot load external script without url and moduleCode"]
       initial,
     Return Undefined).
Proof.
  apply (C6_gate_precedes_validation env_plain (req "foo.js" "" CbAbsent None None) initial).
  left. reflexivity.
Defined.

(** * Every cache miss, whatever the DOM calls do *)

Lemma created_state_alloc env r src cb st s evs :
  created_state env (url r) src cb (doc_of r) (alloc_entry r (add_log [gate_event r] st)) s evs
  = State (_requestCache (alloc_entry r st))
          (heap st ++ [CacheObject false (Some (length (scripts st))) (queued r)])
          (scripts st ++ [s])
          (log st ++ gate_event r
             :: EvLogWarn ("module " ++ moduleCode r ++ " is loading external JavaScript")
             :: EvCreateElement (doc_of r) (length (scripts st)) :: evs).
Proof.
  unfold created_state. rewrite getCacheObject_alloc.
  cbn [alloc_entry add_log _requestCache heap scripts log].
  rewrite insert_snoc. unfold deref. cbn [alloc_entry add_log heap].
  rewrite lookup_snoc. simpl. by rewrite <- !app_assoc.
Qed.

Lemma new_script_fields env doc cb src :
  let s := new_script env doc cb src in
  s_doc s = doc ∧ s_src s = src ∧ s_inserted s = false ∧ s_attrs s = []
  ∧ ∀ a, s_onload s = Some a ∨ s_onreadystatechange s = Some a → a = cb.
Proof.
  unfold new_script. simpl. repeat split.
  intros a. destruct (truthy_opt (newReadyState env doc)); intros [H|H]; congruence.
Qed.

(** The outcome of a miss: a new cache object at the end of the heap,
    entered in the registry; either no element (the factory threw), or
    one new element whose handler holds the new object, inserted exactly
    when the call returns. *)
Lemma miss_shape env r st :
  passes env r = true →
  getCacheObject (doc_of r) (url r) st = None →
  ∃ tg ss evs res,
    loadExternalScript env r st
    = (State (_requestCache (alloc_entry r st))
             (heap st ++ [CacheObject false tg (queued r)])
             (scripts st ++ ss)
             (log st ++ evs), res)
    ∧ invocations evs = []
    ∧ ((tg = None ∧ ss = [] ∧ res = Throw (ExnCreateElement (doc_of r))
        ∧ insertions evs = []
        ∧ createElement_throws env (doc_of r) = true
        ∧ constructs env (doc_of r) (attributes r) = false)
       ∨ ∃ s, tg = Some (length (scripts st)) ∧ ss = [s]
           ∧ s_doc s = doc_of r ∧ s_src s = url r
           ∧ (∀ a, s_onload s = Some a ∨ s_onreadystatechange s = Some a
                   → a = length (heap st))
           ∧ ((s_inserted s = true
               ∧ res = Return (Element (length (scripts st)))
               ∧ constructs env (doc_of r) (attributes r) = true)
              ∨ (s_inserted s = false ∧ insertions evs = []
                 ∧ (∃ e, res = Throw e)
                 ∧ constructs env (doc_of r) (attributes r) = false))).
Proof.
  intros Hp Hget. rewrite loadExternalScript_miss by done.
  rewrite requestResource_eq. unfold requestResource_nf, constructs.
  cbn [alloc_entry add_log scripts].
  pose proof (new_script_fields env (doc_of r) (length (heap st)) (url r))
    as (Hd & Hs & Hi & _ & Hh).
  destruct (createElement_throws env (doc_of r)) eqn:Hc1.
  { exists None, [], [gate_event r;
      EvLogWarn ("module " ++ moduleCode r ++ " is loading external JavaScript")],
      (Throw (ExnCreateElement (doc_of r))).
    split; [|split; [done|left; done]].
    unfold alloc_entry, add_log; simpl. f_equal. f_equal.
    - by rewrite app_nil_r.
    - by rewrite <- app_assoc. }
  destruct (attributes r) as [av|] eqn:Hat.
  - destruct (setScriptAttributes_throws env (doc_of r) av) eqn:Hc2;
      [|destruct (insertElement_throws env (doc_of r)) eqn:Hc3];
      rewrite created_state_alloc; eexists _, _, _, _;
      (split; [reflexivity|]); (split; [done|]); right; eexists;
      (split; [reflexivity|]); (split; [reflexivity|]).
    + repeat split; try done. right.
      repeat split; eauto; simpl; by rewrite ?Hc2, ?Hc3, ?andb_false_r.
    + repeat split; try done. right.
      repeat split; eauto; simpl; by rewrite ?Hc2, ?Hc3, ?andb_false_r.
    + repeat split; try done. left.
      repeat split; eauto; simpl; by rewrite ?Hc2, ?Hc3.
  - destruct (insertElement_throws env (doc_of r)) eqn:Hc3;
      rewrite created_state_alloc; eexists _, _, _, _;
      (split; [reflexivity|]); (split; [done|]); right; eexists;
      (split; [reflexivity|]); (split; [reflexivity|]).
    + repeat split; try done. right.
      repeat split; eauto; simpl; by rewrite ?Hc3, ?andb_false_r.
    + repeat split; try done. left.
      repeat split; eauto; simpl; by rewrite ?Hc3.
Qed.

(** * The invariant of the reachable states *)

Lemma wf_initial : wf initial.
Proof. split; intros *; try done; unfold getCacheObject, initial; simpl; done. Qed.

Lemma quiet_script st st' t s' :
  quiet st st' →
  scripts st' !! t = Some s' →
  ∃ s, scripts st !! t = Some s ∧ static s = static s'
       ∧ ∀ a, s_onreadystatechange s' = Some a → s_onreadystatechange s = Some a.
Proof.
  intros Hq Hs'.
  pose proof (q_static _ _ Hq t) as Hx. pose proof (q_handler _ _ Hq t) as Hy.
  rewrite Hs' in Hx, Hy. simpl in Hx, Hy.
  destruct (scripts st !! t) as [s|]; [|done].
  exists s. split; [done|]. simpl in Hx, Hy. split; [congruence|].
  intros a Ha. specialize (Hy a). rewrite Ha in Hy. specialize (Hy eq_refl).
  congruence.
Qed.

Lemma wf_quiet st st' : wf st → quiet st st' → wf st'.
Proof.
  intros [Hb Hi Hh Ho] Hq. split.
  - intros d u a. rewrite (quiet_getCacheObject st st') by done.
    rewrite (q_heap _ _ Hq). apply Hb.
  - intros d u d' u' a. rewrite !(quiet_getCacheObject st st') by done. apply Hi.
  - intros t s' a Hs' Ha. rewrite (q_heap _ _ Hq).
    destruct (quiet_script st st' t s' Hq Hs') as (s & Hs & Hst & Hrs).
    apply (Hh t s a Hs). unfold static in Hst. destruct Ha as [Ha|Ha].
    + left. congruence.
    + right. by apply Hrs.
  - intros t s' Hs'.
    destruct (quiet_script st st' t s' Hq Hs') as (s & Hs & Hst & _).
    unfold static in Hst. injection Hst as Hd Hsrc _ _ _. rewrite <- Hd, <- Hsrc.
    destruct (Ho t s Hs) as [a Ha]. exists a. by apply (quiet_getCacheObject st st').
Qed.

(** A call is rejected, hits an entry, hits an inherited value, or
    misses. *)
Lemma call_cases env r st :
  passes env r = false
  ∨ (passes env r = true ∧ ∃ a, getCacheObject (doc_of r) (url r) st = Some (Entry a))
  ∨ (passes env r = true ∧ getCacheObject (doc_of r) (url r) st = Some Inherited)
  ∨ (passes env r = true ∧ getCacheObject (doc_of r) (url r) st = None).
Proof.
  destruct (passes env r); [|by left]. right.
  destruct (getCacheObject (doc_of r) (url r) st) as [[a|]|]; eauto.
Qed.

Lemma entry_of_bind d u st :
  entry_of d u st = _requestCache st !! d ≫= (λ m, m !! u).
Proof. unfold entry_of. by destruct (_requestCache st !! d). Qed.

Lemma getCacheObject_bind d u st a :
  getCacheObject d u st = Some (Entry a)
  ↔ _requestCache st !! d ≫= (λ m, m !! u) = Some a.
Proof. by rewrite getCacheObject_Entry, entry_of_bind. Qed.

Lemma getCacheObject_alloc_cases r st d u a :
  _requestCache (alloc_entry r st) !! d ≫= (λ m, m !! u) = Some a →
  (d = doc_of r ∧ u = url r ∧ a = length (heap st))
  ∨ ((d, u) ≠ (doc_of r, url r) ∧ getCacheObject d u st = Some (Entry a)).
Proof.
  intros H. apply getCacheObject_bind in H.
  destruct (decide ((d, u) = (doc_of r, url r))) as [Heq|Hne].
  - left. injection Heq as -> ->.
    rewrite getCacheObject_alloc in H. split; [done|]. split; [done|]. congruence.
  - right. split; [done|]. by apply (getCacheObject_alloc_ne r st d u a Hne).
Qed.

Lemma quiet_inherited env r st :
  passes env r = true →
  getCacheObject (doc_of r) (url r) st = Some Inherited →
  quiet st (loadExternalScript env r st).1.
Proof.
  intros Hp Hget. rewrite loadExternalScript_inherited by done.
  apply quiet_add_log. repeat constructor.
Qed.

Lemma wf_miss env r st :
  wf st →
  passes env r = true →
  getCacheObject (doc_of r) (url r) st = None →
  wf (loadExternalScript env r st).1.
Proof.
  intros [Hb Hi Hh Ho] Hp Hget.
  destruct (miss_shape env r st Hp Hget) as (tg & ss & evs & res & -> & _ & Hshape).
  cbn [fst].
  assert (Hss : ∀ t s, (scripts st ++ ss) !! t = Some s →
            scripts st !! t = Some s
            ∨ (s_doc s = doc_of r ∧ s_src s = url r
               ∧ ∀ a, s_onload s = Some a ∨ s_onreadystatechange s = Some a
                      → a = length (heap st))).
  { intros t s Hts. apply lookup_app_Some in Hts as [Hts|[_ Hts]]; [by left|right].
    destruct Hshape as [(_ & -> & _)|(s0 & _ & -> & Hd & Hs & Ha & _)]; [done|].
    apply list_lookup_singleton_Some in Hts as [_ <-]. done. }
  split.
  - intros d u a. rewrite getCacheObject_bind. cbn [_requestCache heap].
    intros [(_ & _ & ->)|[_ Hold]]%getCacheObject_alloc_cases;
      rewrite length_app; simpl; [lia|].
    apply Hb in Hold. lia.
  - intros d u d' u' a. rewrite !getCacheObject_bind. cbn [_requestCache].
    intros [(-> & -> & ->)|[_ H1]]%getCacheObject_alloc_cases
           [(-> & -> & H2)|[_ H2]]%getCacheObject_alloc_cases; try done.
    + apply Hb in H2. lia.
    + apply Hb in H1. lia.
    + by eapply Hi.
  - intros t s a Hts Ha. cbn [heap scripts] in *. rewrite length_app. simpl.
    destruct (Hss t s Hts) as [Hold|(_ & _ & Hnew)].
    + pose proof (Hh t s a Hold Ha). lia.
    + rewrite (Hnew a Ha). lia.
  - intros t s Hts. cbn [scripts] in Hts.
    destruct (Hss t s Hts) as [Hold|(Hd & Hs & _)].
    + destruct (Ho t s Hold) as [a Ha].
      destruct (decide ((s_doc s, s_src s) = (doc_of r, url r))) as [Heq|Hne].
      * injection Heq as Hd Hs. rewrite Hd, Hs in Ha. congruence.
      * exists a. rewrite getCacheObject_bind. cbn [_requestCache].
        rewrite <- getCacheObject_bind. by rewrite getCacheObject_alloc_ne.
    + rewrite Hd, Hs. exists (length (heap st)).
      rewrite getCacheObject_bind. cbn [_requestCache].
      rewrite <- getCacheObject_bind. apply getCacheObject_alloc.
Qed.

Lemma quiet_call env r st :
  (passes env r = false ∨ ∃ f, getCacheObject (doc_of r) (url r) st = Some f) →
  quiet st (loadExternalScript env r st).1.
Proof.
  intros [Hp|[f Hf]]; [by apply quiet_rejected|].
  destruct (passes env r) eqn:Hp; [|by apply quiet_rejected].
  destruct f as [a|]; [by eapply quiet_hit_call | by apply quiet_inherited].
Qed.

Lemma wf_exec env act st : wf st → wf (exec env act st).1.
Proof.
  intros Hwf. destruct act as [r|t|t s].
  - simpl. destruct (loadExternalScript env r st) as [st' res] eqn:Hcall.
    change st' with (st', res).1. rewrite <- Hcall.
    destruct (call_cases env r st) as [Hp|[[Hp [a Hhit]]|[[Hp Hinh]|[Hp Hmiss]]]].
    + eapply wf_quiet; [done|]. apply quiet_call. by left.
    + eapply wf_quiet; [done|]. apply quiet_call. right. eauto.
    + eapply wf_quiet; [done|]. apply quiet_call. right. eauto.
    + by apply wf_miss.
  - eapply wf_quiet; [done|]. by apply (exec_event_quiet env (ActLoad t)).
  - eapply wf_quiet; [done|]. by apply (exec_event_quiet env (ActReadyState t s)).
Qed.

Lemma wf_run env acts : ∀ st, wf st → wf (run env acts st).1.
Proof.
  induction acts as [|act acts IH]; intros st Hwf; [done|].
  rewrite run_fst_cons. apply IH. by apply wf_exec.
Qed.

Lemma wf_reachable env st : reachable env st → wf st.
Proof. intros [acts <-]. apply wf_run, wf_initial. Qed.

(** * C7: rejected calls, returned handles *)

Lemma live_quiet st st' : live st → quiet st st' → live st'.
Proof.
  intros Hl Hq d u a. rewrite (quiet_getCacheObject st st') by done.
  rewrite (q_tag _ _ Hq). apply Hl.
Qed.

Lemma live_miss env r st :
  wf st → live st →
  createElement_throws env (doc_of r) = false →
  passes env r = true →
  getCacheObject (doc_of r) (url r) st = None →
  live (loadExternalScript env r st).1.
Proof.
  intros Hwf Hl Hc Hp Hget.
  destruct (miss_shape env r st Hp Hget) as (tg & ss & evs & res & -> & _ & Hshape).
  cbn [fst]. intros d u a. rewrite getCacheObject_bind. cbn [_requestCache].
  unfold deref. cbn [heap].
  intros [(_ & _ & ->)|[_ Hold]]%getCacheObject_alloc_cases.
  - rewrite lookup_snoc. simpl.
    destruct Hshape as [(_ & _ & _ & _ & Hthrow & _)|(s & -> & _)]; [congruence|eauto].
  - rewrite lookup_app_l by by eapply wf_bound. by eapply Hl.
Qed.

Lemma live_exec env act st :
  (∀ d, createElement_throws env d = false) →
  wf st → live st → live (exec env act st).1.
Proof.
  intros Hc Hwf Hl. destruct act as [r|t|t s].
  - simpl. destruct (loadExternalScript env r st) as [st' res] eqn:Hcall.
    change st' with (st', res).1. rewrite <- Hcall.
    destruct (call_cases env r st) as [Hp|[[Hp [a Hhit]]|[[Hp Hinh]|[Hp Hmiss]]]].
    + eapply live_quiet; [done|]. apply quiet_call. by left.
    + eapply live_quiet; [done|]. apply quiet_call. right. eauto.
    + eapply live_quiet; [done|]. apply quiet_call. right. eauto.
    + by apply live_miss.
  - eapply live_quiet; [done|]. by apply (exec_event_quiet env (ActLoad t)).
  - eapply live_quiet; [done|]. by apply (exec_event_quiet env (ActReadyState t s)).
Qed.

(** Where the element factory does not throw, every reachable state is
    [live]. *)
Lemma live_reachable env st :
  (∀ d, createElement_throws env d = false) → reachable env st → live st.
Proof.
  intros Hc [acts <-].
  assert (H : ∀ st0, wf st0 → live st0 → live (run env acts st0).1).
  { induction acts as [|act acts IH]; intros st0 Hwf Hl; [done|].
    rewrite run_fst_cons. apply IH; [by apply wf_exec | by apply live_exec]. }
  apply H; [apply wf_initial|]. intros d u a. done.
Qed.

(** C7, as stated, fails in its last sentence: a call that passes the
    three checks, made when the entry is loaded with a callback that
    throws, returns no handle. *)
Lemma C7_passing_call_without_handle :
  let r1 := req "lib.js" "outstream" CbAbsent (Some 3) None in
  let r2 := req "lib.js" "id5" (CbFunction cb_bad) (Some 3) None in
  let st := (run env_legacy [ActCall r1; ActReadyState 0 "complete"] initial).1 in
  passes env_legacy r2 = true
  ∧ loaded (deref 0 st) = true
  ∧ (loadExternalScript env_legacy r2 st).2 = Throw (ExnCallback cb_bad)
  ∧ ∀ v, (loadExternalScript env_legacy r2 st).2 ≠ Return v.
Proof. vm_compute. repeat split; done. Qed.

(** C7 (amended): a call that fails validation, the policy gate or the
    allow-list returns nothing and changes no part of the state but the
    log, and a later approved call for the same url, the lookup finding
    nothing for it, starts a fresh load.  A call that passes the three
    checks, for a url whose lookup does not end at an inherited property
    of the document's map, returns an element, also while the load is
    pending, when the loader's DOM calls do not throw; the one exception
    is a call on a loaded entry whose own callback throws, which
    propagates that exception. *)
Theorem C7_rejection_leaves_no_trace env r st :
  (passes env r = false →
     loadExternalScript env r st = (add_log (rejection_events env r) st, Return Undefined)
     ∧ ∀ r', passes env r' = true →
             doc_of r' = doc_of r → url r' = url r →
             getCacheObject (doc_of r) (url r) st = None →
             constructs env (doc_of r') (attributes r') = true →
             loadExternalScript env r' (loadExternalScript env r st).1
             = (load_state env r' (add_log (rejection_events env r) st),
                Return (Element (length (scripts st)))))
  ∧ (passes env r = true →
     live st →
     constructs env (doc_of r) (attributes r) = true →
     getCacheObject (doc_of r) (url r) st ≠ Some Inherited →
     ((∃ t, (loadExternalScript env r st).2 = Return (Element t))
      ∨ ∃ a c, getCacheObject (doc_of r) (url r) st = Some (Entry a)
               ∧ loaded (deref a st) = true
               ∧ callback_arg r = CbFunction c ∧ cb_throws c = true
               ∧ (loadExternalScript env r st).2 = Throw (ExnCallback c))
     ∧ ((∀ a, getCacheObject (doc_of r) (url r) st = Some (Entry a) → loaded (deref a st) = false) →
        ∃ t, (loadExternalScript env r st).2 = Return (Element t))).
Proof.
  split.
  - intros Hp. split; [by apply loadExternalScript_rejected|].
    intros r' Hp' Hd Hu Hget Hc.
    rewrite (loadExternalScript_rejected env r st Hp). cbn [fst].
    rewrite loadExternalScript_miss_ok; try done.
    by rewrite Hd, Hu.
  - intros Hp Hl Hc Hown.
    destruct (getCacheObject (doc_of r) (url r) st) as [[a|]|] eqn:Hget; [|done|].
    + destruct (Hl _ _ _ Hget) as [t Ht].
      rewrite (loadExternalScript_hit env r st a) by done.
      unfold hit. rewrite deref_add_log. unfold tag_value. rewrite Ht.
      destruct (callback_arg r) as [| |c] eqn:Hcb; simpl;
        try (split; [left|intros _]; by exists t).
      destruct (loaded (deref a st)) eqn:Hld; simpl.
      * destruct (cb_throws c) eqn:Hthrow.
        -- split; [right; by exists a, c|].
           intros Hpend. specialize (Hpend a eq_refl). congruence.
        -- split; [left|intros _]; by exists t.
      * split; [left|intros _]; by exists t.
    + rewrite loadExternalScript_miss_ok by done. simpl.
      split; [left|intros _]; by eexists.
Qed.

Lemma C7_rejection_leaves_no_trace_witness :
  let r := req "foo.js" "not-approved" (CbFunction cb1) None None in
  let r' := req "foo.js" "debugging" (CbFunction cb1) None None in
  loadExternalScript env_plain r initial
  = (add_log [EvIsActivityAllowed "rtd" "not-approved";
              EvLogError "not-approved not whitelisted for loading external JavaScript"]
       initial, Return Undefined)
  ∧ (loadExternalScript env_plain r' (loadExternalScript env_plain r initial).1).2
    = Return (Element 0)
  ∧ ∃ t, (loadExternalScript env_plain r' initial).2 = Return (Element t).
Proof.
  intros r r'.
  destruct (C7_rejection_leaves_no_trace env_plain r initial) as [H _].
  destruct (H eq_refl) as [H1 H2]. split; [exact H1|].
  split; [rewrite (H2 r'); reflexivity|].
  destruct (C7_rejection_leaves_no_trace env_plain r' initial) as [_ H'].
  assert (Hlive : live initial) by (intros d u a Ha; discriminate Ha).
  assert (Hown : getCacheObject (doc_of r') (url r') initial ≠ Some Inherited)
    by discriminate.
  destruct (H' eq_refl Hlive eq_refl Hown) as [_ H3].
  apply H3. intros a Ha. discriminate Ha.
Defined.

(** * C8: attributes *)

Lemma call_ignores_attributes env r st x :
  (passes env r = false ∨ ∃ f, getCacheObject (doc_of r) (url r) st = Some f) →
  loadExternalScript env (set_attributes x r) st = loadExternalScript env r st.
Proof.
  intros [Hp|[f Hget]].
  - rewrite (loadExternalScript_rejected env r st Hp).
    by rewrite (loadExternalScript_rejected env (set_attributes x r) st).
  - destruct (passes env r) eqn:Hp.
    + destruct f as [a|].
      * rewrite (loadExternalScript_hit env r st a) by done.
        by rewrite (loadExternalScript_hit env (set_attributes x r) st a).
      * rewrite (loadExternalScript_inherited env r st) by done.
        by rewrite (loadExternalScript_inherited env (set_attributes x r) st).
    + rewrite (loadExternalScript_rejected env r st Hp).
      by rewrite (loadExternalScript_rejected env (set_attributes x r) st).
Qed.

Lemma addresses_call doc u r :
  addresses doc u (ActCall r) = true → doc_of r = doc ∧ url r = u.
Proof. simpl. rewrite andb_true_iff, !bool_decide_eq_true. tauto. Qed.

Lemma exec_addresses_quiet env doc u a act st :
  getCacheObject doc u st = Some (Entry a) →
  addresses doc u act = true →
  quiet st (exec env act st).1.
Proof.
  intros Hget Hact. destruct act as [r|t|t s].
  - apply addresses_call in Hact as [<- <-]. simpl.
    pose proof (quiet_call env r st (or_intror (ex_intro _ (Entry a) Hget))).
    by destruct (loadExternalScript env r st).
  - by apply (exec_event_quiet env (ActLoad t)).
  - by apply (exec_event_quiet env (ActReadyState t s)).
Qed.

Lemma run_addresses_quiet env doc u a acts : ∀ st,
  getCacheObject doc u st = Some (Entry a) →
  Forall (λ act, addresses doc u act = true) acts →
  quiet st (run env acts st).1.
Proof.
  induction acts as [|act acts IH]; intros st Hget Hacts; [apply quiet_refl|].
  apply Forall_cons in Hacts as [Hact Hacts].
  rewrite run_fst_cons.
  pose proof (exec_addresses_quiet env doc u a act st Hget Hact) as Hq.
  eapply quiet_trans; [exact Hq|]. apply IH; [|done].
  by rewrite (quiet_getCacheObject st).
Qed.

Lemma run_reattribute env doc u f acts : ∀ st a,
  getCacheObject doc u st = Some (Entry a) →
  Forall (λ act, addresses doc u act = true) acts →
  run env (reattribute f <$> acts) st = run env acts st.
Proof.
  induction acts as [|act acts IH]; intros st a Hget Hacts; [done|].
  apply Forall_cons in Hacts as [Hact Hacts].
  rewrite fmap_cons, !run_cons.
  assert (Hexec : exec env (reattribute f act) st = exec env act st).
  { destruct act as [r|t|t s]; try done.
    apply addresses_call in Hact as [<- <-].
    simpl. rewrite (call_ignores_attributes env r st); [done|]. right.
    by exists (Entry a). }
  rewrite Hexec.
  pose proof (exec_addresses_quiet env doc u a act st Hget Hact) as Hq.
  destruct (exec env act st) as [st1 o]. simpl in Hq.
  rewrite (IH st1 a); [done| |done].
  by rewrite (quiet_getCacheObject st st1).
Qed.

(** C8: the attributes of the entry-creating request are applied to its
    element once, by that request.  Whatever attributes the later calls
    for the same (context, url) carry, the entry pending or loaded, the
    calls passing the checks or not: no attribute is set again, the
    element keeps the first request's attributes, and the run is the
    same, state and results, as with any other attributes on the later
    calls. *)
Theorem C8_first_request_attributes_only env r acts st st' results :
  getCacheObject (doc_of r) (url r) st = None →
  passes env r = true →
  constructs env (doc_of r) (attributes r) = true →
  Forall (λ act, addresses (doc_of r) (url r) act = true) acts →
  run env (ActCall r :: acts) st = (st', results) →
  let t := length (scripts st) in
  (∃ evs, log st' = log st ++ evs
          ∧ attribute_sets evs = match attributes r with
                                 | Some a => [(t, a)]
                                 | None => []
                                 end)
  ∧ s_attrs <$> scripts st' !! t = Some (default [] (attributes r))
  ∧ ∀ f, run env (ActCall r :: (reattribute f <$> acts)) st = (st', results).
Proof.
  intros Hget Hp Hc Hacts Hrun. cbv zeta.
  destruct (load_state_entry env r st) as [Hg Ho].
  assert (Hrest : ∃ later, run env acts (load_state env r st) = (st', later)
                           ∧ results = Return (Element (length (scripts st))) :: later).
  { rewrite run_cons in Hrun. cbn [exec] in Hrun.
    rewrite loadExternalScript_miss_ok in Hrun by done.
    destruct (run env acts (load_state env r st)) as [st2 later].
    injection Hrun as <- <-. by exists later. }
  destruct Hrest as (later & Hrest & ->).
  pose proof (run_addresses_quiet env _ _ _ acts _ Hg Hacts) as Hq.
  rewrite Hrest in Hq. cbn [fst] in Hq.
  destruct (load_events_dom r (length (scripts st))) as (_ & _ & Hat).
  repeat split.
  - destruct Hq as [_ _ _ _ _ _ (evs' & ql & Hsil)].
    exists (load_events r (length (scripts st)) ++ evs'). split.
    + rewrite ql. unfold load_state. cbn [log]. by rewrite <- app_assoc.
    + rewrite attribute_sets_app, Hat, (silent_attribute_sets evs') by done.
      by rewrite app_nil_r.
  - pose proof (q_static _ _ Hq (length (scripts st))) as Hx.
    unfold load_state in Hx. cbn [scripts] in Hx. rewrite lookup_snoc in Hx.
    destruct (scripts st' !! length (scripts st)) as [s|]; [|done].
    simpl in *. injection Hx as _ _ Ha _ _. by rewrite Ha.
  - intros f. rewrite run_cons. cbn [exec].
    rewrite loadExternalScript_miss_ok by done.
    rewrite (run_reattribute env (doc_of r) (url r) f acts _ _ Hg Hacts).
    by rewrite Hrest.
Qed.

Lemma C8_first_request_attributes_only_witness :
  let r1 := req "foo.js" "debugging" CbAbsent None (Some [("crossorigin", "anonymous")]%string) in
  let r2 := req "foo.js" "optable" CbAbsent None (Some [("id", "late")]%string) in
  let r3 := req "foo.js" "not-approved" CbAbsent None (Some [("id", "x")]%string) in
  let st' := (run env_plain [ActCall r1; ActCall r2; ActLoad 0; ActCall r3; ActCall r2]
                initial).1 in
  s_attrs <$> scripts st' !! 0 = Some [("crossorigin", "anonymous")]%string.
Proof.
  intros r1 r2 r3 st'.
  destruct (C8_first_request_attributes_only env_plain r1
              [ActCall r2; ActLoad 0; ActCall r3; ActCall r2] initial st'
              (run env_plain [ActCall r1; ActCall r2; ActLoad 0; ActCall r3; ActCall r2]
                 initial).2)
    as (_ & H & _).
  - reflexivity.
  - reflexivity.
  - reflexivity.
  - repeat constructor.
  - reflexivity.
  - exact H.
Defined.

(** * C9: contexts *)











(** An event at the element [t]: nothing happens, or the handler the
    loader left at [t] runs on the cache object it holds. *)
Lemma event_at_element env t st act :
  act = ActLoad t ∨ (∃ rs, act = ActReadyState t rs) →
  let st' := (exec env act st).1 in
  (heap st' = heap st ∧ log st' = log st)
  ∨ ∃ s a, scripts st !! t = Some s ∧ s_inserted s = true
           ∧ (s_onload s = Some a ∨ s_onreadystatechange s = Some a)
           ∧ heap st' = <[a := set_loaded (deref a st)]> (heap st)
           ∧ log st' = log st ++ drain_events (callbacks (deref a st)).
Proof.
  cbv zeta. intros [->|[rs ->]]; simpl.
  - unfold is_inserted. destruct (scripts st !! t) as [s|] eqn:Hs; simpl; [|by left].
    destruct (s_inserted s) eqn:Hins; [|by left]. simpl.
    rewrite dispatch_load_eq, Hs. simpl.
    destruct (onload_of s) as [a|] eqn:Hh; [|by left].
    apply onload_of_Some in Hh.
    right. exists s, a. rewrite onComplete_eq. simpl. auto.
  - unfold is_inserted. destruct (scripts st !! t) as [s|] eqn:Hs; simpl; [|by left].
    destruct (s_inserted s) eqn:Hins; [|by left]. simpl.
    rewrite dispatch_readystatechange_eq, Hs. simpl.
    destruct (onreadystatechange_of s) as [a|] eqn:Hh; [|by left].
    apply onreadystatechange_of_Some in Hh.
    destruct (is_done rs); [|by left].
    right. exists s, a. rewrite onComplete_eq. simpl. auto.
Qed.




(** * C10: a loader that throws *)

Lemma reached_subseteq cbs c : c ∈ reached cbs → c ∈ cbs.
Proof.
  induction cbs as [|x cbs IH]; [done|]. simpl.
  intros [->|H]%elem_of_cons; [left|right].
  destruct (cb_throws x); [by apply elem_of_nil in H | by apply IH].
Qed.

(** What an event of the browser does: nothing to the heap and the log,
    or one run of the completion handler of an inserted element. *)
Lemma exec_event_shape env act st :
  is_call act = false →
  let st' := (exec env act st).1 in
  quiet st st'
  ∧ ((heap st' = heap st ∧ log st' = log st)
     ∨ ∃ a t s, scripts st !! t = Some s ∧ s_inserted s = true
                ∧ (s_onload s = Some a ∨ s_onreadystatechange s = Some a)
                ∧ heap st' = <[a := set_loaded (deref a st)]> (heap st)
                ∧ log st' = log st ++ drain_events (callbacks (deref a st))).
Proof.
  intros Hev. cbv zeta. split; [by apply exec_event_quiet|].
  destruct act as [r|t|t rs]; [done| |].
  - destruct (event_at_element env t st (ActLoad t)) as [H|(s & a & H)];
      [by left | by left | right; by exists a, t, s].
  - destruct (event_at_element env t st (ActReadyState t rs)) as [H|(s & a & H)];
      [right; by exists rs | by left | right; by exists a, t, s].
Qed.

Lemma dead_ext doc u a c q st st' :
  _requestCache st' = _requestCache st →
  heap st' = heap st →
  scripts st' = scripts st →
  dead doc u a c q st → dead doc u a c q st'.
Proof.
  intros Hc Hh Hs [He Ho Hsig Hf Hp]. split.
  - by apply (getCacheObject_cache _ _ st).
  - by rewrite Hh.
  - by rewrite Hs.
  - by rewrite Hs.
  - intros a'. unfold deref. rewrite Hh. apply Hp.
Qed.

Lemma dead_in_heap doc u a c q st : dead doc u a c q st → a < length (heap st).
Proof. intros [_ (o & Ho & _) _ _ _]. by eapply lookup_lt_Some. Qed.

Lemma callbacks_after_insert a' o' a'' st :
  (a' = a'' → callbacks o' = callbacks (deref a' st)) →
  callbacks (default no_object (<[a' := o']> (heap st) !! a''))
  = callbacks (deref a'' st).
Proof.
  intros Hsame. unfold deref.
  destruct (decide (a' = a'')) as [<-|Hne].
  - destruct (decide (a' < length (heap st))) as [Hlt|Hge].
    + rewrite list_lookup_insert_eq by done. simpl. by apply Hsame.
    + by rewrite list_insert_ge by lia.
  - by rewrite list_lookup_insert_ne.
Qed.

Lemma dead_event env doc u a c q act st :
  is_call act = false →
  dead doc u a c q st →
  dead doc u a c q (exec env act st).1
  ∧ ∃ evs, log (exec env act st).1 = log st ++ evs ∧ c ∉ invocations evs.
Proof.
  intros Hev Hdead.
  destruct (exec_event_shape env act st Hev) as [Hq Hshape].
  pose proof Hdead as [He (o & Ho & Hl & Hcb) Hsig Hf Hp].
  assert (Hheap : (heap (exec env act st).1 !! a = heap st !! a)
                  ∧ (∀ a'', callbacks (deref a'' (exec env act st).1)
                            = callbacks (deref a'' st))
                  ∧ ∃ evs, log (exec env act st).1 = log st ++ evs ∧ c ∉ invocations evs).
  { destruct Hshape as [[Hh Hlog]|(a' & t & s & Hs & Hins & Hha & Hh & Hlog)].
    - split; [by rewrite Hh|]. split; [intros a''; unfold deref; by rewrite Hh|].
      exists []. split; [by rewrite app_nil_r|]. apply not_elem_of_nil.
    - assert (Hne : a' ≠ a).
      { intros ->. specialize (Hsig t s Hs Hha). congruence. }
      split; [rewrite Hh; by apply list_lookup_insert_ne|].
      split.
      + intros a''. unfold deref at 1. rewrite Hh. by apply callbacks_after_insert.
      + eexists. split; [exact Hlog|]. rewrite invocations_drain.
        intros Hin%reached_subseteq. by apply (Hp a'). }
  destruct Hheap as (Hha & Hcbs & Hlog). split; [|done].
  split.
  - by rewrite (quiet_getCacheObject st).
  - exists o. by rewrite Hha.
  - intros t s' Hs' Hh'.
    destruct (quiet_script _ _ t s' Hq Hs') as (s & Hs & Hst & Hrs).
    unfold static in Hst. injection Hst as _ _ _ Hins Hon.
    rewrite <- Hins. apply (Hsig t s Hs).
    destruct Hh' as [Hh'|Hh']; [left; congruence | right; by apply Hrs].
  - intros t s' Hs' Hd Hsrc.
    destruct (quiet_script _ _ t s' Hq Hs') as (s & Hs & Hst & _).
    unfold static in Hst. injection Hst as Hd' Hsrc' _ Hins _.
    rewrite <- Hins. apply (Hf t s Hs); congruence.
  - intros a'' Hne. rewrite Hcbs. by apply Hp.
Qed.

Lemma joined_call env doc u r :
  joined env doc u (ActCall r)
  = if passes env r && bool_decide (doc_of r = doc) && bool_decide (url r = u)
    then queued r else [].
Proof. done. Qed.

Lemma joined_other env doc u r :
  (doc_of r, url r) ≠ (doc, u) → joined env doc u (ActCall r) = [].
Proof.
  intros Hne. rewrite joined_call.
  destruct (decide (doc_of r = doc)) as [Hd|Hd].
  - assert (url r ≠ u) by congruence.
    rewrite (bool_decide_eq_false_2 (url r = u)) by done.
    by rewrite andb_false_r.
  - rewrite (bool_decide_eq_false_2 (doc_of r = doc)) by done.
    by rewrite andb_false_r.
Qed.

Lemma in_queued c r : c ∈ queued r → callback_arg r = CbFunction c.
Proof.
  unfold queued. destruct (callback_arg r) as [| |c']; try by intros ?%elem_of_nil.
  by intros ->%list_elem_of_singleton.
Qed.

Lemma dead_call env doc u a c q r st :
  wf st →
  private_to doc u c (ActCall r) →
  dead doc u a c q st →
  dead doc u a c (q ++ joined env doc u (ActCall r)) (loadExternalScript env r st).1
  ∧ ∃ evs, log (loadExternalScript env r st).1 = log st ++ evs ∧ c ∉ invocations evs.
Proof.
  intros Hwf Hpriv Hdead. simpl in Hpriv.
  pose proof Hdead as [He (o & Ho & Hl & Hcb) Hsig Hf Hp].
  pose proof (dead_in_heap _ _ _ _ _ _ Hdead) as Hlt.
  destruct (call_cases env r st) as [Hrej|[[Hpass [a0 Hhit]]|[[Hpass Hinh]|[Hpass Hmiss]]]];
    cycle 2.
  - (* an inherited value: nothing is queued *)
    assert (Hne : (doc_of r, url r) ≠ (doc, u)).
    { intros Heq. injection Heq as Hd Hu. rewrite Hd, Hu in Hinh. congruence. }
    rewrite joined_other by done. rewrite app_nil_r.
    rewrite loadExternalScript_inherited by done. cbn [fst].
    split; [by apply (dead_ext doc u a c q st)|].
    exists [gate_event r]. split; [done|]. apply not_elem_of_nil.
  - (* miss: another entry is created *)
    assert (Hne : (doc_of r, url r) ≠ (doc, u)).
    { intros Heq. injection Heq as Hd Hu. rewrite Hd, Hu in Hmiss. congruence. }
    rewrite joined_other by done. rewrite app_nil_r.
    destruct (miss_shape env r st Hpass Hmiss) as (tg & ss & evs & res & -> & Hinv & Hshape).
    cbn [fst]. split.
    + assert (Hss : ∀ t s, (scripts st ++ ss) !! t = Some s →
                scripts st !! t = Some s
                ∨ (s_doc s = doc_of r ∧ s_src s = url r
                   ∧ ∀ a', s_onload s = Some a' ∨ s_onreadystatechange s = Some a'
                           → a' = length (heap st))).
      { intros t s Hts. apply lookup_app_Some in Hts as [Hts|[_ Hts]]; [by left|right].
        destruct Hshape as [(_ & -> & _)|(s0 & _ & -> & Hd & Hs & Ha & _)]; [done|].
        apply list_lookup_singleton_Some in Hts as [_ <-]. done. }
      split.
      * apply getCacheObject_bind. cbn [_requestCache]. apply getCacheObject_bind.
        apply getCacheObject_alloc_ne; [congruence|done].
      * exists o. cbn [heap]. by rewrite lookup_app_l.
      * intros t s Hts Hh. cbn [scripts] in Hts.
        destruct (Hss t s Hts) as [Hold|(_ & _ & Hnew)]; [by eapply Hsig|].
        specialize (Hnew a Hh). lia.
      * intros t s Hts Hd Hs. cbn [scripts] in Hts.
        destruct (Hss t s Hts) as [Hold|(Hd' & Hs' & _)]; [by eapply Hf|].
        congruence.
      * intros a' Hne'. unfold deref. cbn [heap].
        destruct (decide (a' < length (heap st))) as [Hlt'|Hge'].
        -- rewrite lookup_app_l by done. by apply Hp.
        -- destruct (decide (a' = length (heap st))) as [->|Hne''].
           ++ rewrite lookup_snoc. simpl. intros Hin%in_queued.
              destruct (Hpriv Hin). congruence.
           ++ rewrite lookup_ge_None_2; [apply not_elem_of_nil|].
              rewrite length_app. simpl. lia.
    + exists evs. split; [done|]. rewrite Hinv. apply not_elem_of_nil.
  - (* rejected *)
    rewrite loadExternalScript_rejected by done. cbn [fst].
    rewrite joined_call, Hrej. simpl. rewrite app_nil_r.
    split; [by apply (dead_ext doc u a c q st)|].
    exists (rejection_events env r). split; [done|].
    unfold rejection_events.
    destruct (negb (isActivityAllowed _ _ _)); [apply not_elem_of_nil|].
    destruct (negb (valid r)); apply not_elem_of_nil.
  - (* hit *)
    rewrite (loadExternalScript_hit env r st a0) by done.
    destruct (decide ((doc_of r, url r) = (doc, u))) as [Heq|Hne].
    + (* the dead entry itself: the callback is queued *)
      injection Heq as Hd Hu. rewrite Hd, Hu in Hhit.
      assert (a0 = a) as -> by congruence.
      rewrite (hit_pending a r _ o) by done. cbn [fst].
      rewrite joined_call, Hpass, Hd, Hu, !bool_decide_eq_true_2 by done. simpl.
      split.
      * split; try done.
        -- by apply (getCacheObject_cache _ _ st).
        -- eexists. split; [by apply list_lookup_insert_eq|]. rewrite <- Hcb. done.
        -- intros a' Hne'. unfold deref, upd_heap, add_log; simpl.
           rewrite list_lookup_insert_ne by done. by apply Hp.
      * exists [gate_event r]. split; [done|]. apply not_elem_of_nil.
    + (* another entry *)
      rewrite joined_other by done. rewrite app_nil_r.
      assert (Hne0 : a0 ≠ a).
      { intros ->. destruct (wf_inj st Hwf _ _ _ _ _ Hhit He). congruence. }
      assert (Hc' : ∀ c', callback_arg r = CbFunction c' → c' ≠ c).
      { intros c' Hc' ->. destruct (Hpriv Hc'). congruence. }
      unfold hit. rewrite deref_add_log.
      destruct (callback_arg r) as [| |c'] eqn:Hcbarg.
      * split; [by apply (dead_ext doc u a c q st)|].
        exists [gate_event r]. split; [done|]. apply not_elem_of_nil.
      * split; [by apply (dead_ext doc u a c q st)|].
        exists [gate_event r]. split; [done|]. apply not_elem_of_nil.
      * specialize (Hc' c' eq_refl).
        destruct (loaded (deref a0 st)); cbn [fst].
        -- split; [by apply (dead_ext doc u a c q st)|].
           exists [gate_event r; EvCallback c']. split.
           ++ unfold add_log; simpl. by rewrite <- app_assoc.
           ++ simpl. by intros ->%list_elem_of_singleton.
        -- split.
           ++ split; try done.
              ** by apply (getCacheObject_cache _ _ st).
              ** exists o. split; [|done]. unfold upd_heap, add_log; simpl.
                 rewrite list_lookup_insert_ne by done. done.
              ** intros a' Hne'. unfold deref at 1, upd_heap, add_log; simpl.
                 destruct (decide (a0 = a')) as [<-|Hne''].
                 --- destruct (decide (a0 < length (heap st))) as [Hlt0|Hge0].
                     +++ rewrite list_lookup_insert_eq by done. simpl.
                         intros [Hin| ->%list_elem_of_singleton]%elem_of_app; [|done].
                         by apply (Hp a0).
                     +++ rewrite list_insert_ge by lia. by apply Hp.
                 --- rewrite list_lookup_insert_ne by done. by apply Hp.
           ++ exists [gate_event r]. split; [done|]. apply not_elem_of_nil.
Qed.

Lemma dead_exec env doc u a c q act st :
  wf st →
  private_to doc u c act →
  dead doc u a c q st →
  dead doc u a c (q ++ joined env doc u act) (exec env act st).1
  ∧ ∃ evs, log (exec env act st).1 = log st ++ evs ∧ c ∉ invocations evs.
Proof.
  intros Hwf Hpriv Hdead. destruct act as [r|t|t s].
  - pose proof (dead_call env doc u a c q r st Hwf Hpriv Hdead) as H.
    simpl. by destruct (loadExternalScript env r st).
  - rewrite app_nil_r. by apply dead_event.
  - rewrite app_nil_r. by apply dead_event.
Qed.

Lemma dead_run env doc u a c acts : ∀ q st,
  wf st →
  Forall (private_to doc u c) acts →
  dead doc u a c q st →
  dead doc u a c (q ++ (acts ≫= joined env doc u)) (run env acts st).1
  ∧ ∃ evs, log (run env acts st).1 = log st ++ evs ∧ c ∉ invocations evs.
Proof.
  induction acts as [|act acts IH]; intros q st Hwf Hacts Hdead.
  - simpl. rewrite app_nil_r. split; [done|].
    exists []. split; [by rewrite app_nil_r | apply not_elem_of_nil].
  - apply Forall_cons in Hacts as [Hact Hacts].
    rewrite run_fst_cons.
    destruct (dead_exec env doc u a c q act st Hwf Hact Hdead)
      as (Hdead1 & evs1 & Hlog1 & Hc1).
    destruct (IH _ _ (wf_exec env act st Hwf) Hacts Hdead1)
      as (Hdead2 & evs2 & Hlog2 & Hc2).
    split.
    + cbn [mbind list_bind]. by rewrite app_assoc.
    + exists (evs1 ++ evs2). split.
      * by rewrite Hlog2, Hlog1, app_assoc.
      * rewrite invocations_app. by intros [?|?]%elem_of_app.
Qed.

(** The state right after an entry-creating call whose loader threw. *)
Lemma dead_after_failed_load env r c st :
  wf st →
  getCacheObject (doc_of r) (url r) st = None →
  passes env r = true →
  constructs env (doc_of r) (attributes r) = false →
  (∀ a, c ∉ callbacks (deref a st)) →
  (∃ e, (loadExternalScript env r st).2 = Throw e)
  ∧ dead (doc_of r) (url r) (length (heap st)) c (queued r) (loadExternalScript env r st).1.
Proof.
  intros Hwf Hmiss Hp Hc Hfresh.
  destruct (miss_shape env r st Hp Hmiss) as (tg & ss & evs & res & -> & Hinv & Hshape).
  cbn [fst snd].
  assert (Hres : (∃ e, res = Throw e)
                 ∧ ∀ t s, (scripts st ++ ss) !! t = Some s →
                     scripts st !! t = Some s ∨ s_inserted s = false).
  { destruct Hshape as [(_ & -> & -> & _)|(s0 & _ & -> & _ & _ & _ & Hcase)].
    - split; [by eexists|]. intros t s. rewrite app_nil_r. by left.
    - destruct Hcase as [(_ & _ & Hok)|(Hins & _ & Hthrow & _)]; [congruence|].
      split; [done|]. intros t s [Hts|[_ Hts]]%lookup_app_Some; [by left|right].
      by apply list_lookup_singleton_Some in Hts as [_ <-]. }
  destruct Hres as [Hthrow Hss]. split; [done|]. split.
  - apply getCacheObject_bind. cbn [_requestCache]. apply getCacheObject_bind.
    apply getCacheObject_alloc.
  - eexists. cbn [heap]. split; [apply lookup_snoc|done].
  - intros t s Hts Hh. cbn [scripts] in Hts.
    destruct (Hss t s Hts) as [Hold|Hnew]; [|done].
    pose proof (wf_handler st Hwf t s _ Hold Hh). lia.
  - intros t s Hts Hd Hs. cbn [scripts] in Hts.
    destruct (Hss t s Hts) as [Hold|Hnew]; [|done].
    destruct (wf_owner st Hwf t s Hold) as [a Ha]. rewrite Hd, Hs in Ha. congruence.
  - intros a' Hne. unfold deref. cbn [heap].
    destruct (decide (a' < length (heap st))) as [Hlt|Hge].
    + rewrite lookup_app_l by done. apply Hfresh.
    + rewrite lookup_ge_None_2; [apply not_elem_of_nil|].
      rewrite length_app. simpl. lia.
Qed.

(** C10: when the loader throws in the entry-creating call (the element
    factory, the attributes or the insertion), the call throws and the
    entry it made stays in the registry, pending, with its queued
    callback.  Whatever happens afterwards (calls for this or any other
    entry, events of the browser): the entry stays pending at the same
    cache object, each later call for this (context, url) that passes the
    checks adds its callback to the queue, no element of this document
    and url is ever inserted, and a callback handed only to calls for
    this entry is never invoked. *)
Theorem C10_failed_load_leaves_dead_entry env r acts c st :
  wf st →
  getCacheObject (doc_of r) (url r) st = None →
  passes env r = true →
  constructs env (doc_of r) (attributes r) = false →
  (∀ a, c ∉ callbacks (deref a st)) →
  Forall (private_to (doc_of r) (url r) c) acts →
  let a := length (heap st) in
  let st1 := (loadExternalScript env r st).1 in
  let st' := (run env acts st1).1 in
  (∃ e, (loadExternalScript env r st).2 = Throw e)
  ∧ getCacheObject (doc_of r) (url r) st1 = Some (Entry a)
  ∧ loaded (deref a st1) = false
  ∧ callbacks (deref a st1) = queued r
  ∧ getCacheObject (doc_of r) (url r) st' = Some (Entry a)
  ∧ loaded (deref a st') = false
  ∧ callbacks (deref a st') = queued r ++ (acts ≫= joined env (doc_of r) (url r))
  ∧ (∀ t s, scripts st' !! t = Some s →
            s_doc s = doc_of r → s_src s = url r → s_inserted s = false)
  ∧ ∃ evs, log st' = log st1 ++ evs ∧ c ∉ invocations evs.
Proof.
  intros Hwf Hmiss Hp Hc Hfresh Hacts. cbv zeta.
  destruct (dead_after_failed_load env r c st Hwf Hmiss Hp Hc Hfresh) as [Hthrow Hdead1].
  assert (Hwf1 : wf (loadExternalScript env r st).1) by by apply wf_miss.
  destruct (dead_run env _ _ _ c acts _ _ Hwf1 Hacts Hdead1) as [Hdead2 Hlog].
  destruct Hdead1 as [He1 (o1 & Ho1 & Hl1 & Hcb1) _ _ _].
  destruct Hdead2 as [He2 (o2 & Ho2 & Hl2 & Hcb2) _ Hf2 _].
  unfold deref. rewrite Ho1, Ho2. simpl.
  repeat split; done.
Qed.

Lemma C10_failed_load_leaves_dead_entry_witness :
  let r := req "foo.js" "debugging" (CbFunction cb1) None None in
  let r2 := req "foo.js" "optable" (CbFunction cb2) None None in
  let st1 := (loadExternalScript env_broken r initial).1 in
  callbacks (deref 0 (run env_broken [ActCall r2; ActLoad 0; ActCall r2] st1).1)
  = [cb1; cb2; cb2].
Proof.
  intros r r2 st1.
  pose proof (C10_failed_load_leaves_dead_entry env_broken r
                [ActCall r2; ActLoad 0; ActCall r2] cb2 initial wf_initial) as H.
  destruct H as (_ & _ & _ & _ & _ & _ & H & _).
  - reflexivity.
  - reflexivity.
  - reflexivity.
  - intros a. apply not_elem_of_nil.
  - repeat constructor.
  - exact H.
Defined.

(** * What holds of every run of the loader *)

Lemma grows_refl o : grows o o.
Proof. by repeat split. Qed.

Lemma grows_trans o1 o2 o3 : grows o1 o2 → grows o2 o3 → grows o1 o3.
Proof.
  intros (l1 & t1 & p1) (l2 & t2 & p2). split; [|split; [congruence|by etrans]].
  intros H. destruct (l1 H) as [H1 Hc1]. destruct (l2 H1) as [H2 Hc2].
  split; [done|congruence].
Qed.

Lemma extends_refl st : extends st st.
Proof.
  split; eauto using grows_refl.
Qed.

Lemma extends_trans st1 st2 st3 : extends st1 st2 → extends st2 st3 → extends st1 st3.
Proof.
  intros [c1 h1 s1 l1] [c2 h2 s2 l2]. split.
  - eauto.
  - intros a o Ho. destruct (h1 a o Ho) as (o' & Ho' & Hg).
    destruct (h2 a o' Ho') as (o'' & Ho'' & Hg'). exists o''. split; [done|].
    by eapply grows_trans.
  - intros t s Hs. destruct (s1 t s Hs) as (s' & Hs' & Hst).
    destruct (s2 t s' Hs') as (s'' & Hs'' & Hst'). exists s''. split; [done|]. congruence.
  - by etrans.
Qed.

(** A step that creates nothing and whose cache objects grow. *)
Lemma extends_quiet st st' :
  quiet st st' →
  (∀ a o, heap st !! a = Some o → ∃ o', heap st' !! a = Some o' ∧ grows o o') →
  extends st st'.
Proof.
  intros Hq Hh. split; [| done | |].
  - intros d u a Ha. by apply (quiet_getCacheObject st st').
  - intros t s Hs. pose proof (q_static _ _ Hq t) as Hx. rewrite Hs in Hx.
    destruct (scripts st' !! t) as [s'|]; [|done]. exists s'. split; [done|].
    simpl in Hx. congruence.
  - destruct (q_log _ _ Hq) as (evs & -> & _). by apply prefix_app_r.
Qed.

Lemma grows_insert (f : cacheObject → cacheObject) a st :
  grows (deref a st) (f (deref a st)) →
  ∀ b o, heap st !! b = Some o →
    ∃ o', <[a := f (deref a st)]> (heap st) !! b = Some o' ∧ grows o o'.
Proof.
  intros Hf b o Ho. destruct (decide (a = b)) as [->|Hne].
  - exists (f o). unfold deref in *. rewrite Ho in *. simpl in *. split; [|done].
    apply list_lookup_insert_eq. by eapply lookup_lt_Some.
  - exists o. split; [|apply grows_refl]. by rewrite list_lookup_insert_ne.
Qed.

Lemma grows_push c o : loaded o = false → grows o (push c o).
Proof.
  intros Hl. split; [by rewrite Hl|]. split; [done|]. simpl. by apply prefix_app_r.
Qed.

Lemma grows_set_loaded o : grows o (set_loaded o).
Proof. by repeat split. Qed.

Lemma extends_call env r st : extends st (loadExternalScript env r st).1.
Proof.
  destruct (call_cases env r st) as [Hp|[[Hp [a Hhit]]|[[Hp Hinh]|[Hp Hmiss]]]];
    [| |apply extends_quiet; [by apply quiet_inherited|];
        rewrite loadExternalScript_inherited by done; eauto using grows_refl|].
  - apply extends_quiet; [by apply quiet_rejected|].
    rewrite loadExternalScript_rejected by done. eauto using grows_refl.
  - apply extends_quiet; [by eapply quiet_hit_call|].
    rewrite (loadExternalScript_hit env r st a) by done.
    unfold hit. rewrite deref_add_log.
    destruct (callback_arg r) as [| |c]; eauto using grows_refl.
    destruct (loaded (deref a st)) eqn:Hld; eauto using grows_refl.
    cbn [fst]. apply (grows_insert (push c) a (add_log [gate_event r] st)).
    by apply grows_push.
  - destruct (miss_shape env r st Hp Hmiss) as (tg & ss & evs & res & -> & _).
    cbn [fst]. split.
    + intros d u a Ha. apply getCacheObject_bind. cbn [_requestCache].
      apply getCacheObject_bind. apply getCacheObject_alloc_ne; [|done].
      intros Heq. injection Heq as -> ->. congruence.
    + intros a o Ho. exists o. split; [|apply grows_refl]. cbn [heap].
      rewrite lookup_app_l; [done|]. by eapply lookup_lt_Some.
    + intros t s Hs. exists s. split; [|done]. cbn [scripts].
      rewrite lookup_app_l; [done|]. by eapply lookup_lt_Some.
    + cbn [log]. by apply prefix_app_r.
Qed.

Lemma extends_event env act st : is_call act = false → extends st (exec env act st).1.
Proof.
  intros Hev. destruct (exec_event_shape env act st Hev) as [Hq Hshape].
  apply extends_quiet; [done|].
  destruct Hshape as [[Hh _]|(a & t & s & _ & _ & _ & Hh & _)]; rewrite Hh.
  - eauto using grows_refl.
  - apply (grows_insert set_loaded a st), grows_set_loaded.
Qed.

Lemma extends_exec env act st : extends st (exec env act st).1.
Proof.
  destruct act as [r|t|t s].
  - pose proof (extends_call env r st) as H. simpl.
    by destruct (loadExternalScript env r st).
  - by apply extends_event.
  - by apply extends_event.
Qed.

(** X1: nothing is ever undone.  Over any run of calls and events, in any
    environment: a registry entry stays where it is, a loaded cache
    object stays loaded and its queue is frozen, the tag of a cache
    object is never reassigned, queues and the log are only extended,
    elements keep what their construction gave them. *)
Theorem entries_are_never_undone env acts st : extends st (run env acts st).1.
Proof.
  revert st. induction acts as [|act acts IH]; intros st; [apply extends_refl|].
  rewrite run_fst_cons. eapply extends_trans; [apply extends_exec | apply IH].
Qed.

Lemma linked_initial : linked initial.
Proof. split; intros *; unfold deref, initial; simpl; done. Qed.

Lemma static_eq s s' :
  static s = static s' →
  s_doc s = s_doc s' ∧ s_src s = s_src s' ∧ s_inserted s = s_inserted s'
  ∧ s_onload s = s_onload s'.
Proof. unfold static. intros [= -> -> _ -> ->]. done. Qed.

Lemma quiet_script_fwd st st' t s :
  quiet st st' → scripts st !! t = Some s →
  ∃ s', scripts st' !! t = Some s' ∧ static s' = static s.
Proof.
  intros Hq Hs. pose proof (q_static _ _ Hq t) as Hx. rewrite Hs in Hx.
  destruct (scripts st' !! t) as [s'|]; [|done]. exists s'. split; [done|].
  simpl in Hx. congruence.
Qed.

(** A step that creates nothing keeps the link, provided it marks loaded
    only a cache object held by the handler of an inserted element. *)
Lemma linked_quiet st st' :
  quiet st st' →
  (∀ a, loaded (deref a st') = true →
        loaded (deref a st) = true
        ∨ ∃ t s, scripts st !! t = Some s ∧ s_inserted s = true
                 ∧ (s_onload s = Some a ∨ s_onreadystatechange s = Some a)) →
  linked st → linked st'.
Proof.
  intros Hq Hl [Hs Ht Hld]. split.
  - intros t s' Hs'. destruct (quiet_script st st' t s' Hq Hs') as (s & Hst & Hstat & Hh).
    destruct (Hs t s Hst) as (a & Ha & Htag & Hown).
    destruct (static_eq _ _ Hstat) as (Hd & Hsrc & _ & Hol).
    exists a. rewrite <- Hd, <- Hsrc.
    split; [by apply (quiet_getCacheObject st st')|]. split; [by rewrite (q_tag _ _ Hq)|].
    intros a' [H|H]; apply Hown; [left; congruence | right; auto].
  - intros a t Htag. rewrite (q_tag _ _ Hq) in Htag.
    destruct (Ht a t Htag) as (s & Hst & Ha).
    destruct (quiet_script_fwd st st' t s Hq Hst) as (s' & Hs' & Hstat).
    destruct (static_eq _ _ Hstat) as (Hd & Hsrc & _).
    exists s'. split; [done|]. rewrite Hd, Hsrc. by apply (quiet_getCacheObject st st').
  - intros a Ha.
    assert (∃ t s, tag (deref a st) = Some t ∧ scripts st !! t = Some s
                   ∧ s_inserted s = true) as (t & s & Htag & Hst & Hins).
    { destruct (Hl a Ha) as [H|(t & s & Hst & Hins & Hh)]; [by apply Hld|].
      destruct (Hs t s Hst) as (a0 & _ & Htag & Hown).
      rewrite <- (Hown a Hh) in Htag. eauto. }
    destruct (quiet_script_fwd st st' t s Hq Hst) as (s' & Hs' & Hstat).
    destruct (static_eq _ _ Hstat) as (_ & _ & Hi & _).
    exists t, s'. rewrite (q_tag _ _ Hq). split; [done|]. split; [done|]. congruence.
Qed.

Lemma deref_snoc_old a o st c l s lg :
  heap st !! a = Some o → deref a (State c (heap st ++ l) s lg) = deref a st.
Proof.
  intros Ho. unfold deref. cbn [heap]. rewrite lookup_app_l; [done|].
  by eapply lookup_lt_Some.
Qed.

Lemma tag_heap a t st : tag (deref a st) = Some t → is_Some (heap st !! a).
Proof. unfold deref. by destruct (heap st !! a). Qed.

Lemma loaded_heap a st : loaded (deref a st) = true → is_Some (heap st !! a).
Proof. unfold deref. by destruct (heap st !! a). Qed.

Lemma linked_miss env r st :
  passes env r = true →
  getCacheObject (doc_of r) (url r) st = None →
  linked st → linked (loadExternalScript env r st).1.
Proof.
  intros Hp Hmiss [Hs Ht Hld].
  destruct (miss_shape env r st Hp Hmiss) as (tg & ss & evs & res & -> & _ & Hshape).
  cbn [fst].
  set (st' := State _ _ _ _).
  assert (Hold : ∀ d u a, getCacheObject d u st = Some (Entry a) → getCacheObject d u st' = Some (Entry a)).
  { intros d u a Ha. apply getCacheObject_bind. unfold st'. cbn [_requestCache].
    apply getCacheObject_bind. apply getCacheObject_alloc_ne; [|done].
    intros [= -> ->]. congruence. }
  assert (Hnew : getCacheObject (doc_of r) (url r) st' = Some (Entry (length (heap st)))).
  { apply getCacheObject_bind. unfold st'. cbn [_requestCache].
    apply getCacheObject_bind. apply getCacheObject_alloc. }
  assert (Hderef : ∀ a o, heap st !! a = Some o → deref a st' = deref a st).
  { intros a o Ho. by eapply deref_snoc_old. }
  assert (Hlast : deref (length (heap st)) st' = CacheObject false tg (queued r)).
  { unfold deref, st'. cbn [heap]. by rewrite lookup_snoc. }
  assert (Hcases : ∀ a, (∃ o, heap st !! a = Some o) ∨ a = length (heap st)
                        ∨ deref a st' = no_object).
  { intros a. destruct (heap st !! a) as [o|] eqn:Ho; [eauto|]. right.
    apply lookup_ge_None in Ho.
    destruct (decide (a = length (heap st))) as [|Hne]; [by left|right].
    unfold deref, st'. cbn [heap]. rewrite lookup_ge_None_2; [done|].
    rewrite length_app. simpl. lia. }
  split.
  - intros t s Hst. unfold st' in Hst. cbn [scripts] in Hst.
    apply lookup_app_Some in Hst as [Hst|[Hge Hst]].
    + destruct (Hs t s Hst) as (a & Ha & Htag & Hown). exists a.
      split; [by apply Hold|]. split; [|done].
      destruct (tag_heap _ _ _ Htag) as [o Ho]. by rewrite (Hderef a o).
    + destruct Hshape as [(_ & -> & _)|(s0 & -> & -> & Hd & Hsrc & Hown & _)]; [done|].
      apply list_lookup_singleton_Some in Hst as [Hz <-].
      exists (length (heap st)). rewrite Hd, Hsrc, Hlast. split; [done|].
      split; [|done]. simpl. f_equal. lia.
  - intros a t Htag. destruct (Hcases a) as [[o Ho]|[->|Hno]].
    + rewrite (Hderef a o Ho) in Htag. destruct (Ht a t Htag) as (s & Hst & Ha).
      exists s. split; [|by apply Hold]. unfold st'. cbn [scripts].
      rewrite lookup_app_l; [done|]. by eapply lookup_lt_Some.
    + rewrite Hlast in Htag. simpl in Htag. subst tg.
      destruct Hshape as [(? & _)|(s0 & [= ->] & -> & Hd & Hsrc & _)]; [done|].
      exists s0. rewrite Hd, Hsrc. split; [|done]. unfold st'. cbn [scripts].
      apply lookup_snoc.
    + by rewrite Hno in Htag.
  - intros a Ha. destruct (Hcases a) as [[o Ho]|[->|Hno]].
    + rewrite (Hderef a o Ho) in Ha |- *. destruct (Hld a Ha) as (t & s & Htag & Hst & Hi).
      exists t, s. split; [done|]. split; [|done]. unfold st'. cbn [scripts].
      rewrite lookup_app_l; [done|]. by eapply lookup_lt_Some.
    + by rewrite Hlast in Ha.
    + by rewrite Hno in Ha.
Qed.

Lemma loaded_insert_ne (f : cacheObject → cacheObject) a b st c s lg :
  (∀ o, loaded (f o) = loaded o) →
  loaded (deref b (State c (<[a := f (deref a st)]> (heap st)) s lg)) = loaded (deref b st).
Proof.
  intros Hf. unfold deref. cbn [heap].
  destruct (decide (a = b)) as [->|Hne].
  - destruct (heap st !! b) as [o|] eqn:Ho.
    + rewrite list_lookup_insert_eq by (by eapply lookup_lt_Some). simpl. apply Hf.
    + rewrite list_insert_ge by (by apply lookup_ge_None). by rewrite Ho.
  - by rewrite list_lookup_insert_ne.
Qed.

Lemma linked_call env r st : linked st → linked (loadExternalScript env r st).1.
Proof.
  intros Hl.
  destruct (call_cases env r st) as [Hp|[[Hp [a Hhit]]|[[Hp Hinh]|[Hp Hmiss]]]];
    [| |apply (linked_quiet st); [by apply quiet_inherited| |done];
        rewrite loadExternalScript_inherited by done; auto|].
  - apply (linked_quiet st); [by apply quiet_rejected| |done].
    rewrite loadExternalScript_rejected by done. auto.
  - apply (linked_quiet st); [by eapply quiet_hit_call| |done].
    rewrite (loadExternalScript_hit env r st a) by done.
    unfold hit. rewrite deref_add_log.
    destruct (callback_arg r) as [| |c]; [auto..|].
    destruct (loaded (deref a st)); [auto|].
    intros b Hb. left. cbn [fst] in Hb. unfold upd_heap, add_log in Hb. cbn in Hb.
    by rewrite (loaded_insert_ne (push c) a b st) in Hb.
  - by apply linked_miss.
Qed.

Lemma linked_event env act st :
  is_call act = false → linked st → linked (exec env act st).1.
Proof.
  intros Hev Hl. destruct (exec_event_shape env act st Hev) as [Hq Hshape].
  apply (linked_quiet st); [done| |done].
  intros b Hb. destruct Hshape as [[Hh _]|(a & t & s & Hst & Hi & Hh & Hheap & _)].
  - left. unfold deref in *. by rewrite Hh in Hb.
  - destruct (decide (a = b)) as [<-|Hne]; [right; eauto|left].
    unfold deref in *. by rewrite Hheap, list_lookup_insert_ne in Hb.
Qed.

Lemma linked_exec env act st : linked st → linked (exec env act st).1.
Proof.
  intros Hl. destruct act as [r|t|t s].
  - pose proof (linked_call env r st Hl) as H. simpl.
    by destruct (loadExternalScript env r st).
  - by apply linked_event.
  - by apply linked_event.
Qed.

Lemma linked_run env acts : ∀ st, linked st → linked (run env acts st).1.
Proof.
  induction acts as [|act acts IH]; intros st Hl; [done|].
  rewrite run_fst_cons. by apply IH, linked_exec.
Qed.

Lemma linked_reachable env st : reachable env st → linked st.
Proof. intros [acts <-]. apply linked_run, linked_initial. Qed.

(** X2: each url is loaded at most once.  In every state the loader can
    reach, whatever the environment does (DOM calls that throw, callbacks
    that throw, events in any order), two script elements of one
    document, neither with a [src] among its attributes, have different
    sources.  (An attribute named [src] replaces the source the loader
    assigned, and the statement is not made of such elements.) *)
Theorem one_element_per_url env st t t' s s' :
  reachable env st →
  scripts st !! t = Some s →
  scripts st !! t' = Some s' →
  attribute "src" (s_attrs s) = None →
  attribute "src" (s_attrs s') = None →
  t ≠ t' →
  s_doc s = s_doc s' →
  src_of s ≠ src_of s'.
Proof.
  intros Hr Hs Hs' Hat Hat' Hne Hd Hu. pose proof (linked_reachable env st Hr) as Hl.
  unfold src_of in Hu. rewrite Hat, Hat' in Hu. simpl in Hu.
  destruct (lk_script st Hl t s Hs) as (a & Ha & Htag & _).
  destruct (lk_script st Hl t' s' Hs') as (a' & Ha' & Htag' & _).
  rewrite Hd, Hu in Ha. congruence.
Qed.

Lemma initial_no_callbacks c a : c ∉ callbacks (deref a initial).
Proof. unfold deref, initial. simpl. apply not_elem_of_nil. Qed.

Lemma one_element_per_url_witness :
  let r1 := req "foo.js" "debugging" (CbFunction cb1) None
              (Some [("crossorigin", "anonymous")]%string) in
  let r2 := req "bar.js" "optable" (CbFunction cb2) None None in
  let st := (run env_plain [ActCall r1; ActCall r2; ActCall r1] initial).1 in
  ∃ s s', scripts st !! 0 = Some s ∧ scripts st !! 1 = Some s' ∧ src_of s ≠ src_of s'.
Proof.
  intros r1 r2 st. eexists _, _. split; [reflexivity|]. split; [reflexivity|].
  eapply (one_element_per_url env_plain st 0 1);
    [by eexists | reflexivity | reflexivity | reflexivity | reflexivity
    | discriminate | reflexivity].
Defined.

(** X3: in every reachable state, the handle an entry holds is the
    element that was created for its document and url: it is of that
    document and its source is the url, unless the attributes of the
    entry-creating request named a [src], which is then the source; and
    an entry is marked loaded only if that element was inserted into the
    document. *)
Theorem loaded_entry_has_inserted_element env st d u a :
  reachable env st →
  getCacheObject d u st = Some (Entry a) →
  (∀ t, tag (deref a st) = Some t →
        ∃ s, scripts st !! t = Some s ∧ s_doc s = d
             ∧ src_of s = default u (attribute "src" (s_attrs s)))
  ∧ (loaded (deref a st) = true →
     ∃ t s, tag (deref a st) = Some t ∧ scripts st !! t = Some s
            ∧ s_doc s = d ∧ src_of s = default u (attribute "src" (s_attrs s))
            ∧ s_inserted s = true).
Proof.
  intros Hr Ha. pose proof (linked_reachable env st Hr) as Hl.
  pose proof (wf_reachable env st Hr) as Hwf.
  assert (Htag : ∀ t, tag (deref a st) = Some t →
                      ∃ s, scripts st !! t = Some s ∧ s_doc s = d
                           ∧ src_of s = default u (attribute "src" (s_attrs s))).
  { intros t Ht. destruct (lk_tag st Hl a t Ht) as (s & Hs & Ha').
    destruct (wf_inj st Hwf _ _ _ _ _ Ha Ha') as [-> ->]. eauto. }
  split; [done|]. intros Hld.
  destruct (lk_loaded st Hl a Hld) as (t & s & Ht & Hs & Hi).
  destruct (Htag t Ht) as (s0 & Hs0 & Hd & Hu).
  assert (s0 = s) as -> by congruence. eauto 10.
Qed.

Lemma loaded_entry_has_inserted_element_witness :
  let r := req "foo.js" "debugging" (CbFunction cb1) None
             (Some [("SRC", "other.js")]%string) in
  let st := (run env_plain [ActCall r; ActLoad 0] initial).1 in
  ∃ t s, tag (deref 0 st) = Some t ∧ scripts st !! t = Some s
         ∧ s_doc s = document
         ∧ src_of s = default "foo.js"%string (attribute "src" (s_attrs s))
         ∧ s_inserted s = true.
Proof.
  intros r st.
  assert (Hr : reachable env_plain st) by by eexists.
  apply (loaded_entry_has_inserted_element env_plain st document "foo.js" 0 Hr);
    reflexivity.
Defined.

Lemma avoids_call doc u tg r :
  avoids doc u tg (ActCall r) = true → (doc_of r, url r) ≠ (doc, u).
Proof.
  simpl. intros H [= Hd Hu]. rewrite !bool_decide_eq_true_2 in H by done. done.
Qed.

Lemma isolated_call env doc u a r st :
  wf st →
  getCacheObject doc u st = Some (Entry a) →
  avoids doc u (tag (deref a st)) (ActCall r) = true →
  same_at doc u a st (loadExternalScript env r st).1.
Proof.
  intros Hwf Ha Hav. apply avoids_call in Hav.
  destruct (call_cases env r st) as [Hp|[[Hp [a' Hhit]]|[[Hp Hinh]|[Hp Hmiss]]]];
    [| |rewrite loadExternalScript_inherited by done; by repeat split|].
  - rewrite loadExternalScript_rejected by done. by repeat split.
  - assert (a' ≠ a) as Hne.
    { intros ->. destruct (wf_inj st Hwf _ _ _ _ _ Ha Hhit) as [-> ->]. done. }
    rewrite (loadExternalScript_hit env r st a') by done.
    unfold hit. rewrite deref_add_log.
    destruct (callback_arg r) as [| |c]; [by repeat split..|].
    destruct (loaded (deref a' st)); [by repeat split|].
    repeat split; [by apply (getCacheObject_cache _ _ st)| |done].
    cbn. by rewrite list_lookup_insert_ne.
  - destruct (miss_shape env r st Hp Hmiss) as (tg & ss & evs & res & -> & _).
    cbn [fst]. repeat split.
    + apply getCacheObject_bind. cbn [_requestCache].
      apply getCacheObject_bind. apply getCacheObject_alloc_ne; [|done].
      intros Heq. by apply Hav.
    + cbn [heap]. apply lookup_app_l. by eapply wf_bound.
    + intros t s Hs _ _. cbn [scripts]. rewrite lookup_app_l; [done|].
      by eapply lookup_lt_Some.
Qed.

Lemma same_at_onComplete doc u a a' st0 st :
  a' ≠ a →
  same_at doc u a st0 st →
  same_at doc u a st0 (onComplete a' st).1.
Proof.
  intros Hne (Hc & Hh & Hs). rewrite onComplete_eq. cbn [fst].
  repeat split; [by apply (getCacheObject_cache _ _ st)| |done].
  cbn. by rewrite list_lookup_insert_ne.
Qed.

Lemma isolated_event env doc u a act st :
  linked st →
  getCacheObject doc u st = Some (Entry a) →
  is_call act = false →
  avoids doc u (tag (deref a st)) act = true →
  same_at doc u a st (exec env act st).1.
Proof.
  intros Hl Ha Hev Hav.
  assert (Hrefl : same_at doc u a st st) by by repeat split.
  assert (Hother : ∀ t s a', scripts st !! t = Some s →
            tag (deref a st) ≠ Some t →
            s_onload s = Some a' ∨ s_onreadystatechange s = Some a' → a' ≠ a).
  { intros t s a' Hs Ht Hh ->. destruct (lk_script st Hl t s Hs) as (a0 & _ & Htag & Hown).
    rewrite <- (Hown a Hh) in Htag. done. }
  destruct act as [r|t|t rs]; [done| |]; simpl in Hav;
    apply negb_true_iff, bool_decide_eq_false in Hav; simpl;
    destruct (is_inserted t st); [|done| |done]; cbn [fst].
  - rewrite dispatch_load_eq.
    destruct (scripts st !! t) as [s|] eqn:Hs; [|done]. simpl.
    destruct (onload_of s) as [a'|] eqn:Hol; [|done].
    apply onload_of_Some in Hol.
    apply same_at_onComplete; [|done]. eapply Hother; eauto.
  - rewrite dispatch_readystatechange_eq. cbv zeta.
    assert (Hkeep : ∀ f g, same_at doc u a st
              (upd_scripts (alter f t) (upd_scripts (alter g t) st))
            ∧ same_at doc u a st (upd_scripts (alter g t) st)).
    { intros f g. split; (repeat split; [done..|]); intros t0 s0 Hs0 Hd Hu; cbn;
        (assert (t ≠ t0) as Hne;
          [intros ->; destruct (lk_script st Hl t0 s0 Hs0) as (a0 & Ha0 & Htag & _);
           rewrite Hd, Hu in Ha0; congruence|]);
        by rewrite !list_lookup_alter_ne. }
    destruct (scripts st !! t) as [s|] eqn:Hs; [|apply (Hkeep id)]. simpl.
    destruct (onreadystatechange_of s) as [a'|] eqn:Hor; [|apply (Hkeep id)].
    apply onreadystatechange_of_Some in Hor.
    destruct (is_done rs); [|apply (Hkeep id)].
    apply same_at_onComplete; [|apply Hkeep]. eapply Hother; eauto.
Qed.

Lemma same_at_tag doc u a st st' :
  same_at doc u a st st' → tag (deref a st') = tag (deref a st).
Proof. intros (_ & Hh & _). unfold deref. by rewrite Hh. Qed.

Lemma same_at_trans doc u a st1 st2 st3 :
  same_at doc u a st1 st2 → same_at doc u a st2 st3 → same_at doc u a st1 st3.
Proof.
  intros (c1 & h1 & s1) (c2 & h2 & s2). repeat split; [done|congruence|].
  intros t s Hs Hd Hu. apply s2; auto.
Qed.

Lemma isolated_exec env doc u a act st :
  wf st → linked st →
  getCacheObject doc u st = Some (Entry a) →
  avoids doc u (tag (deref a st)) act = true →
  same_at doc u a st (exec env act st).1.
Proof.
  intros Hwf Hl Ha Hav. destruct act as [r|t|t s].
  - pose proof (isolated_call env doc u a r st Hwf Ha Hav) as H. simpl.
    by destruct (loadExternalScript env r st).
  - by apply isolated_event.
  - by apply isolated_event.
Qed.

Lemma isolated_run env doc u a acts : ∀ st,
  wf st → linked st →
  getCacheObject doc u st = Some (Entry a) →
  Forall (λ act, avoids doc u (tag (deref a st)) act = true) acts →
  same_at doc u a st (run env acts st).1.
Proof.
  induction acts as [|act acts IH]; intros st Hwf Hl Ha Hall; [by repeat split|].
  apply Forall_cons in Hall as [Hact Hall]. rewrite run_fst_cons.
  pose proof (isolated_exec env doc u a act st Hwf Hl Ha Hact) as Hstep.
  eapply (same_at_trans _ _ _ st (exec env act st).1); [done|].
  apply IH; [by apply wf_exec | by apply linked_exec | apply Hstep |].
  by rewrite (same_at_tag doc u a st).
Qed.

(** X4: entries do not interfere.  From a reachable state, a run of calls
    for other documents or urls and of events at other elements leaves an
    entry as it is: the same cache object, with the same flag, handle and
    queue, and the same element. *)
Theorem entries_do_not_interfere env doc u a acts st :
  reachable env st →
  getCacheObject doc u st = Some (Entry a) →
  Forall (λ act, avoids doc u (tag (deref a st)) act = true) acts →
  let st' := (run env acts st).1 in
  getCacheObject doc u st' = Some (Entry a)
  ∧ heap st' !! a = heap st !! a
  ∧ ∀ t s, scripts st !! t = Some s → s_doc s = doc → s_src s = u →
           scripts st' !! t = Some s.
Proof.
  intros Hr Ha Hall. apply isolated_run; try done.
  - by eapply wf_reachable.
  - by eapply linked_reachable.
Qed.

Lemma entries_do_not_interfere_witness :
  let r1 := req "foo.js" "debugging" (CbFunction cb1) None None in
  let r2 := req "bar.js" "optable" (CbFunction cb2) None None in
  let st := (run env_plain [ActCall r1] initial).1 in
  let st' := (run env_plain [ActCall r2; ActLoad 1; ActCall r2] st).1 in
  heap st' !! 0 = heap st !! 0.
Proof.
  intros r1 r2 st st'.
  assert (Hr : reachable env_plain st) by by eexists.
  apply (entries_do_not_interfere env_plain document "foo.js" 0
           [ActCall r2; ActLoad 1; ActCall r2] st Hr); [reflexivity|].
  repeat constructor.
Defined.

Lemma invocations_rejection env r : invocations (rejection_events env r) = [].
Proof.
  unfold rejection_events. simpl.
  destruct (negb (isActivityAllowed _ _ _)); [done|]. by destruct (negb (valid r)).
Qed.

Lemma not_handed_call env c r st :
  hands env c (ActCall r) = false →
  (∀ a, c ∉ callbacks (deref a st)) →
  (∀ a, c ∉ callbacks (deref a (loadExternalScript env r st).1))
  ∧ ∃ evs, log (loadExternalScript env r st).1 = log st ++ evs ∧ c ∉ invocations evs.
Proof.
  intros Hh Hc. simpl in Hh.
  destruct (call_cases env r st) as [Hp|[[Hp [a Hhit]]|[[Hp Hinh]|[Hp Hmiss]]]];
    [| |rewrite loadExternalScript_inherited by done; split; [done|];
        exists [gate_event r]; split; [done|]; apply not_elem_of_nil|].
  - rewrite loadExternalScript_rejected by done. split; [done|].
    eexists. split; [done|]. rewrite invocations_rejection. apply not_elem_of_nil.
  - rewrite Hp in Hh. simpl in Hh. apply bool_decide_eq_false in Hh.
    rewrite (loadExternalScript_hit env r st a) by done.
    unfold hit. rewrite deref_add_log.
    destruct (callback_arg r) as [| |c'] eqn:Hcb.
    1,2: split; [done|]; exists [gate_event r]; split; [done|]; apply not_elem_of_nil.
    assert (c' ≠ c) as Hne by congruence.
    destruct (loaded (deref a st)).
    + split; [done|]. exists [gate_event r; EvCallback c']. split.
      { cbn. by rewrite <- app_assoc. }
      simpl. by intros ->%list_elem_of_singleton.
    + split.
      * intros b. cbn [fst]. unfold deref at 1. cbn.
        destruct (decide (a = b)) as [<-|Hab].
        -- destruct (heap st !! a) as [o|] eqn:Ho.
           ++ rewrite list_lookup_insert_eq by (by eapply lookup_lt_Some). simpl.
              intros [H|H%list_elem_of_singleton]%elem_of_app; [|done].
              by apply (Hc a).
           ++ rewrite list_insert_ge by (by apply lookup_ge_None). rewrite Ho. simpl.
              apply not_elem_of_nil.
        -- rewrite list_lookup_insert_ne by done. apply Hc.
      * exists [gate_event r]. split; [done|]. apply not_elem_of_nil.
  - rewrite Hp in Hh. simpl in Hh. apply bool_decide_eq_false in Hh.
    destruct (miss_shape env r st Hp Hmiss) as (tg & ss & evs & res & -> & Hinv & _).
    cbn [fst]. split.
    + intros b. unfold deref. cbn [heap].
      destruct (heap st !! b) as [o|] eqn:Ho.
      * rewrite lookup_app_l by (by eapply lookup_lt_Some).
        specialize (Hc b). unfold deref in Hc. by rewrite Ho in Hc |- *.
      * apply lookup_ge_None in Ho.
        destruct (decide (b = length (heap st))) as [->|Hne].
        -- rewrite lookup_snoc. simpl. intros H%in_queued. done.
        -- rewrite lookup_ge_None_2; [apply not_elem_of_nil|].
           rewrite length_app. simpl. lia.
    + exists evs. split; [done|]. rewrite Hinv. apply not_elem_of_nil.
Qed.

Lemma not_handed_event env c act st :
  is_call act = false →
  (∀ a, c ∉ callbacks (deref a st)) →
  (∀ a, c ∉ callbacks (deref a (exec env act st).1))
  ∧ ∃ evs, log (exec env act st).1 = log st ++ evs ∧ c ∉ invocations evs.
Proof.
  intros Hev Hc. destruct (exec_event_shape env act st Hev) as [_ Hshape].
  destruct Hshape as [[Hh Hlog]|(a & t & s & _ & _ & _ & Hh & Hlog)].
  - split.
    + intros b. unfold deref in *. rewrite Hh. apply Hc.
    + exists []. rewrite app_nil_r. split; [done|]. apply not_elem_of_nil.
  - split.
    + intros b. unfold deref at 1. rewrite Hh.
      rewrite (callbacks_after_insert a (set_loaded (deref a st)) b st) by done. apply Hc.
    + eexists. split; [done|]. rewrite invocations_drain.
      intros H%reached_subseteq. by apply (Hc a).
Qed.

Lemma not_handed_exec env c act st :
  hands env c act = false →
  (∀ a, c ∉ callbacks (deref a st)) →
  (∀ a, c ∉ callbacks (deref a (exec env act st).1))
  ∧ ∃ evs, log (exec env act st).1 = log st ++ evs ∧ c ∉ invocations evs.
Proof.
  intros Hh Hc. destruct act as [r|t|t s].
  - pose proof (not_handed_call env c r st Hh Hc) as H. simpl.
    by destruct (loadExternalScript env r st).
  - by apply not_handed_event.
  - by apply not_handed_event.
Qed.

Lemma not_handed_run env c acts : ∀ st,
  (∀ a, c ∉ callbacks (deref a st)) →
  Forall (λ act, hands env c act = false) acts →
  (∀ a, c ∉ callbacks (deref a (run env acts st).1))
  ∧ ∃ evs, log (run env acts st).1 = log st ++ evs ∧ c ∉ invocations evs.
Proof.
  induction acts as [|act acts IH]; intros st Hc Hall.
  - split; [done|]. exists []. rewrite app_nil_r. split; [done|]. apply not_elem_of_nil.
  - apply Forall_cons in Hall as [Hact Hall]. rewrite run_fst_cons.
    destruct (not_handed_exec env c act st Hact Hc) as (Hc1 & evs1 & Hl1 & Hn1).
    destruct (IH _ Hc1 Hall) as (Hc2 & evs2 & Hl2 & Hn2).
    split; [done|]. exists (evs1 ++ evs2). rewrite Hl2, Hl1, <- app_assoc.
    split; [done|]. rewrite invocations_app. by intros [?|?]%elem_of_app.
Qed.

(** X5: the loader runs only callbacks it accepted.  A callback that no
    call passing the three checks hands over, and that is in no queue, is
    never invoked, whatever else happens; in particular a callback handed
    only to rejected calls is dropped: it is neither run nor queued. *)
Theorem rejected_callback_never_runs env c acts st :
  (∀ a, c ∉ callbacks (deref a st)) →
  Forall (λ act, hands env c act = false) acts →
  let st' := (run env acts st).1 in
  (∀ a, c ∉ callbacks (deref a st'))
  ∧ ∃ evs, log st' = log st ++ evs ∧ c ∉ invocations evs.
Proof. apply not_handed_run. Qed.

Lemma rejected_callback_never_runs_witness :
  let r := req "foo.js" "debugging" (CbFunction cb1) None None in
  let r' := req "foo.js" "not-approved" (CbFunction cb2) None None in
  ∃ evs, log (run env_plain [ActCall r; ActCall r'; ActLoad 0; ActCall r'] initial).1
         = log initial ++ evs
         ∧ cb2 ∉ invocations evs.
Proof.
  intros r r'.
  apply (rejected_callback_never_runs env_plain cb2
           [ActCall r; ActCall r'; ActLoad 0; ActCall r'] initial).
  - apply initial_no_callbacks.
  - repeat constructor.
Defined.

(** ** Before the first signal *)

Lemma miss_throws_dom env r st c :
  passes env r = true →
  getCacheObject (doc_of r) (url r) st = None →
  (loadExternalScript env r st).2 ≠ Throw (ExnCallback c).
Proof.
  intros Hp Hmiss. rewrite loadExternalScript_miss, requestResource_eq by done.
  unfold requestResource_nf.
  destruct (createElement_throws env (doc_of r)); [done|].
  destruct (attributes r) as [x|].
  - destruct (setScriptAttributes_throws env (doc_of r) x); [done|].
    by destruct (insertElement_throws env (doc_of r)).
  - by destruct (insertElement_throws env (doc_of r)).
Qed.

Lemma pending_call env r st :
  (∀ a, loaded (deref a st) = false) →
  (∀ a, loaded (deref a (loadExternalScript env r st).1) = false)
  ∧ (∃ evs, log (loadExternalScript env r st).1 = log st ++ evs ∧ invocations evs = [])
  ∧ ∀ c, (loadExternalScript env r st).2 ≠ Throw (ExnCallback c).
Proof.
  intros Hpend.
  destruct (call_cases env r st) as [Hp|[[Hp [a Hhit]]|[[Hp Hinh]|[Hp Hmiss]]]];
    [| |rewrite loadExternalScript_inherited by done; split; [done|];
        split; [by exists [gate_event r]|]; intros c; by destruct (callback_arg r)|].
  - rewrite loadExternalScript_rejected by done. split; [done|]. split; [|done].
    eexists. split; [done|]. apply invocations_rejection.
  - rewrite (loadExternalScript_hit env r st a) by done.
    unfold hit. rewrite deref_add_log, Hpend.
    destruct (callback_arg r) as [| |c].
    1,2: split; [done|]; split; [|done]; by exists [gate_event r].
    split; [|split; [by exists [gate_event r]|done]].
    intros b. cbn [fst]. unfold upd_heap, add_log. cbn.
    by rewrite (loaded_insert_ne (push c) a b st).
  - split; [|split; [|intros c; by apply miss_throws_dom]];
      destruct (miss_shape env r st Hp Hmiss) as (tg & ss & evs & res & -> & Hinv & _);
      cbn [fst]; [|eauto].
    + intros b. unfold deref. cbn [heap].
      destruct (heap st !! b) as [o|] eqn:Ho.
      * rewrite lookup_app_l by (by eapply lookup_lt_Some).
        specialize (Hpend b). unfold deref in Hpend. by rewrite Ho in Hpend |- *.
      * apply lookup_ge_None in Ho.
        destruct (decide (b = length (heap st))) as [->|Hne].
        -- by rewrite lookup_snoc.
        -- rewrite lookup_ge_None_2; [done|]. rewrite length_app. simpl. lia.
Qed.

Lemma calls_alone env acts : ∀ st,
  forallb is_call acts = true →
  (∀ a, loaded (deref a st) = false) →
  let st' := (run env acts st).1 in
  (∀ a, loaded (deref a st') = false)
  ∧ (∃ evs, log st' = log st ++ evs ∧ invocations evs = [])
  ∧ ∀ c, Throw (ExnCallback c) ∉ (run env acts st).2.
Proof.
  induction acts as [|act acts IH]; intros st Hcalls Hpend; cbv zeta.
  - split; [done|]. split; [exists []; by rewrite app_nil_r|].
    intros c. apply not_elem_of_nil.
  - simpl in Hcalls. apply andb_true_iff in Hcalls as [Hact Hcalls].
    destruct act as [r| |]; [|done..].
    destruct (pending_call env r st Hpend) as (Hp1 & (evs1 & Hl1 & Hi1) & Hres1).
    rewrite run_cons. simpl.
    destruct (loadExternalScript env r st) as [st1 res1]. cbn [fst snd] in *.
    destruct (IH st1 Hcalls Hp1) as (Hp2 & (evs2 & Hl2 & Hi2) & Hres2). cbv zeta in *.
    destruct (run env acts st1) as [st2 rs]. cbn [fst snd] in *.
    split; [done|]. split.
    + exists (evs1 ++ evs2). rewrite Hl2, Hl1, <- app_assoc. split; [done|].
      by rewrite invocations_app, Hi1, Hi2.
    + intros c [Heq|H]%elem_of_cons; [by apply (Hres1 c)|by apply (Hres2 c)].
Qed.

(** X6: no callback runs before the browser's first signal.  While no
    cache object is loaded, calls alone, however many and for whatever
    urls, invoke no callback and mark nothing loaded, and none of them
    ends with a callback's exception: what a call can throw then is the
    exception of a DOM call or the [TypeError] of a hit on an inherited
    property. *)
Theorem calls_alone_invoke_nothing env acts st :
  forallb is_call acts = true →
  (∀ a, loaded (deref a st) = false) →
  let st' := (run env acts st).1 in
  (∀ a, loaded (deref a st') = false)
  ∧ (∃ evs, log st' = log st ++ evs ∧ invocations evs = [])
  ∧ (∀ c, Throw (ExnCallback c) ∉ (run env acts st).2)
  ∧ ∀ e, Throw e ∈ (run env acts st).2 →
         e = ExnTypeError ∨ (∃ d, e = ExnCreateElement d)
         ∨ (∃ t, e = ExnSetScriptAttributes t) ∨ (∃ t, e = ExnInsertElement t).
Proof.
  intros Hcalls Hpend. cbv zeta.
  destruct (calls_alone env acts st Hcalls Hpend) as (H1 & H2 & H3).
  split; [done|]. split; [done|]. split; [done|].
  intros [c|d|t|t|] He; eauto. by apply H3 in He.
Qed.

Lemma calls_alone_invoke_nothing_witness :
  let r := req "foo.js" "debugging" (CbFunction cb1) None None in
  let r' := req "toString" "optable" (CbFunction cb_bad) None None in
  ∃ evs, log (run env_plain [ActCall r; ActCall r'; ActCall r] initial).1 = log initial ++ evs
         ∧ invocations evs = [].
Proof.
  intros r r'.
  apply (calls_alone_invoke_nothing env_plain [ActCall r; ActCall r'; ActCall r] initial).
  - reflexivity.
  - intros a. unfold deref, initial. simpl. reflexivity.
Defined.

Lemma count_app c l1 l2 : count c (l1 ++ l2) = count c l1 + count c l2.
Proof. unfold count. by rewrite filter_app, length_app. Qed.

Lemma count_singleton c c' : count c [c'] = if decide (c' = c) then 1 else 0.
Proof.
  unfold count. destruct (decide (c' = c)) as [->|Hne].
  - by rewrite filter_cons_True.
  - by rewrite filter_cons_False.
Qed.

Lemma count_reached c cbs : count c (reached cbs) ≤ count c cbs.
Proof.
  induction cbs as [|x cbs IH]; [done|]. simpl.
  change (x :: (if cb_throws x then [] else reached cbs))
    with ([x] ++ (if cb_throws x then [] else reached cbs)).
  change (x :: cbs) with ([x] ++ cbs). rewrite !count_app.
  destruct (cb_throws x); [change (count c []) with 0|]; lia.
Qed.

Lemma owed_insert c a o o' st cch scr lg :
  heap st !! a = Some o →
  owed c (State cch (<[a := o']> (heap st)) scr lg) + weight c o = owed c st + weight c o'.
Proof.
  unfold owed. cbn [heap]. generalize (heap st). intros h. revert a.
  induction h as [|x h IH]; intros a Ha; [done|].
  destruct a as [|a]; simpl in *.
  - injection Ha as ->. lia.
  - specialize (IH a Ha). unfold fmap in IH. lia.
Qed.

Lemma owed_snoc c o st cch scr lg :
  owed c (State cch (heap st ++ [o]) scr lg) = owed c st + weight c o.
Proof.
  unfold owed. cbn [heap]. generalize (heap st). intros h.
  induction h as [|x h IH]; simpl; [lia|]. unfold fmap in IH. lia.
Qed.

Lemma owed_heap c st st' : heap st' = heap st → owed c st' = owed c st.
Proof. unfold owed. by intros ->. Qed.

Lemma owed_add_log c evs st : owed c (add_log evs st) = owed c st.
Proof. done. Qed.

Lemma handed_cons env c act acts :
  handed env c (act :: acts)
  = (if hands env c act then 1 else 0) + handed env c acts.
Proof.
  unfold handed. destruct (hands env c act) eqn:Hh.
  - by rewrite filter_cons_True.
  - rewrite filter_cons_False; [done|]. by rewrite Hh.
Qed.

Lemma hands_call env c r :
  passes env r = true →
  (if hands env c (ActCall r) then 1 else 0) = count c (queued r).
Proof.
  intros Hp. simpl. rewrite Hp. simpl. unfold queued.
  destruct (callback_arg r) as [| |c']; [done..|]. rewrite count_singleton.
  case_bool_decide as H; destruct (decide (c' = c)); congruence.
Qed.

Lemma armed_initial : armed initial.
Proof. split; intros *; unfold initial; simpl; done. Qed.

(** The element a cache miss creates has the handler the environment's
    kind of element takes. *)
Lemma miss_scripts env r st t s :
  passes env r = true →
  getCacheObject (doc_of r) (url r) st = None →
  scripts (loadExternalScript env r st).1 !! t = Some s →
  scripts st !! t = Some s
  ∨ s_onload s = (if truthy_opt (newReadyState env (doc_of r)) then None
                  else Some (length (heap st))).
Proof.
  intros Hp Hmiss. rewrite loadExternalScript_miss, requestResource_eq by done.
  unfold requestResource_nf.
  destruct (createElement_throws env (doc_of r)); [by left|].
  assert (Hnew : ∀ evs s0,
    s_onload s0 = s_onload (new_script env (doc_of r) (length (heap st)) (url r)) →
    scripts (created_state env (url r) (url r) (length (heap st)) (doc_of r)
               (alloc_entry r (add_log [gate_event r] st)) s0 evs) !! t = Some s →
    scripts st !! t = Some s
    ∨ s_onload s = (if truthy_opt (newReadyState env (doc_of r)) then None
                    else Some (length (heap st)))).
  { intros evs s0 Hs0. cbn [created_state scripts alloc_entry add_log].
    intros [H|[_ H]]%lookup_app_Some; [by left|right].
    apply list_lookup_singleton_Some in H as [_ <-]. rewrite Hs0. unfold new_script. simpl.
    by destruct (truthy_opt (newReadyState env (doc_of r))). }
  destruct (attributes r) as [x|].
  - destruct (setScriptAttributes_throws env (doc_of r) x); [by apply Hnew|].
    destruct (insertElement_throws env (doc_of r)); by apply Hnew.
  - destruct (insertElement_throws env (doc_of r)); by apply Hnew.
Qed.

Lemma loaded_snoc a st cch o scr lg :
  loaded o = false →
  loaded (deref a st) = false →
  loaded (deref a (State cch (heap st ++ [o]) scr lg)) = false.
Proof.
  intros Ho Ha. unfold deref in *. cbn [heap].
  destruct (heap st !! a) as [x|] eqn:Hx.
  - rewrite lookup_app_l by (by eapply lookup_lt_Some). by rewrite Hx.
  - apply lookup_ge_None in Hx. destruct (decide (a = length (heap st))) as [->|Hne].
    + by rewrite lookup_snoc.
    + rewrite lookup_ge_None_2; [done|]. rewrite length_app. simpl. lia.
Qed.

(** One call: the invariant is kept, and what [c] gains in invocations
    and in the queues is what the call hands over. *)
Lemma once_call env c r st :
  legacy env → armed st →
  armed (loadExternalScript env r st).1
  ∧ ∃ evs, log (loadExternalScript env r st).1 = log st ++ evs
           ∧ count c (invocations evs) + owed c (loadExternalScript env r st).1
             ≤ owed c st + (if hands env c (ActCall r) then 1 else 0).
Proof.
  intros Hleg [Hol Hpend].
  destruct (call_cases env r st) as [Hp|[[Hp [a Hhit]]|[[Hp Hinh]|[Hp Hmiss]]]];
    [| |rewrite loadExternalScript_inherited by done; cbn [fst]; split; [done|];
        exists [gate_event r]; split; [done|]; rewrite owed_add_log;
        change (count c (invocations [gate_event r])) with 0; lia|].
  - rewrite loadExternalScript_rejected by done. cbn [fst]. split; [done|].
    eexists. split; [done|]. rewrite invocations_rejection, owed_add_log.
    change (count c []) with 0. lia.
  - rewrite (hands_call env c r Hp).
    rewrite (loadExternalScript_hit env r st a) by done.
    unfold hit, queued. rewrite deref_add_log.
    destruct (callback_arg r) as [| |c'].
    1,2: cbn [fst]; split; [done|]; exists [gate_event r]; split; [done|];
         rewrite owed_add_log; change (count c (invocations [gate_event r])) with 0; lia.
    destruct (loaded (deref a st)) eqn:Hld.
    + cbn [fst]. split; [done|]. exists [gate_event r; EvCallback c']. split.
      { cbn. by rewrite <- app_assoc. }
      rewrite !owed_add_log. change (invocations [gate_event r; EvCallback c']) with [c'].
      change (queued r) with (queued r). lia.
    + cbn [fst]. split.
      * split; [done|]. intros t s a' Hs Hh. unfold upd_heap, add_log. cbn.
        rewrite (loaded_insert_ne (push c') a a' st) by done. by eapply Hpend.
      * exists [gate_event r]. split; [done|]. unfold upd_heap, add_log.
        cbn [heap _requestCache scripts log].
        change (count c (invocations [gate_event r])) with 0.
        destruct (heap st !! a) as [o|] eqn:Ho.
        -- pose proof (owed_insert c a o (push c' o) st (_requestCache st) (scripts st)
                         (log st ++ [gate_event r]) Ho) as Hsum.
           unfold deref. rewrite Ho. simpl.
           unfold deref in Hld. rewrite Ho in Hld. simpl in Hld.
           unfold weight in Hsum. simpl in Hsum. rewrite Hld, count_app in Hsum. lia.
        -- rewrite list_insert_ge by (by apply lookup_ge_None).
           change (owed c (State _ (heap st) _ _)) with (owed c st). lia.
  - rewrite (hands_call env c r Hp). split.
    + split.
      * intros t s Hs. destruct (miss_scripts env r st t s Hp Hmiss Hs) as [H|H]; [eauto|].
        by rewrite Hleg in H.
      * intros t s a Hs Hh.
        destruct (miss_shape env r st Hp Hmiss) as (tg & ss & evs & res & Heq & _ & Hshape).
        rewrite Heq in Hs |- *. cbn [fst scripts] in Hs |- *.
        apply loaded_snoc; [done|].
        apply lookup_app_Some in Hs as [Hs|[_ Hs]]; [by eapply Hpend|].
        destruct Hshape as [(_ & -> & _)|(s0 & _ & -> & _ & _ & Hown & _)]; [done|].
        apply list_lookup_singleton_Some in Hs as [_ <-].
        rewrite (Hown a) by auto. unfold deref. by rewrite lookup_ge_None_2.
    + destruct (miss_shape env r st Hp Hmiss) as (tg & ss & evs & res & -> & Hinv & _).
      cbn [fst]. exists evs. split; [done|]. rewrite Hinv, owed_snoc.
      unfold weight. simpl. change (count c []) with 0. lia.
Qed.

Lemma armed_scripts st st' :
  heap st' = heap st →
  (∀ t s', scripts st' !! t = Some s' →
     ∃ s, scripts st !! t = Some s ∧ s_onload s' = s_onload s
          ∧ (s_onreadystatechange s' = None
             ∨ s_onreadystatechange s' = s_onreadystatechange s)) →
  armed st → armed st'.
Proof.
  intros Hh Hs [Hol Hpend]. split.
  - intros t s' Hs'. destruct (Hs t s' Hs') as (s & Hst & -> & _). eauto.
  - intros t s' a Hs' Ha. destruct (Hs t s' Hs') as (s & Hst & _ & [H|H]); [congruence|].
    unfold deref. rewrite Hh. eapply Hpend; [done|]. congruence.
Qed.

Lemma lookup_alter_script (f : script → script) t t' (l : list script) s' :
  alter f t l !! t' = Some s' →
  ∃ s, l !! t' = Some s ∧ ((t' ≠ t ∧ s' = s) ∨ (t' = t ∧ s' = f s)).
Proof.
  destruct (decide (t = t')) as [->|Hne].
  - rewrite list_lookup_alter_eq. destruct (l !! t') as [s|]; [|done].
    intros [= <-]. eauto.
  - rewrite list_lookup_alter_ne by done. eauto.
Qed.

Lemma lookup_detached t t' rs (l : list script) s' :
  alter (set_onreadystatechange None) t (alter (set_readyState (Some rs)) t l) !! t'
  = Some s' →
  ∃ s, l !! t' = Some s ∧ s_onload s' = s_onload s
       ∧ ((t' = t ∧ s_onreadystatechange s' = None) ∨ (t' ≠ t ∧ s' = s)).
Proof.
  intros (s1 & Hs1 & H1)%lookup_alter_script.
  apply lookup_alter_script in Hs1 as (s & Hs & H).
  exists s. split; [done|].
  destruct H1 as [[Hne ->]|[-> ->]], H as [[Hne' ->]|[? ->]]; try done; eauto.
Qed.

(** One event of the browser. *)
Lemma once_event env c act st :
  is_call act = false →
  linked st → armed st →
  armed (exec env act st).1
  ∧ ∃ evs, log (exec env act st).1 = log st ++ evs
           ∧ count c (invocations evs) + owed c (exec env act st).1 ≤ owed c st.
Proof.
  intros Hev Hl Har.
  assert (Hsame : armed st ∧ ∃ evs, log st = log st ++ evs
            ∧ count c (invocations evs) + owed c st ≤ owed c st).
  { split; [done|]. exists []. by rewrite app_nil_r. }
  destruct act as [r|t|t rs]; [done| |]; simpl; destruct (is_inserted t st); try done;
    cbn [fst].
  - rewrite dispatch_load_eq. destruct (scripts st !! t) as [s|] eqn:Hs; [|done]. simpl.
    assert (Hnone : onload_of s = None).
    { unfold onload_of. rewrite (ar_onload st Har t s Hs).
      by destruct (attribute "onload" (s_attrs s)). }
    by rewrite Hnone.
  - rewrite dispatch_readystatechange_eq. cbv zeta.
    set (st1 := upd_scripts (alter (set_readyState (Some rs)) t) st).
    assert (Har1 : armed st1).
    { apply (armed_scripts st); [done| |done]. intros t' s' Hs'.
      apply lookup_alter_script in Hs' as (s & Hs & [[_ ->]|[_ ->]]); eauto. }
    assert (Hst1 : armed st1 ∧ ∃ evs, log st1 = log st ++ evs
              ∧ count c (invocations evs) + owed c st1 ≤ owed c st).
    { split; [done|]. exists []. by rewrite app_nil_r. }
    destruct (scripts st !! t) as [s|] eqn:Hs; [|done]. simpl.
    destruct (onreadystatechange_of s) as [a|] eqn:Hh; [|done].
    apply onreadystatechange_of_Some in Hh.
    destruct (is_done rs); [|done].
    rewrite onComplete_eq. cbn [fst].
    set (st2 := upd_scripts (alter (set_onreadystatechange None) t) st1).
    assert (Hd2 : deref a st2 = deref a st) by done. rewrite Hd2.
    assert (Hpend : loaded (deref a st) = false) by by eapply (ar_pending st Har).
    split.
    + split.
      * intros t' s' Hs'. cbn in Hs'.
        apply lookup_detached in Hs' as (s0 & Hs0 & -> & _). by eapply (ar_onload st Har).
      * intros t' s' a' Hs' Ha'. cbn in Hs'.
        apply lookup_detached in Hs' as (s0 & Hs0 & _ & [[_ Hnone]|[Hne ->]]); [congruence|].
        assert (a' ≠ a) as Hna.
        { intros ->.
          destruct (lk_script st Hl t s Hs) as (a0 & _ & Htag & Hown).
          destruct (lk_script st Hl t' s0 Hs0) as (a1 & _ & Htag' & Hown').
          rewrite <- (Hown a) in Htag by auto. rewrite <- (Hown' a) in Htag' by auto.
          congruence. }
        unfold deref, add_log, upd_heap. cbn. rewrite list_lookup_insert_ne by done.
        by eapply (ar_pending st Har).
    + eexists. split; [done|]. rewrite invocations_drain.
      pose proof (count_reached c (callbacks (deref a st))) as Hle.
      unfold add_log, upd_heap. cbn.
      destruct (heap st !! a) as [o|] eqn:Ho.
      * pose proof (owed_insert c a o (set_loaded o) st (_requestCache st)
                      (alter (set_onreadystatechange None) t
                         (alter (set_readyState (Some rs)) t (scripts st)))
                      (log st ++ drain_events (callbacks (deref a st))) Ho) as Hsum.
        unfold deref in Hpend, Hle |- *. rewrite Ho in Hpend, Hle |- *. simpl in *.
        unfold weight in Hsum. simpl in Hsum. rewrite Hpend in Hsum.
        unfold owed in Hsum |- *. cbn [heap] in Hsum. lia.
      * rewrite list_insert_ge by (by apply lookup_ge_None).
        unfold deref. rewrite Ho. simpl. change (count c []) with 0. unfold owed. lia.
Qed.

Lemma once_exec env c act st :
  legacy env → linked st → armed st →
  armed (exec env act st).1
  ∧ ∃ evs, log (exec env act st).1 = log st ++ evs
           ∧ count c (invocations evs) + owed c (exec env act st).1
             ≤ owed c st + (if hands env c act then 1 else 0).
Proof.
  intros Hleg Hl Har. destruct act as [r|t|t s].
  - pose proof (once_call env c r st Hleg Har) as H. simpl in *.
    by destruct (loadExternalScript env r st).
  - destruct (once_event env c (ActLoad t) st eq_refl Hl Har) as (H & evs & H1 & H2).
    split; [done|]. exists evs. split; [done|]. cbn [hands]. lia.
  - destruct (once_event env c (ActReadyState t s) st eq_refl Hl Har) as (H & evs & H1 & H2).
    split; [done|]. exists evs. split; [done|]. cbn [hands]. lia.
Qed.

Lemma once_run env c acts : ∀ st,
  legacy env → linked st → armed st →
  armed (run env acts st).1
  ∧ ∃ evs, log (run env acts st).1 = log st ++ evs
           ∧ count c (invocations evs) + owed c (run env acts st).1
             ≤ owed c st + handed env c acts.
Proof.
  induction acts as [|act acts IH]; intros st Hleg Hl Har.
  - split; [done|]. exists []. rewrite app_nil_r. split; [done|]. simpl.
    unfold handed, count. simpl. lia.
  - rewrite run_fst_cons, handed_cons.
    destruct (once_exec env c act st Hleg Hl Har) as (Har1 & evs1 & Hl1 & Hle1).
    destruct (IH _ Hleg (linked_exec env act st Hl) Har1) as (Har2 & evs2 & Hl2 & Hle2).
    split; [done|]. exists (evs1 ++ evs2). rewrite Hl2, Hl1, <- app_assoc.
    split; [done|]. rewrite invocations_app, count_app. lia.
Qed.

(** X7: on the [onreadystatechange] path nothing runs twice.  Where
    every element carries a [readyState], over any run from the initial
    state, whatever throws and whatever events the browser repeats, a
    callback is invoked at most as often as calls that passed the checks
    handed it over; what is still queued in cache objects that are not
    loaded counts against the same bound. *)
Theorem readystate_path_runs_nothing_twice env c acts :
  legacy env →
  let st' := (run env acts initial).1 in
  count c (invocations (log st')) + owed c st' ≤ handed env c acts.
Proof.
  intros Hleg.
  destruct (once_run env c acts initial Hleg linked_initial armed_initial)
    as (_ & evs & Hlog & Hle).
  cbv zeta. rewrite Hlog. exact Hle.
Qed.

Lemma readystate_path_runs_nothing_twice_witness :
  let r := req "foo.js" "debugging" (CbFunction cb1) None None in
  let acts := [ActCall r; ActReadyState 0 "complete"; ActReadyState 0 "complete";
               ActLoad 0; ActReadyState 0 "loaded"] in
  count cb1 (invocations (log (run env_legacy acts initial).1))
  + owed cb1 (run env_legacy acts initial).1 ≤ handed env_legacy cb1 acts.
Proof.
  intros r acts.
  apply (readystate_path_runs_nothing_twice env_legacy cb1 acts).
  intros d. reflexivity.
Defined.

(** X20: a url that names a property every object inherits is never
    loaded in a document that has a map already.  The lookup of such a
    url, where the map has no key of that name, ends at the inherited
    value; the call passes for a hit: it creates no entry and no element,
    neither invokes nor queues its callback, and returns nothing, or,
    with a function callback, ends in a [TypeError]; the lookup is the
    same afterwards, so every repetition of the call does the same. *)
Theorem inherited_url_loads_nothing env r st u0 a0 :
  passes env r = true →
  getCacheObject (doc_of r) u0 st = Some (Entry a0) →
  url r ∈ Object_prototype →
  entry_of (doc_of r) (url r) st = None →
  let st' := (loadExternalScript env r st).1 in
  loadExternalScript env r st
  = (add_log [gate_event r] st,
     match callback_arg r with
     | CbFunction _ => Throw ExnTypeError
     | _ => Return Undefined
     end)
  ∧ getCacheObject (doc_of r) (url r) st' = Some Inherited
  ∧ loadExternalScript env r st'
    = (add_log [gate_event r] st',
       match callback_arg r with
       | CbFunction _ => Throw ExnTypeError
       | _ => Return Undefined
       end).
Proof.
  intros Hp Hmap Hin Hown. cbv zeta.
  assert (Hinh : getCacheObject (doc_of r) (url r) st = Some Inherited).
  { unfold getCacheObject, entry_of in *.
    destruct (_requestCache st !! doc_of r) as [m|]; [|done].
    rewrite Hown. unfold inherits. by rewrite bool_decide_eq_true_2. }
  rewrite (loadExternalScript_inherited env r st) by done. cbn [fst].
  split; [done|]. split; [done|].
  by rewrite (loadExternalScript_inherited env r (add_log [gate_event r] st)).
Qed.

Lemma inherited_url_loads_nothing_witness :
  let r1 := req "foo.js" "debugging" CbAbsent None None in
  let r2 := req "constructor" "debugging" (CbFunction cb1) None None in
  let r3 := req "toString" "optable" CbAbsent None None in
  (run env_plain [ActCall r1; ActCall r2; ActCall r3] initial).2
  = [Return (Element 0); Throw ExnTypeError; Return Undefined].
Proof.
  intros r1 r2 r3.
  set (st := (run env_plain [ActCall r1] initial).1).
  assert (H2 : loadExternalScript env_plain r2 st
               = (add_log [gate_event r2] st, Throw ExnTypeError)).
  { apply (inherited_url_loads_nothing env_plain r2 st "foo.js" 0);
      [reflexivity | reflexivity | | reflexivity].
    unfold Object_prototype. apply list_elem_of_here. }
  assert (H3 : loadExternalScript env_plain r3 (add_log [gate_event r2] st)
               = (add_log [gate_event r3] (add_log [gate_event r2] st), Return Undefined)).
  { apply (inherited_url_loads_nothing env_plain r3 _ "foo.js" 0);
      [reflexivity | reflexivity | | reflexivity].
    unfold Object_prototype. repeat first [apply list_elem_of_here | apply list_elem_of_further]. }
  change (run env_plain [ActCall r1; ActCall r2; ActCall r3] initial).2
    with (Return (Element 0)
          :: (let '(st2, res2) := loadExternalScript env_plain r2 st in
              let '(st3, res3) := loadExternalScript env_plain r3 st2 in
              [res2; res3])).
  rewrite H2, H3. reflexivity.
Defined.
(** * The Optable RTD module on top of the loader *)

Lemma passes_bundle env u b k :
  truthy b = true →
  passes env (bundle_request u b k) = isActivityAllowed env (MODULE_TYPE_RTD u) MODULE_NAME.
Proof.
  intros Hb. unfold passes, valid, approved. cbn. rewrite Hb.
  by destruct (isActivityAllowed env _ _).
Qed.

Lemma parseConfig_bundle u moduleConfig cfg b :
  parseConfig u moduleConfig = Ok cfg →
  bundleUrl cfg = VString b →
  truthy b = true →
  (startsWith b "http://" || startsWith b "https://" || startsWith b "/") = true
  ∧ (truthy_value (handleRtd cfg) = true → is_function (handleRtd cfg) = true).
Proof.
  unfold parseConfig. intros H Hb Ht.
  destruct (deepAccess u moduleConfig "params.bundleUrl" VNull) as [| | |s| |];
    try (destruct (_ && negb (is_function _)) eqn:Hh in H; [done|];
         injection H as <-; simpl in Hb; discriminate).
  destruct (truthy (trim u s) && _) eqn:Hurl; [done|].
  destruct (_ && negb (is_function _)) eqn:Hh; [done|].
  injection H as <-. simpl in *. injection Hb as <-. rewrite Ht in Hurl. simpl in Hurl.
  split; [by apply negb_false_iff in Hurl|].
  intros Htr. rewrite Htr in Hh. simpl in Hh. by apply negb_false_iff in Hh.
Qed.

Lemma rtd_emit_emit evs1 evs2 pg :
  rtd_emit evs2 (rtd_emit evs1 pg) = rtd_emit (evs1 ++ evs2) pg.
Proof. unfold rtd_emit. simpl. by rewrite <- app_assoc. Qed.

Lemma getBidRequestData_bundle env u req cb moduleConfig pg cfg b :
  parseConfig u moduleConfig = Ok cfg →
  bundleUrl cfg = VString b →
  truthy b = true →
  getBidRequestData env u req cb moduleConfig pg
  = let fn := if truthy_value (handleRtd cfg) then Some (handleRtd cfg) else None in
    let pg1 := add_closure (Closure fn req cb)
                 (rtd_emit [RtdLogMessage "Optable JS bundle URL ";
                            RtdLogMessage "Custom bundle URL found in config: "] pg) in
    let call := loadExternalScript env (bundle_request u b (length (closures pg))) (loader pg) in
    match call.2 with
    | Return _ => (set_loader call.1 pg1, None)
    | Throw e => catch_error cb (ErrLoader e) (set_loader call.1 pg1)
    end.
Proof.
  intros Hcfg Hb Ht. unfold getBidRequestData. rewrite Hcfg, Hb. cbn [truthy_value].
  rewrite Ht. cbn [rtd_emit add_closure loader closures optable rtd_log].
  destruct (loadExternalScript env _ (loader pg)) as [st res]. cbn [fst snd].
  by rewrite rtd_emit_emit.
Qed.

(** X8: [getBidRequestData] contains every failure.  Whatever the
    configuration (a [bundleUrl] that is not a string included), the page
    and the environment, the only exception it can end with is the one
    the auction's own callback throws; and a failure inside it (an
    invalid configuration, an exception out of [loadExternalScript], a
    [push] that throws) is logged and followed by one synchronous call of
    that callback, so that the auction goes on. *)
Theorem getBidRequestData_contains_errors env u req cb moduleConfig pg :
  let pg' := (getBidRequestData env u req cb moduleConfig pg).1 in
  let out := (getBidRequestData env u req cb moduleConfig pg).2 in
  ∃ evs, rtd_log pg' = rtd_log pg ++ evs
    ∧ ((rtd_errors evs = [] ∧ rtd_calls evs = [] ∧ out = None)
       ∨ ∃ msgs e, evs = msgs ++ [RtdLogError e; RtdCallback cb]
           ∧ rtd_errors msgs = [] ∧ rtd_calls msgs = []
           ∧ (∀ c, e ≠ ErrCallback c)
           ∧ out = if cb_throws cb then Some (ErrCallback cb) else None).
Proof.
  cbv zeta.
  unfold getBidRequestData. destruct (parseConfig u moduleConfig) as [cfg|e] eqn:Hcfg.
  - destruct (truthy_value (bundleUrl cfg)).
    + cbn [rtd_emit add_closure loader closures optable rtd_log].
      set (call := match bundleUrl cfg with
                   | VString b => loadExternalScript env _ (loader pg)
                   | _ => loadExternalScript_other u moduleConfig _ (loader pg)
                   end).
      destruct call as [st [v|e]].
      * eexists. cbn. rewrite <- app_assoc. split; [done|]. by left.
      * eexists. cbn. rewrite <- !app_assoc. split; [done|]. right.
        exists [RtdLogMessage "Optable JS bundle URL ";
                RtdLogMessage "Custom bundle URL found in config: "], (ErrLoader e).
        done.
    + cbn [rtd_emit add_closure loader closures optable rtd_log].
      destruct (optable pg) as [|cmd|h].
      1,2: eexists; cbn; rewrite <- app_assoc; split; [done|]; by left.
      destruct (push_throws u h).
      * eexists. cbn. rewrite <- !app_assoc. split; [done|]. right.
        eexists [_; _], (ErrPush h). done.
      * eexists. cbn. rewrite <- !app_assoc. split; [done|]. by left.
  - eexists. split; [done|]. right. exists [], e. repeat split; try done.
    intros c ->. unfold parseConfig in Hcfg.
    repeat match type of Hcfg with
           | (if ?b then _ else _) = _ => destruct b
           end; done.
Qed.

Lemma page0_no_callbacks c a : c ∉ callbacks (deref a (loader page0)).
Proof. unfold deref, page0, initial. simpl. apply not_elem_of_nil. Qed.

Lemma asks_for_plain : asks_for utils_plain "https://cdn.example/bundle.js" 0.
Proof. eexists. split; reflexivity. Qed.

(** X9: an auction the policy gate denies is never resumed.  When the
    gate denies the module, a call of [getBidRequestData] that names a
    bundle returns normally, having neither called its callback nor left
    the closure anywhere: the loader only records the gate query, and in
    no later run of the loader is the closure invoked. *)
Theorem denied_auction_is_never_resumed env u req cb moduleConfig pg b :
  isActivityAllowed env (MODULE_TYPE_RTD u) MODULE_NAME = false →
  asks_for u b moduleConfig →
  truthy b = true →
  let k := length (closures pg) in
  (∀ a, closure_callback k ∉ callbacks (deref a (loader pg))) →
  ∃ pg' evs,
    getBidRequestData env u req cb moduleConfig pg = (pg', None)
    ∧ rtd_log pg' = rtd_log pg ++ evs ∧ rtd_calls evs = []
    ∧ loader pg' = add_log [gate_event (bundle_request u b k)] (loader pg)
    ∧ optable pg' = optable pg
    ∧ ∀ acts, Forall (λ act, hands env (closure_callback k) act = false) acts →
        ∃ evs', log (run env acts (loader pg')).1 = log (loader pg') ++ evs'
                ∧ closure_callback k ∉ invocations evs'.
Proof.
  intros Hgate (cfg & Hcfg & Hb) Ht k Hfresh.
  assert (Hp : passes env (bundle_request u b k) = false) by by rewrite passes_bundle.
  rewrite (getBidRequestData_bundle env u req cb moduleConfig pg cfg b) by done.
  cbv zeta. fold k. rewrite (loadExternalScript_rejected env _ _ Hp). cbn [fst snd].
  eexists _, _. split; [done|]. split; [done|]. split; [done|].
  unfold rejection_events. cbn [bundle_request moduleType moduleCode]. rewrite Hgate.
  split; [done|]. split; [done|].
  intros acts Hacts. by apply not_handed_run.
Qed.

Lemma denied_auction_is_never_resumed_witness :
  ∃ pg' evs,
    getBidRequestData env_deny utils_plain 7 cb1 0 page0 = (pg', None)
    ∧ rtd_log pg' = rtd_log page0 ++ evs ∧ rtd_calls evs = [].
Proof.
  destruct (denied_auction_is_never_resumed env_deny utils_plain 7 cb1 0 page0
              "https://cdn.example/bundle.js")
    as (pg' & evs & H1 & H2 & H3 & _).
  - reflexivity.
  - apply asks_for_plain.
  - reflexivity.
  - apply page0_no_callbacks.
  - eauto.
Defined.

(** X10: when the bundle's element cannot be constructed, the auction goes
    on at once and only once.  The first auction for a bundle, in an
    environment where a DOM call of the loader throws, has the exception
    caught and its callback called synchronously; its closure stays in
    the queue of an entry that never completes, so that no later call or
    event runs it, and later auctions for the same bundle join that
    queue. *)
Theorem failed_bundle_load_continues_once env u req cb moduleConfig pg b acts :
  isActivityAllowed env (MODULE_TYPE_RTD u) MODULE_NAME = true →
  constructs env document None = false →
  asks_for u b moduleConfig →
  truthy b = true →
  wf (loader pg) →
  getCacheObject document b (loader pg) = None →
  let k := length (closures pg) in
  (∀ a, closure_callback k ∉ callbacks (deref a (loader pg))) →
  Forall (private_to document b (closure_callback k)) acts →
  ∃ pg' e msgs,
    getBidRequestData env u req cb moduleConfig pg
    = (pg', if cb_throws cb then Some (ErrCallback cb) else None)
    ∧ rtd_log pg' = rtd_log pg ++ msgs ++ [RtdLogError (ErrLoader e); RtdCallback cb]
    ∧ rtd_calls msgs = []
    ∧ callbacks (deref (length (heap (loader pg))) (loader pg')) = [closure_callback k]
    ∧ let st' := (run env acts (loader pg')).1 in
      loaded (deref (length (heap (loader pg))) st') = false
      ∧ ∃ evs, log st' = log (loader pg') ++ evs ∧ closure_callback k ∉ invocations evs.
Proof.
  intros Hgate Hcons (cfg & Hcfg & Hb) Ht Hwf Hmiss k Hfresh Hacts.
  set (r := bundle_request u b k).
  assert (Hp : passes env r = true) by (unfold r; by rewrite passes_bundle).
  destruct (dead_after_failed_load env r (closure_callback k) (loader pg) Hwf Hmiss Hp Hcons
              Hfresh) as [[e He] Hdead].
  rewrite (getBidRequestData_bundle env u req cb moduleConfig pg cfg b) by done.
  cbv zeta. fold k r. rewrite He.
  eexists _, e, [_; _]. split; [done|]. split; [cbn; by rewrite <- app_assoc|].
  split; [done|]. cbn [catch_error fst loader rtd_emit set_loader].
  assert (Hwf' : wf (loadExternalScript env r (loader pg)).1) by by apply wf_miss.
  destruct (dead_run env document b _ _ acts _ _ Hwf' Hacts Hdead) as [Hd' Hlog].
  split.
  - destruct (dead_object _ _ _ _ _ _ Hdead) as (o & Ho & _ & Hq).
    unfold deref. by rewrite Ho.
  - split; [|done]. destruct (dead_object _ _ _ _ _ _ Hd') as (o & Ho & Hl & _).
    unfold deref. by rewrite Ho.
Qed.

Lemma failed_bundle_load_continues_once_witness :
  ∃ pg' e msgs,
    getBidRequestData env_broken utils_plain 7 cb1 0 page0 = (pg', None)
    ∧ rtd_log pg' = rtd_log page0 ++ msgs ++ [RtdLogError (ErrLoader e); RtdCallback cb1].
Proof.
  destruct (failed_bundle_load_continues_once env_broken utils_plain 7 cb1 0 page0
              "https://cdn.example/bundle.js" [ActLoad 0])
    as (pg' & e & msgs & H1 & H2 & _).
  - reflexivity.
  - reflexivity.
  - apply asks_for_plain.
  - reflexivity.
  - apply wf_initial.
  - reflexivity.
  - apply page0_no_callbacks.
  - repeat constructor.
  - eauto.
Defined.

Lemma getBidRequestData_loader env u req cb moduleConfig pg b :
  asks_for u b moduleConfig →
  truthy b = true →
  let call := loadExternalScript env (bundle_request u b (length (closures pg))) (loader pg) in
  ∃ pg' out evs,
    getBidRequestData env u req cb moduleConfig pg = (pg', out)
    ∧ loader pg' = call.1
    ∧ (∃ fn, closures pg' = closures pg ++ [Closure fn req cb])
    ∧ optable pg' = optable pg
    ∧ rtd_log pg' = rtd_log pg ++ evs
    ∧ (is_return call.2 = true → rtd_calls evs = [] ∧ rtd_errors evs = [] ∧ out = None).
Proof.
  intros (cfg & Hcfg & Hb) Ht call.
  rewrite (getBidRequestData_bundle env u req cb moduleConfig pg cfg b) by done.
  cbv zeta. fold call. destruct (call.2) as [v|e].
  - eexists _, _, _. split; [done|]. cbn. split; [done|]. split; [eauto|]. done.
  - eexists _, _, _. split; [done|]. cbn. rewrite <- app_assoc.
    split; [done|]. split; [eauto|]. done.
Qed.

(** What a sequence of auctions for one bundle does to the loader is the
    run of their calls. *)
Lemma auctions_loader env u b l : ∀ pg,
  truthy b = true →
  Forall (λ x, asks_for u b (au_moduleConfig x)) l →
  let acts := bundle_calls u b (length (closures pg)) (length l) in
  ∃ pg' evs,
    auctions env u l pg = pg'
    ∧ loader pg' = (run env acts (loader pg)).1
    ∧ (∃ cls, closures pg' = closures pg ++ cls ∧ Forall2 made_for l cls)
    ∧ optable pg' = optable pg
    ∧ rtd_log pg' = rtd_log pg ++ evs
    ∧ (forallb is_return (run env acts (loader pg)).2 = true →
       rtd_calls evs = [] ∧ rtd_errors evs = []).
Proof.
  induction l as [|x l IH]; intros pg Ht Hall; cbv zeta.
  - exists pg, []. rewrite app_nil_r. repeat split; try done.
    exists []. by rewrite app_nil_r.
  - apply Forall_cons in Hall as [Hx Hall].
    destruct (getBidRequestData_loader env u (au_reqBidsConfigObj x) (au_callback x)
                (au_moduleConfig x) pg b Hx Ht)
      as (pg1 & out & evs1 & Hg & Hl1 & [fn Hk1] & Ho1 & Hlog1 & Hret1).
    destruct (IH pg1 Ht Hall) as (pg2 & evs2 & Ha & Hl2 & (cls & Hk2 & Hcls) & Ho2 & Hlog2 & Hret2).
    cbn [auctions]. rewrite Hg. exists pg2, (evs1 ++ evs2).
    split; [done|].
    assert (Hlen : length (closures pg1) = S (length (closures pg))).
    { rewrite Hk1, length_app. simpl. lia. }
    rewrite Hlen, Hl1 in Hl2. rewrite Hlen, Hl1 in Hret2.
    unfold bundle_calls in *. cbn [length seq fmap list_fmap].
    rewrite run_cons. cbn [exec].
    destruct (loadExternalScript env _ (loader pg)) as [st1 res1]. cbn [fst snd] in *.
    destruct (run env _ st1) as [st2 rs]. cbn [fst snd] in *.
    split; [done|].
    split. { eexists (_ :: cls). rewrite Hk2, Hk1, <- app_assoc. split; [done|].
             by apply Forall2_cons. }
    split; [congruence|]. split; [by rewrite Hlog2, Hlog1, <- app_assoc|].
    simpl. intros [Hr1 Hrs]%andb_true_iff.
    destruct (Hret1 Hr1) as (Hc1 & He1 & _). destruct (Hret2 Hrs) as (Hc2 & He2).
    unfold rtd_calls, rtd_errors in *. rewrite !omap_app.
    by rewrite Hc1, He1, Hc2, He2.
Qed.

Lemma queued_bundle_calls u b k n :
  (bundle_request u b <$> seq k n) ≫= queued = closure_callback <$> seq k n.
Proof.
  revert k. induction n as [|n IH]; intros k; [done|]. simpl. f_equal. apply IH.
Qed.

(** X11: auctions share one load of the bundle.  When the gate allows the
    module and the DOM calls succeed, any number of auctions that ask for
    the same bundle, the first of them finding no entry for it, create
    and insert one script element in [document]; none of their callbacks
    is called meanwhile and nothing is logged as an error; their closures,
    one for each auction, wait in the entry's queue in the order of the
    auctions, and the browser's completion signal runs them in that
    order. *)
Theorem auctions_share_one_bundle_load env u l pg b :
  isActivityAllowed env (MODULE_TYPE_RTD u) MODULE_NAME = true →
  constructs env document None = true →
  truthy b = true →
  Forall (λ x, asks_for u b (au_moduleConfig x)) l →
  l ≠ [] →
  getCacheObject document b (loader pg) = None →
  let t := length (scripts (loader pg)) in
  let a := length (heap (loader pg)) in
  let ks := closure_callback <$> seq (length (closures pg)) (length l) in
  ∃ pg', auctions env u l pg = pg'
    ∧ (∃ cls, closures pg' = closures pg ++ cls ∧ Forall2 made_for l cls)
    ∧ (∃ evs, rtd_log pg' = rtd_log pg ++ evs ∧ rtd_calls evs = [] ∧ rtd_errors evs = [])
    ∧ (∃ evs, log (loader pg') = log (loader pg) ++ evs
              ∧ created evs = [(document, t)] ∧ insertions evs = [(t, document)]
              ∧ invocations evs = [])
    ∧ length (scripts (loader pg')) = S t
    ∧ getCacheObject document b (loader pg') = Some (Entry a)
    ∧ deref a (loader pg') = CacheObject false (Some t) ks
    ∧ log (exec env (completion_signal env document t) (loader pg')).1
      = log (loader pg') ++ (EvCallback <$> ks).
Proof.
  intros Hgate Hcons Ht Hall Hne Hmiss. cbv zeta.
  destruct l as [|x l]; [done|]. clear Hne.
  destruct (auctions_loader env u b (x :: l) pg Ht Hall)
    as (pg' & evs & Ha & Hl & Hcls & _ & Hlog & Hret).
  exists pg'. split; [done|]. split; [done|].
  set (k := length (closures pg)) in *.
  set (r := bundle_request u b k).
  set (rs := bundle_request u b <$> seq (S k) (length l)).
  assert (Hacts : bundle_calls u b k (length (x :: l)) = ActCall r :: (ActCall <$> rs)) by done.
  rewrite Hacts in Hl, Hret. clear Hacts.
  assert (Hp : passes env r = true) by (unfold r; by rewrite passes_bundle).
  assert (Hsame : Forall (λ r', same_entry env document b (ActCall r') = true) rs).
  { unfold rs. apply Forall_fmap, Forall_true. intros i. cbn.
    rewrite passes_bundle, Hgate by done. by rewrite !bool_decide_eq_true_2. }
  assert (Hq : queued r ++ (rs ≫= queued) = closure_callback <$> seq k (S (length l))).
  { unfold rs. by rewrite queued_bundle_calls. }
  assert (Hno : Forall (λ c, cb_throws c = false) (queued r ++ (rs ≫= queued))).
  { rewrite Hq. apply Forall_fmap, Forall_true. done. }
  destruct (load_state_entry env r (loader pg)) as [Hg Ho].
  assert (Hrun : run env (ActCall r :: (ActCall <$> rs)) (loader pg)
    = (State (_requestCache (load_state env r (loader pg)))
             (<[length (heap (loader pg)) :=
                  CacheObject false (Some (length (scripts (loader pg))))
                    (queued r ++ (rs ≫= queued))]> (heap (load_state env r (loader pg))))
             (scripts (load_state env r (loader pg)))
             (log (load_state env r (loader pg)) ++ (gate_event <$> rs)),
       Return (Element (length (scripts (loader pg))))
       :: replicate (length rs) (Return (Element (length (scripts (loader pg))))))).
  { rewrite run_cons. cbn [exec].
    rewrite (loadExternalScript_miss_ok env r (loader pg)) by done.
    by rewrite (run_calls_pending env document b (length (heap (loader pg))) rs _ _
                  Hg Ho eq_refl Hsame). }
  pose proof (pending_callbacks_drain_in_order env r rs (loader pg) Hmiss Hp Hcons
                eq_refl eq_refl Hsame Hno)
    as (_ & Hdrain & _). cbv zeta in Hdrain.
  rewrite <- Hl, Hq in Hdrain.
  rewrite Hrun in Hl, Hret. cbn [fst snd] in Hl, Hret.
  split.
  { exists evs. split; [done|]. apply Hret. simpl.
    clear. induction (length rs) as [|n IH]; [done|]. exact IH. }
  split.
  { rewrite Hl. cbn [log load_state]. rewrite <- app_assoc. eexists. split; [done|].
    assert (Hg0 : created (gate_event <$> rs) = [] ∧ insertions (gate_event <$> rs) = []
                  ∧ invocations (gate_event <$> rs) = []).
    { clear. induction rs as [|y rs IH]; [done|]. exact IH. }
    destruct Hg0 as (Hg1 & Hg2 & Hg3).
    rewrite created_app, insertions_app, invocations_app, Hg1, Hg2, Hg3. done. }
  split; [rewrite Hl; cbn; rewrite length_app; simpl; lia|].
  split; [rewrite Hl; by apply (getCacheObject_cache _ _ (load_state env r (loader pg)))|].
  split; [|exact Hdrain].
  rewrite Hl, Hq. unfold deref. cbn [heap load_state].
  rewrite list_lookup_insert_eq; [done|]. rewrite length_app. simpl. lia.
Qed.

Lemma auctions_share_one_bundle_load_witness :
  ∃ pg', auctions env_plain utils_plain [Auction 7 cb1 0; Auction 8 cb2 0] page0 = pg'
    ∧ deref 0 (loader pg')
      = CacheObject false (Some 0) [closure_callback 0; closure_callback 1].
Proof.
  destruct (auctions_share_one_bundle_load env_plain utils_plain
              [Auction 7 cb1 0; Auction 8 cb2 0] page0 "https://cdn.example/bundle.js")
    as (pg' & H1 & _ & _ & _ & _ & _ & H2 & _).
  - reflexivity.
  - reflexivity.
  - reflexivity.
  - repeat constructor; apply asks_for_plain.
  - discriminate.
  - reflexivity.
  - eauto.
Defined.

Lemma getBidRequestData_no_bundle env u req cb moduleConfig pg :
  no_bundle u moduleConfig →
  is_foreign (optable pg) = false →
  ∃ pg' fn msgs,
    getBidRequestData env u req cb moduleConfig pg = (pg', None)
    ∧ loader pg' = loader pg
    ∧ closures pg' = closures pg ++ [Closure fn req cb]
    ∧ optable pg' = OptQueue (cmd_of (optable pg) ++ [length (closures pg)])
    ∧ rtd_log pg' = rtd_log pg ++ msgs
    ∧ rtd_calls msgs = [] ∧ rtd_errors msgs = [].
Proof.
  intros (cfg & Hcfg & Hb) Hf. unfold getBidRequestData. rewrite Hcfg, Hb.
  cbn [rtd_emit optable closures].
  destruct (optable pg) as [|cmd|h]; [| |done]; eexists _, _, _;
    (split; [done|]); cbn; rewrite <- app_assoc; done.
Qed.

Lemma auctions_no_bundle env u l : ∀ pg,
  Forall (λ x, no_bundle u (au_moduleConfig x)) l →
  is_foreign (optable pg) = false →
  ∃ pg' cls msgs,
    auctions env u l pg = pg'
    ∧ loader pg' = loader pg
    ∧ closures pg' = closures pg ++ cls ∧ Forall2 made_for l cls
    ∧ optable pg' = match l with
                    | [] => optable pg
                    | _ => OptQueue (cmd_of (optable pg)
                                     ++ seq (length (closures pg)) (length l))
                    end
    ∧ rtd_log pg' = rtd_log pg ++ msgs
    ∧ rtd_calls msgs = [] ∧ rtd_errors msgs = [].
Proof.
  induction l as [|x l IH]; intros pg Hall Hf.
  - exists pg, [], []. by rewrite !app_nil_r.
  - apply Forall_cons in Hall as [Hx Hall].
    destruct (getBidRequestData_no_bundle env u (au_reqBidsConfigObj x) (au_callback x)
                (au_moduleConfig x) pg Hx Hf)
      as (pg1 & fn & m1 & Hg & Hl1 & Hk1 & Ho1 & Hlog1 & Hc1 & He1).
    assert (Hf1 : is_foreign (optable pg1) = false) by by rewrite Ho1.
    destruct (IH pg1 Hall Hf1) as (pg2 & cls & m2 & Ha & Hl2 & Hk2 & Hcls & Ho2 & Hlog2 & Hc2 & He2).
    cbn [auctions]. rewrite Hg.
    exists pg2, (Closure fn (au_reqBidsConfigObj x) (au_callback x) :: cls), (m1 ++ m2).
    split; [done|]. split; [congruence|].
    split; [by rewrite Hk2, Hk1, <- app_assoc|].
    split; [by apply Forall2_cons|].
    split.
    + rewrite Ho2, Ho1. cbn [cmd_of].
      assert (length (closures pg1) = S (length (closures pg))) as ->.
      { rewrite Hk1, length_app. simpl. lia. }
      destruct l; [done|]. by rewrite <- app_assoc.
    + split; [by rewrite Hlog2, Hlog1, <- app_assoc|].
      unfold rtd_calls, rtd_errors in *. rewrite !omap_app. by rewrite Hc1, He1, Hc2, He2.
Qed.

Lemma getBidRequestData_no_bundle_loader env u req cb moduleConfig pg :
  no_bundle u moduleConfig →
  loader (getBidRequestData env u req cb moduleConfig pg).1 = loader pg.
Proof.
  intros (cfg & Hcfg & Hb). unfold getBidRequestData. rewrite Hcfg, Hb.
  cbn [rtd_emit optable closures].
  destruct (optable pg) as [|cmd|h]; [done..|]. by destruct (push_throws u h).
Qed.

Lemma auctions_no_bundle_loader env u l : ∀ pg,
  Forall (λ x, no_bundle u (au_moduleConfig x)) l →
  loader (auctions env u l pg) = loader pg.
Proof.
  induction l as [|x l IH]; intros pg Hall; [done|].
  apply Forall_cons in Hall as [Hx Hall]. cbn [auctions].
  rewrite IH by done. by apply getBidRequestData_no_bundle_loader.
Qed.

(** X12: without a bundle the loader is left alone.  Auctions whose
    configuration names no bundle never call [loadExternalScript]: the
    loader's state, its log included, is unchanged, whatever
    [window.optable] is.  Where [window.optable] is absent or is an
    object with a plain [cmd] array, as this module creates it, it is
    created if it is absent, and the closures, one for each auction, are
    pushed on its [cmd] queue in the order of the auctions, behind what
    the queue held; no callback is called meanwhile.  (Of a
    [window.optable] of the page's own, whose [push] may throw, only the
    first part is stated.) *)
Theorem auctions_without_bundle_queue_on_page env u l pg :
  Forall (λ x, no_bundle u (au_moduleConfig x)) l →
  l ≠ [] →
  let pg' := auctions env u l pg in
  loader pg' = loader pg
  ∧ (is_foreign (optable pg) = false →
     ∃ cls msgs,
       closures pg' = closures pg ++ cls ∧ Forall2 made_for l cls
       ∧ optable pg' = OptQueue (cmd_of (optable pg) ++ seq (length (closures pg)) (length l))
       ∧ rtd_log pg' = rtd_log pg ++ msgs
       ∧ rtd_calls msgs = [] ∧ rtd_errors msgs = []).
Proof.
  intros Hall Hne. cbv zeta. split; [by apply auctions_no_bundle_loader|].
  intros Hf.
  destruct (auctions_no_bundle env u l pg Hall Hf) as (pg' & cls & msgs & <- & _ & H).
  exists cls, msgs. by destruct l.
Qed.

Lemma no_bundle_plain : no_bundle utils_plain 2.
Proof. eexists. split; reflexivity. Qed.

Lemma auctions_without_bundle_queue_on_page_witness :
  let pg' := auctions env_plain utils_plain [Auction 7 cb1 2; Auction 8 cb2 2] page0 in
  loader pg' = loader page0
  ∧ optable pg' = OptQueue [0; 1].
Proof.
  intros pg'.
  destruct (auctions_without_bundle_queue_on_page env_plain utils_plain
              [Auction 7 cb1 2; Auction 8 cb2 2] page0)
    as (H1 & H2).
  - repeat constructor; apply no_bundle_plain.
  - discriminate.
  - split; [exact H1|].
    destruct (H2 eq_refl) as (cls & msgs & _ & _ & H3 & _). exact H3.
Defined.

(** X13: an auction after the bundle has loaded runs its closure at
    once.  When the entry of the bundle is loaded, [getBidRequestData]
    has the loader invoke the new closure synchronously, before it
    returns; the closure is not queued, no element is created, and the
    call returns normally without the catch block calling the auction's
    callback. *)
Theorem auction_after_load_runs_at_once env u req cb moduleConfig pg b a :
  isActivityAllowed env (MODULE_TYPE_RTD u) MODULE_NAME = true →
  asks_for u b moduleConfig →
  truthy b = true →
  getCacheObject document b (loader pg) = Some (Entry a) →
  loaded (deref a (loader pg)) = true →
  let k := length (closures pg) in
  ∃ pg' fn msgs,
    getBidRequestData env u req cb moduleConfig pg = (pg', None)
    ∧ loader pg'
      = add_log [gate_event (bundle_request u b k); EvCallback (closure_callback k)]
          (loader pg)
    ∧ closures pg' = closures pg ++ [Closure fn req cb]
    ∧ rtd_log pg' = rtd_log pg ++ msgs
    ∧ rtd_calls msgs = [] ∧ rtd_errors msgs = [].
Proof.
  intros Hgate (cfg & Hcfg & Hb) Ht Ha Hld k.
  rewrite (getBidRequestData_bundle env u req cb moduleConfig pg cfg b) by done.
  cbv zeta. fold k.
  assert (Hp : passes env (bundle_request u b k) = true) by by rewrite passes_bundle.
  rewrite (loadExternalScript_hit env (bundle_request u b k) (loader pg) a Hp Ha).
  unfold hit. cbn [bundle_request callback_arg]. rewrite deref_add_log, Hld.
  cbn [closure_callback cb_throws fst snd]. rewrite add_log_app.
  eexists _, _, [_; _]. split; [done|]. cbn. done.
Qed.

Lemma auction_after_load_runs_at_once_witness :
  let pg := Page (run env_plain [ActCall (bundle_request utils_plain
                                            "https://cdn.example/bundle.js" 0);
                                 ActLoad 0] initial).1
                 [Closure None 7 cb1] OptAbsent [] in
  ∃ pg', getBidRequestData env_plain utils_plain 8 cb2 0 pg = (pg', None)
    ∧ invocations (log (loader pg')) = [closure_callback 0; closure_callback 1].
Proof.
  intros pg.
  destruct (auction_after_load_runs_at_once env_plain utils_plain 8 cb2 0 pg
              "https://cdn.example/bundle.js" 0)
    as (pg' & fn & msgs & H1 & H2 & _).
  - reflexivity.
  - apply asks_for_plain.
  - reflexivity.
  - reflexivity.
  - reflexivity.
  - exists pg'. split; [exact H1|]. rewrite H2. reflexivity.
Defined.

(** X14: what [getBidRequestData] asks of the loader.  A call either
    leaves the loader's state as it is or makes one call of
    [loadExternalScript], for [document], as module ['optable'] of type
    [MODULE_TYPE_RTD], without attributes and with a fresh closure.  A
    configured [bundleUrl] that is a string is handed over trimmed, and
    is then not empty and starts with ['http://'], ['https://'] or ['/'];
    a [bundleUrl] that is truthy and not a string is handed over as it
    is, neither trimmed nor checked. *)
Theorem getBidRequestData_loads_only_checked_urls env u req cb moduleConfig pg :
  let pg' := (getBidRequestData env u req cb moduleConfig pg).1 in
  let v := deepAccess u moduleConfig "params.bundleUrl" VNull in
  loader pg' = loader pg
  ∨ (∃ s, v = VString s
      ∧ trim u s ≠ ""%string
      ∧ (startsWith (trim u s) "http://" || startsWith (trim u s) "https://"
         || startsWith (trim u s) "/") = true
      ∧ loader pg'
        = (loadExternalScript env
             (Request (trim u s) (MODULE_TYPE_RTD u) "optable"
                (CbFunction (closure_callback (length (closures pg))))
                (Some document) None)
             (loader pg)).1)
  ∨ ((∀ s, v ≠ VString s) ∧ truthy_value v = true
     ∧ loader pg'
       = (loadExternalScript_other u moduleConfig (length (closures pg)) (loader pg)).1).
Proof.
  cbv zeta. destruct (parseConfig u moduleConfig) as [cfg|e] eqn:Hcfg.
  - destruct (bundleUrl cfg) as [| | |b| |] eqn:Hb.
    4: { destruct (truthy b) eqn:Ht.
      - right. left.
        destruct (parseConfig_bundle u moduleConfig cfg b Hcfg Hb Ht) as [Hpre _].
        assert (∃ s, deepAccess u moduleConfig "params.bundleUrl" VNull = VString s
                     ∧ b = trim u s) as (s & Hs & ->).
        { unfold parseConfig in Hcfg.
          destruct (deepAccess u moduleConfig "params.bundleUrl" VNull) as [| | |s| |];
            repeat match type of Hcfg with
                   | (if ?x then _ else _) = _ => destruct x
                   end; try done; injection Hcfg as <-; simpl in Hb; try done.
          injection Hb as <-. eauto. }
        exists s. split; [done|]. split.
        { intros Heq. rewrite Heq in Ht. done. }
        split; [done|].
        rewrite (getBidRequestData_bundle env u req cb moduleConfig pg cfg _ Hcfg Hb Ht).
        cbv zeta. unfold bundle_request, MODULE_NAME.
        by destruct (loadExternalScript env _ (loader pg)) as [st [x|e]].
      - left. unfold getBidRequestData. rewrite Hcfg, Hb.
        cbn [truthy_value]. rewrite Ht. cbn [rtd_emit optable closures].
        destruct (optable pg) as [|cmd|h]; [done..|]. by destruct (push_throws u h). }
    all: assert (Hv : deepAccess u moduleConfig "params.bundleUrl" VNull = bundleUrl cfg);
      [unfold parseConfig in Hcfg;
       destruct (deepAccess u moduleConfig "params.bundleUrl" VNull) as [| | |s| |];
       repeat match type of Hcfg with
              | (if ?x then _ else _) = _ => destruct x
              end; try done; injection Hcfg as <-; simpl in Hb; done|].
    all: destruct (truthy_value (bundleUrl cfg)) eqn:Htv;
      [right; right; rewrite Hv, Hb; rewrite Hb in Htv;
       split; [done|]; split; [done|];
       unfold getBidRequestData; rewrite Hcfg, Hb; rewrite Htv;
       cbn [rtd_emit add_closure loader closures optable rtd_log];
       by destruct (loadExternalScript_other u moduleConfig _ (loader pg)) as [st [x|e]]
      |left; unfold getBidRequestData; rewrite Hcfg; rewrite Htv;
       cbn [rtd_emit optable closures];
       destruct (optable pg) as [|cmd|h]; [done..|]; by destruct (push_throws u h)].
  - left. unfold getBidRequestData. by rewrite Hcfg.
Qed.
(** * The payload filter *)

Lemma is_array_deepFilter v : is_array (deepFilter v) = is_array v.
Proof. by destruct v. Qed.

Lemma is_object_deepFilter v : is_object (deepFilter v) = is_object v.
Proof. by destruct v. Qed.

Lemma is_truthy_deepFilter v : is_truthy (Some (deepFilter v)) = is_truthy (Some v).
Proof. by destruct v. Qed.

Lemma deepFilter_not_object v : is_object v = false → deepFilter v = v.
Proof. by destruct v. Qed.

Lemma filterProps_cons d f key v rest :
  filterProps d f ((key, v) :: rest)
  = if bool_decide (key = "ad") then filterProps d f rest
    else if bool_decide (key = "__proto__") then filterProps d f rest
    else if bool_decide (key = "segment") && d && is_array v then
      (key, PArr []) :: filterProps d f rest
    else if bool_decide (key = "uids") && is_array v then (key, PArr []) :: filterProps d f rest
    else if bool_decide (key = "metrics") && is_object v then
      (key, PObj []) :: filterProps d f rest
    else if is_object v then (key, f v) :: filterProps d f rest
    else (key, v) :: filterProps d f rest.
Proof. done. Qed.

(** The property is dropped: its key is [ad] or [__proto__]. *)
Lemma filterProps_dropped d key v rest :
  key = "ad"%string ∨ key = "__proto__"%string →
  filterProps d deepFilter ((key, v) :: rest) = filterProps d deepFilter rest.
Proof.
  intros [-> | ->]; rewrite filterProps_cons; [done|].
  by rewrite bool_decide_eq_false_2.
Qed.

(** The cases of one turn of the loop. *)
Lemma filterProps_cases d key v rest :
  ((key = "ad" ∨ key = "__proto__")
   ∧ filterProps d deepFilter ((key, v) :: rest) = filterProps d deepFilter rest)
  ∨ (key ≠ "ad" ∧ key ≠ "__proto__" ∧ emptied_array d key v = true
     ∧ filterProps d deepFilter ((key, v) :: rest)
       = (key, PArr []) :: filterProps d deepFilter rest)
  ∨ (key ≠ "ad" ∧ key ≠ "__proto__"
     ∧ emptied_array d key v = false ∧ emptied_object key v = true
     ∧ filterProps d deepFilter ((key, v) :: rest)
       = (key, PObj []) :: filterProps d deepFilter rest)
  ∨ (key ≠ "ad" ∧ key ≠ "__proto__"
     ∧ emptied_array d key v = false ∧ emptied_object key v = false
     ∧ filterProps d deepFilter ((key, v) :: rest)
       = (key, deepFilter v) :: filterProps d deepFilter rest).
Proof.
  rewrite filterProps_cons. unfold emptied_array, emptied_object.
  destruct (bool_decide (key = "ad")) eqn:Had.
  { left. apply bool_decide_eq_true in Had. auto. }
  apply bool_decide_eq_false in Had.
  destruct (bool_decide (key = "__proto__")) eqn:Hpr.
  { left. apply bool_decide_eq_true in Hpr. auto. }
  apply bool_decide_eq_false in Hpr. right.
  destruct (bool_decide (key = "segment") && d && is_array v) eqn:Hseg; [by left|].
  destruct (bool_decide (key = "uids") && is_array v) eqn:Huid; [by left|].
  right. destruct (bool_decide (key = "metrics") && is_object v) eqn:Hm; [by left|].
  right. destruct (is_object v) eqn:Ho; [done|]. by rewrite deepFilter_not_object.
Qed.

Lemma get_data_filterProps d props :
  is_truthy (get "data" (filterProps d deepFilter props)) = is_truthy (get "data" props).
Proof.
  induction props as [|[key v] rest IH]; [done|].
  destruct (filterProps_cases d key v rest)
    as [[Hk ->]|[(Had & _ & He & ->)|[(Had & _ & _ & He & ->)|(Had & _ & _ & _ & ->)]]].
  - rewrite IH. cbn [get]. rewrite bool_decide_eq_false_2; [done|].
    by destruct Hk as [-> | ->].
  - cbn [get]. case_bool_decide as Hk; [|done]. subst key. done.
  - cbn [get]. case_bool_decide as Hk; [|done]. subst key. done.
  - cbn [get]. case_bool_decide as Hk; [|done]. apply is_truthy_deepFilter.
Qed.

Lemma emptied_array_deepFilter d key v :
  emptied_array d key (deepFilter v) = emptied_array d key v.
Proof. unfold emptied_array. by rewrite is_array_deepFilter. Qed.

Lemma emptied_object_deepFilter key v :
  emptied_object key (deepFilter v) = emptied_object key v.
Proof. unfold emptied_object. by rewrite is_object_deepFilter. Qed.

Lemma deepFilter_scrubbed v : scrubbed (deepFilter v) = true.
Proof.
  induction v as [|i t|xs IH|props IH] using payload_ind'; [done..| |].
  - simpl. induction IH as [|x xs Hx _ IHxs]; [done|]. simpl. by rewrite Hx, IHxs.
  - cbn [deepFilter scrubbed]. rewrite get_data_filterProps.
    generalize (is_truthy (get "data" props)). intros d.
    induction IH as [|[key v] rest Hv _ IHrest]; [done|]. cbn [snd] in Hv.
    destruct (filterProps_cases d key v rest)
      as [[_ ->]|[(Had & _ & He & ->)|[(Had & _ & Ha & He & ->)|(Had & _ & Ha & He & ->)]]];
      [done|cbn [forallb fst snd]; rewrite bool_decide_eq_false_2 by done..].
    + unfold emptied_array in *. simpl.
      by destruct (bool_decide (key = "segment") && d), (bool_decide (key = "uids")).
    + assert (emptied_array d key (PObj []) = false) as ->.
      { unfold emptied_array in *. simpl. by rewrite !andb_false_r. }
      assert (emptied_object key (PObj []) = true) as ->.
      { unfold emptied_object in *. simpl. apply andb_true_iff in He as [-> _]. done. }
      done.
    + by rewrite emptied_array_deepFilter, emptied_object_deepFilter, Ha, He, Hv.
Qed.


Lemma deepFilter_fixed v :
  scrubbed v = true → mentions "__proto__" v = false → deepFilter v = v.
Proof.
  induction v as [|i t|xs IH|props IH] using payload_ind'; [done..| |].
  - simpl. intros H Hm. f_equal. induction IH as [|x xs Hx _ IHxs]; [done|].
    simpl in H, Hm. apply andb_true_iff in H as [H1 H2].
    apply orb_false_iff in Hm as [Hm1 Hm2]. simpl. by rewrite Hx, IHxs.
  - cbn [scrubbed deepFilter mentions]. generalize (is_truthy (get "data" props)).
    intros d H Hm.
    f_equal. induction IH as [|[key v] rest Hv _ IHrest]; [done|].
    cbn [forallb existsb fst snd] in H, Hv, Hm.
    apply andb_true_iff in H as [[Had H]%andb_true_iff Hrest].
    apply orb_false_iff in Hm as [[Hpr Hmv]%orb_false_iff Hmrest].
    apply negb_true_iff, bool_decide_eq_false in Had.
    apply bool_decide_eq_false in Hpr. specialize (IHrest Hrest Hmrest).
    destruct (filterProps_cases d key v rest)
      as [[[->| ->] _]|[(_ & _ & He & ->)|[(_ & _ & Ha & He & ->)|(_ & _ & Ha & He & ->)]]];
      [done|done|..].
    + rewrite He in H. rewrite IHrest. by destruct v as [| |[|]|].
    + rewrite Ha, He in H. rewrite IHrest. by destruct v as [| | |[|]].
    + rewrite Ha, He in H. by rewrite IHrest, (Hv H Hmv).
Qed.

(** What the filter builds has no [__proto__] key. *)
Lemma deepFilter_no_proto v : mentions "__proto__" (deepFilter v) = false.
Proof.
  induction v as [|i t|xs IH|props IH] using payload_ind'; [done..| |].
  - simpl. induction IH as [|x xs Hx _ IHxs]; [done|]. simpl. by rewrite Hx, IHxs.
  - cbn [deepFilter mentions]. generalize (is_truthy (get "data" props)). intros d.
    induction IH as [|[key v] rest Hv _ IHrest]; [done|]. cbn [snd] in Hv.
    destruct (filterProps_cases d key v rest)
      as [[_ ->]|[(_ & Hpr & _ & ->)|[(_ & Hpr & _ & _ & ->)|(_ & Hpr & _ & _ & ->)]]];
      [done|cbn [existsb fst snd]; rewrite (bool_decide_eq_false_2 _ Hpr), IHrest..].
    + done.
    + done.
    + by rewrite Hv.
Qed.


(** X16: [filterData] changes nothing in a payload that is already
    scrubbed and has no [__proto__] key; in particular a payload without
    [ad], [segment], [uids], [metrics] and [__proto__] properties comes
    back as it is.  (A [__proto__] key does not come back: the filter
    turns it into the prototype of what it builds.) *)
Theorem filterData_fixes_scrubbed args :
  scrubbed args = true →
  mentions "__proto__" args = false →
  filterData args = args.
Proof. apply deepFilter_fixed. Qed.

Lemma filterData_fixes_scrubbed_witness :
  filterData (PObj [("bidder", POther 1 true); ("uids", PArr []);
                    ("sizes", PArr [POther 2 true; PNull])])
  = PObj [("bidder", POther 1 true); ("uids", PArr []);
          ("sizes", PArr [POther 2 true; PNull])].
Proof. apply filterData_fixes_scrubbed; reflexivity. Defined.

(** X17: on payloads without a [__proto__] key [filterData] is
    idempotent: filtering the filtered payload gives the same payload.
    (With such a key the first result has a prototype of its own, from
    which the second pass may read [data]; the statement is not made of
    it.) *)
Theorem filterData_idempotent args :
  mentions "__proto__" args = false →
  filterData (filterData args) = filterData args.
Proof.
  intros _. apply deepFilter_fixed; [apply deepFilter_scrubbed|apply deepFilter_no_proto].
Qed.

Lemma filterData_idempotent_witness :
  let args := PObj [("ad", POther 1 true); ("data", POther 2 true);
                    ("segment", PArr [POther 3 true]);
                    ("user", PObj [("uids", PArr [PNull]); ("metrics", PNull)])] in
  filterData (filterData args) = filterData args.
Proof. intros args. apply (filterData_idempotent args). reflexivity. Defined.

Lemma filterProps_keys d props :
  (filterProps d deepFilter props).*1
  = filter (λ k, k ≠ "ad" ∧ k ≠ "__proto__") props.*1.
Proof.
  induction props as [|[key v] rest IH]; [done|].
  destruct (filterProps_cases d key v rest)
    as [[Hk ->]|[(Had & Hpr & _ & ->)|[(Had & Hpr & _ & _ & ->)|(Had & Hpr & _ & _ & ->)]]];
    cbn [fmap list_fmap fst].
  - rewrite filter_cons_False by tauto. exact IH.
  - rewrite filter_cons_True by done. by rewrite <- IH.
  - rewrite filter_cons_True by done. by rewrite <- IH.
  - rewrite filter_cons_True by done. by rewrite <- IH.
Qed.

(** X18: [filterData] keeps the shape of a payload.  An array keeps its
    length, each element being filtered in place; an object keeps its
    keys in their order, except [ad] and [__proto__]; a property that is
    neither of these nor emptied holds the filtered value of the
    original. *)
Theorem filterData_keeps_shape :
  (∀ xs, filterData (PArr xs) = PArr (filterData <$> xs))
  ∧ (∀ props, ∃ props', filterData (PObj props) = PObj props'
       ∧ props'.*1 = filter (λ k, k ≠ "ad" ∧ k ≠ "__proto__") props.*1
       ∧ ∀ key v, (key, v) ∈ props → key ≠ "ad" → key ≠ "__proto__" →
           emptied_array (is_truthy (get "data" props)) key v = false →
           emptied_object key v = false →
           (key, filterData v) ∈ props').
Proof.
  split; [done|]. intros props.
  exists (filterProps (is_truthy (get "data" props)) deepFilter props).
  split; [done|]. split; [apply filterProps_keys|].
  generalize (is_truthy (get "data" props)). intros d key v Hin Had Hpr Ha He.
  induction props as [|[key' v'] rest IH]; [by apply elem_of_nil in Hin|].
  apply elem_of_cons in Hin as [[= -> ->]|Hin].
  - destruct (filterProps_cases d key' v' rest)
      as [[[->| ->] _]|[(_ & _ & He' & _)|[(_ & _ & _ & He' & _)|(_ & _ & _ & _ & ->)]]];
      [done|done|congruence..|apply list_elem_of_here].
  - specialize (IH Hin).
    destruct (filterProps_cases d key' v' rest)
      as [[_ ->]|[(_ & _ & _ & ->)|[(_ & _ & _ & _ & ->)|(_ & _ & _ & _ & ->)]]];
      [done|by apply list_elem_of_further..].
Qed.

Lemma filterData_keeps_shape_witness :
  ∃ props', filterData (PObj [("ad", POther 1 true); ("cpm", POther 2 true);
                              ("__proto__", PObj [("data", POther 3 true)]);
                              ("meta", PObj [("ad", PNull)])])
            = PObj props'
    ∧ props'.*1 = ["cpm"; "meta"]
    ∧ ("meta", filterData (PObj [("ad", PNull)])) ∈ props'.
Proof.
  destruct filterData_keeps_shape as [_ H].
  destruct (H [("ad", POther 1 true); ("cpm", POther 2 true);
               ("__proto__", PObj [("data", POther 3 true)]);
               ("meta", PObj [("ad", PNull)])])
    as (props' & H1 & H2 & H3).
  exists props'. split; [exact H1|]. split; [exact H2|].
  apply H3; [|done..].
  apply list_elem_of_further, list_elem_of_further, list_elem_of_further, list_elem_of_here.
Defined.

(** X19: the [segment] rule applies only beside [data].  A [segment]
    array is emptied only when the object that holds it also has a truthy
    [data] property; in an object without one, such as an entry of
    OpenRTB's [user.data], the segments are kept, each filtered in
    place. *)
Theorem segments_survive_without_data props :
  is_truthy (get "data" props) = false →
  ∃ props', filterData (PObj props) = PObj props'
    ∧ get "segment" props' = filterData <$> get "segment" props.
Proof.
  intros Hd. exists (filterProps (is_truthy (get "data" props)) deepFilter props).
  split; [done|]. rewrite Hd. clear Hd. unfold filterData.
  induction props as [|[key v] rest IH]; [done|].
  destruct (filterProps_cases false key v rest)
    as [[Hk ->]|[(Had & _ & He & ->)|[(Had & _ & Ha & He & ->)|(Had & _ & Ha & He & ->)]]].
  - cbn [get]. rewrite bool_decide_eq_false_2; [done|]. by destruct Hk as [-> | ->].
  - unfold emptied_array in He. rewrite andb_false_r in He. simpl in He.
    apply andb_true_iff in He as [Hk Harr]. apply bool_decide_eq_true in Hk. subst key.
    cbn [get]. by rewrite !bool_decide_eq_false_2.
  - unfold emptied_object in He. apply andb_true_iff in He as [Hk _].
    apply bool_decide_eq_true in Hk. subst key.
    cbn [get]. by rewrite !bool_decide_eq_false_2.
  - cbn [get]. by case_bool_decide.
Qed.

Lemma segments_survive_without_data_witness :
  ∃ props', filterData (PObj [("name", POther 1 true);
                              ("segment", PArr [PObj [("id", POther 2 true)]])])
            = PObj props'
    ∧ get "segment" props' = Some (filterData (PArr [PObj [("id", POther 2 true)]])).
Proof.
  apply (segments_survive_without_data
           [("name", POther 1 true); ("segment", PArr [PObj [("id", POther 2 true)]])]).
  reflexivity.
Defined.

